(** * jwzthreading: a shallow embedding of [jwzthreading.py]

    The Python module threads mail messages with the JWZ algorithm.  Its
    containers are mutable objects that point at each other ([parent],
    [children]); here they live in an arena ([Heap]) and a container is
    named by its index in the arena.  Every function of the module that
    reads or writes containers takes the heap and gives the new heap back;
    a Python exception is a [Raise].  Dictionaries that remember insertion
    order ([OrderedDict]) are association lists. *)

From Stdlib Require Import Strings.String Strings.Ascii Arith Lia.
From Stdlib Require Import Structures.OrdersEx.
From stdpp Require Import base tactics option list strings sorting sets.
From stdpp Require Import relations pretty.

Local Open Scope string_scope.
Local Open Scope list_scope.

(** ** Exceptions *)

Inductive Error : Set :=
| ValueError      (* list.remove(x) with x absent; bad sort key *)
| TypeError       (* what is not a string where a string is needed;
                     sort keys that do not compare *)
| IndexError      (* [children[0]] of an empty list *)
| AttributeError  (* [.message] / [.subject] of [None] *)
| AssertionError
| RecursionError  (* the depth of calls that the interpreter allows is
                     used up *)
| OutOfFuel.      (* the budget that the model gives a loop is used up *)

Inductive Result (A : Type) : Type :=
| Ok (a : A)
| Raise (e : Error).
Arguments Ok {A} a.
Arguments Raise {A} e.

Definition bind {A B : Type} (r : Result A) (k : A -> Result B) : Result B :=
  match r with
  | Ok a => k a
  | Raise e => Raise e
  end.

Notation "'do' x <- m ; k" := (bind m (fun x => k))
  (at level 10, x name, m at level 100, k at level 200).
Notation "'do' ' p <- m ; k" := (bind m (fun x => let 'p := x in k))
  (at level 10, p strict pattern, m at level 100, k at level 200).

(** [for x in l: s = body(x, s)] over a list that the body does not change. *)
Fixpoint for_each {A S : Type} (body : A -> S -> Result S) (l : list A) (s : S)
  : Result S :=
  match l with
  | [] => Ok s
  | x :: l' => do s' <- body x s; for_each body l' s'
  end.

(** ** Models: [Message] and [Container] *)

(** [message_id] and [subject] are [None] in a [Message()] that the caller
    has not filled in (the class attributes).  The payload [message] is
    never read by the algorithm; [message_idx] stands for it. *)
Record Message : Set := mkMessage {
  message_id : option string;
  references : list string;
  subject : option string;
  message_idx : option nat
}.

Abbreviation cid := nat.

Record Container : Set := mkContainer {
  message : option Message;
  children : list cid;
  parent : option cid
}.

Abbreviation Heap := (list Container).

(** [Container()] *)
Definition empty_container : Container := mkContainer None [] None.

#[global] Instance Container_inhabited : Inhabited Container :=
  populate empty_container.

#[global] Instance Message_eq_dec : EqDecision Message.
Proof. solve_decision. Defined.

#[global] Instance Container_eq_dec : EqDecision Container.
Proof. solve_decision. Defined.

#[global] Instance Error_eq_dec : EqDecision Error.
Proof. solve_decision. Defined.

Definition msg_of (h : Heap) (c : cid) : option Message := message (h !!! c).
Definition kids (h : Heap) (c : cid) : list cid := children (h !!! c).
Definition par (h : Heap) (c : cid) : option cid := parent (h !!! c).

Definition set_message (c : cid) (m : option Message) (h : Heap) : Heap :=
  <[c := mkContainer m (kids h c) (par h c)]> h.
Definition set_children (c : cid) (l : list cid) (h : Heap) : Heap :=
  <[c := mkContainer (msg_of h c) l (par h c)]> h.
Definition set_parent (c : cid) (p : option cid) (h : Heap) : Heap :=
  <[c := mkContainer (msg_of h c) (kids h c) p]> h.

(** [c = Container()]: the new object gets the next free index. *)
Definition new_container (h : Heap) : cid * Heap :=
  (length h, h ++ [empty_container]).

Definition is_dummy (h : Heap) (c : cid) : bool :=
  match msg_of h c with None => true | Some _ => false end.

(** [list.remove(x)]: drop the first occurrence. *)
Fixpoint remove_first (x : cid) (l : list cid) : list cid :=
  match l with
  | [] => []
  | y :: l' => if decide (x = y) then l' else y :: remove_first x l'
  end.

(** [self.remove_child(child)] *)
Definition remove_child (self child : cid) (h : Heap) : Result Heap :=
  if decide (child ∈ kids h self) then
    let h1 := set_children self (remove_first child (kids h self)) h in
    Ok (set_parent child None h1)
  else Raise ValueError.

(** [self.add_child(child)] *)
Definition add_child (self child : cid) (h : Heap) : Result Heap :=
  do h1 <- match par h child with
           | Some q => remove_child q child h
           | None => Ok h
           end;
  let h2 := set_children self (kids h1 self ++ [child]) h1 in
  Ok (set_parent child (Some self) h2).

(** ** [has_descendant]: depth-first search with a [seen] set

    The deque is a list whose head is the right end of the deque, so
    [stack.append] is a cons and [stack.pop()] takes the head.  The loop
    of the source has no bound; [has_descendant] gives it the budget
    [search_budget], which [has_descendant_total] shows to be enough. *)

Definition push_unseen (seen : list cid) (stack : list cid) (l : list cid)
  : list cid :=
  fold_left (fun st child => if decide (child ∈ seen) then st else child :: st)
            l stack.

Fixpoint has_descendant_loop (fuel : nat) (h : Heap) (ctr : cid)
    (stack seen : list cid) : Result bool :=
  match fuel with
  | 0 => Raise OutOfFuel
  | S fuel' =>
    match stack with
    | [] => Ok false
    | node :: stack' =>
      if decide (node = ctr) then Ok true
      else
        let seen' := node :: seen in
        has_descendant_loop fuel' h ctr
          (push_unseen seen' stack' (kids h node)) seen'
    end
  end.

Definition edge_count (h : Heap) : nat :=
  list_sum (map (fun c => length (children c)) h).

Definition search_budget (h : Heap) : nat := 2 + length h + edge_count h.

Definition has_descendant (h : Heap) (self ctr : cid) : Result bool :=
  has_descendant_loop (search_budget h) h ctr [self] [].


(** ** [OrderedDict]: an association list in insertion order *)

Section Table.
Context {K : Type} `{EqDecision K}.

Definition Table := list (K * cid).

(** [d.get(k, None)] *)
Fixpoint table_get (t : Table) (k : K) : option cid :=
  match t with
  | [] => None
  | (k', v) :: t' => if decide (k = k') then Some v else table_get t' k
  end.

(** [d[k] = v]: a known key keeps its place, a new key goes last. *)
Fixpoint table_set (t : Table) (k : K) (v : cid) : Table :=
  match t with
  | [] => [(k, v)]
  | (k', v') :: t' =>
    if decide (k = k') then (k, v) :: t' else (k', v') :: table_set t' k v
  end.

(** [d.values()] *)
Definition table_values (t : Table) : list cid := map snd t.
End Table.

Arguments Table K : clear implicits.

(** ** [prune_container]

    The recursion follows [children], so it is not structural on any
    datum of the model.  [fuel] is the depth of calls that the
    interpreter still allows: each call of [prune_container] takes one
    level, its calls of [remove_child] and [add_child] fit in the level
    below, and a call for which no level is left raises
    [RecursionError]. *)

Definition prune_decide (container : cid) (h : Heap) : Result (list cid * Heap) :=
  if is_dummy h container && bool_decide (length (kids h container) = 0) then
    Ok ([], h)
  else if is_dummy h container &&
          (bool_decide (length (kids h container) = 1)
           || bool_decide (par h container <> None)) then
    let children := kids h container in
    do h' <- for_each (remove_child container) children h;
    Ok (children, h')
  else Ok ([container], h).

(** The body of [for ctr in container.children[:]]; [prune] is the
    recursive call. *)
Definition prune_child (prune : cid -> Heap -> Result (list cid * Heap))
    (container ctr : cid) (st : list cid * Heap) : Result (list cid * Heap) :=
  let '(new_children, h) := st in
  do '(pruned_child, h') <- prune ctr h;
  do h'' <- remove_child container ctr h';
  Ok (new_children ++ pruned_child, h'').

Fixpoint prune_container (fuel : nat) (container : cid) (h : Heap)
  : Result (list cid * Heap) :=
  match fuel with
  | 0 => Raise RecursionError
  | S fuel' =>
    do '(new_children, h1) <-
      for_each (prune_child (prune_container fuel') container)
               (kids h container) ([], h);
    do h2 <- for_each (add_child container) new_children h1;
    prune_decide container h2
  end.

(** ** [SUBJECT_RE]

    The pattern is ( (Re(\[\d+\])?:) | (\[ [^]]+ \])\s* )+ with the flags
    re.I and re.VERBOSE: its blanks do not count, so one round of the group is
    either [Re], an optional bracketed number, [:], or a bracketed tag
    and the white space after it. *)

Definition is_digit (a : ascii) : bool :=
  let n := nat_of_ascii a in ((48 <=? n) && (n <=? 57))%nat.

(** [\s] of a [str] pattern, for the code points below 256: the blank,
    the controls 9 to 13 and 28 to 31, and the code points 133 and 160. *)
Definition is_space (a : ascii) : bool :=
  let n := nat_of_ascii a in
  ((n =? 32) || ((9 <=? n) && (n <=? 13)) || ((28 <=? n) && (n <=? 31))
   || (n =? 133) || (n =? 160))%nat.

Definition is_letter (lower upper a : ascii) : bool :=
  Ascii.eqb a lower || Ascii.eqb a upper.

(** The longest prefix of characters that satisfy [p]: its length and
    what follows it. *)
Fixpoint span_while (p : ascii -> bool) (s : string) : nat * string :=
  match s with
  | EmptyString => (0, EmptyString)
  | String a s' =>
    if p a then let '(n, r) := span_while p s' in (S n, r) else (0, s)
  end.

(** [Re(\[\d+\])?:] at the head of [s]; the result is what follows. *)
Definition match_reply (s : string) : option string :=
  match s with
  | String r (String e s1) =>
    if is_letter "r" "R" r && is_letter "e" "E" e then
      match s1 with
      | String c s2 =>
        if Ascii.eqb c ":" then Some s2
        else if Ascii.eqb c "[" then
          let '(n, s3) := span_while is_digit s2 in
          match n, s3 with
          | S _, String c1 (String c2 s4) =>
            if Ascii.eqb c1 "]" && Ascii.eqb c2 ":" then Some s4 else None
          | _, _ => None
          end
        else None
      | EmptyString => None
      end
    else None
  | _ => None
  end.

(** [\[[^]]+\]\s*] at the head of [s]. *)
Definition match_tag (s : string) : option string :=
  match s with
  | String c s1 =>
    if Ascii.eqb c "[" then
      let '(n, s2) := span_while (fun a => negb (Ascii.eqb a "]")) s1 in
      match n, s2 with
      | S _, String _ s3 => Some (snd (span_while is_space s3))
      | _, _ => None
      end
    else None
  | EmptyString => None
  end.

Definition match_round (s : string) : option string :=
  match match_reply s with
  | Some r => Some r
  | None => match_tag s
  end.

(** As many further rounds as match (the regex [+] is greedy). *)
Fixpoint match_rounds (fuel : nat) (s : string) : string :=
  match fuel with
  | 0 => s
  | S fuel' =>
    match match_round s with
    | Some r => match_rounds fuel' r
    | None => s
    end
  end.

(** [SUBJECT_RE.match] at the head of [s]. *)
Definition subject_re_match (s : string) : option string :=
  match match_round s with
  | Some r => Some (match_rounds (String.length r) r)
  | None => None
  end.

(** [SUBJECT_RE.sub('', s)]: every match, left to right, is deleted. *)
Fixpoint subject_re_sub_loop (fuel : nat) (s : string) : string :=
  match fuel with
  | 0 => s
  | S fuel' =>
    match s with
    | EmptyString => EmptyString
    | String a s' =>
      match subject_re_match s with
      | Some r => subject_re_sub_loop fuel' r
      | None => String a (subject_re_sub_loop fuel' s')
      end
    end
  end.

Definition subject_re_sub (s : string) : string :=
  subject_re_sub_loop (S (String.length s)) s.

(** ** [thread], step one: the id table and the links *)

Definition IdTable := Table (option string).

(** Step one (a): the container of the message itself. *)
Definition step_one_a (msg : Message) (t : IdTable) (h : Heap)
  : cid * IdTable * Heap :=
  match table_get t (message_id msg) with
  | Some this_container =>
    (this_container, t, set_message this_container (Some msg) h)
  | None =>
    let '(this_container, h1) := new_container h in
    (this_container, table_set t (message_id msg) this_container,
     set_message this_container (Some msg) h1)
  end.

(** The test that guards [prev.add_child(container)] in step one (b). *)
Definition try_link (this_container prev container : cid) (h : Heap)
  : Result Heap :=
  if bool_decide (par h container <> None) then Ok h
  else if bool_decide (container = this_container) then Ok h
  else
    do down <- has_descendant h container prev;
    if down : bool then Ok h
    else
      do up <- has_descendant h prev container;
      if up : bool then Ok h
      else add_child prev container h.

(** Step one (b), the body of [for ref in msg.references]. *)
Definition step_one_b (this_container : cid) (ref : string)
    (st : option cid * IdTable * Heap) : Result (option cid * IdTable * Heap) :=
  let '(prev, t, h) := st in
  let '(container, t1, h1) :=
    match table_get t (Some ref) with
    | Some container => (container, t, h)
    | None =>
      let '(container, h') := new_container h in
      (container, table_set t (Some ref) container, h')
    end in
  do h2 <- match prev with
           | Some p => try_link this_container p container h1
           | None => Ok h1
           end;
  Ok (Some container, t1, h2).

(** Step one (c): the parent of the message is its last reference. *)
Definition step_one_c (this_container : cid) (prev : option cid) (h : Heap)
  : Result Heap :=
  match prev with
  | Some p => add_child p this_container h
  | None =>
    match par h this_container with
    | Some q => remove_child q this_container h
    | None => Ok h
    end
  end.

(** The body of [for msg in messages]. *)
Definition link_message (msg : Message) (st : IdTable * Heap)
  : Result (IdTable * Heap) :=
  let '(t, h) := st in
  let '(this_container, t1, h1) := step_one_a msg t h in
  do '(prev, t2, h2) <-
    for_each (step_one_b this_container) (references msg) (None, t1, h1);
  do h3 <- step_one_c this_container prev h2;
  Ok (t2, h3).

Definition link_messages (messages : list Message)
  : Result (IdTable * Heap) :=
  for_each link_message messages ([], []).

(** Step two: the root set. *)
Definition find_root_set (t : IdTable) (h : Heap) : list cid :=
  filter (fun c => par h c = None) (table_values t).

(** Step four: the assertions, then the pruning of every root. *)
Definition assert_root (container : cid) (h : Heap) : Result Heap :=
  if bool_decide (par h container = None) then Ok h else Raise AssertionError.

Definition assert_roots (root_set : list cid) (h : Heap) : Result Heap :=
  for_each assert_root root_set h.

(** The body of [for container in root_set]; [fuel] is the depth of
    calls that the interpreter allows below [thread]. *)
Definition prune_root_step (fuel : nat) (container : cid)
    (st : list cid * Heap) : Result (list cid * Heap) :=
  let '(new_root_set, h) := st in
  do '(new_container, h') <- prune_container fuel container h;
  Ok (new_root_set ++ new_container, h').

Definition prune_root_set (fuel : nat) (root_set : list cid) (h : Heap)
  : Result (list cid * Heap) :=
  for_each (prune_root_step fuel) root_set ([], h).

(** ** [thread], step five: grouping the root set by subject *)

Definition SubjectTable := Table string.

(** [x.subject] where a string is needed: [None] is a [TypeError]. *)
Definition subject_string (m : Message) : Result string :=
  match subject m with
  | Some s => Ok s
  | None => Raise TypeError
  end.

(** The message whose subject stands for [container]: its own, or that of
    its first child ([container.children[0].message]). *)
Definition subject_source (h : Heap) (container : cid) : Result Message :=
  match msg_of h container with
  | Some m => Ok m
  | None =>
    match kids h container with
    | [] => Raise IndexError
    | first :: _ =>
      match msg_of h first with
      | Some m => Ok m
      | None => Raise AttributeError
      end
    end
  end.

(** [subj = SUBJECT_RE.sub('', subj)] of a root. *)
Definition grouping_subject (h : Heap) (container : cid) : Result string :=
  do m <- subject_source h container;
  do s <- subject_string m;
  Ok (subject_re_sub s).

(** The test of [subject_table[subj] = container] when the subject is
    already in the table. *)
Definition replaces (h : Heap) (existing container : cid) : Result bool :=
  match msg_of h existing, msg_of h container with
  | Some _, None => Ok true
  | Some me, Some mc =>
    do se <- subject_string me;
    do sc <- subject_string mc;
    Ok (bool_decide (String.length sc < String.length se))
  | None, _ => Ok false
  end.

(** The body of the first loop of step five. *)
Definition table_step (h : Heap) (container : cid) (t : SubjectTable)
  : Result SubjectTable :=
  do subj <- grouping_subject h container;
  if bool_decide (subj = "") then Ok t
  else
    match table_get t subj with
    | None => Ok (table_set t subj container)
    | Some existing =>
      do b <- replaces h existing container;
      Ok (if b : bool then table_set t subj container else t)
    end.

Definition build_subject_table (h : Heap) (root_set : list cid)
  : Result SubjectTable :=
  for_each (table_step h) root_set [].

(** [for child in ctr.children: container.add_child(child)].  The list
    that is walked is the one [add_child] takes the child out of, so the
    walk is by position, as the list iterator of Python does it. *)
Fixpoint splice_children (fuel : nat) (i : nat) (ctr container : cid) (h : Heap)
  : Result Heap :=
  match fuel with
  | 0 => Raise OutOfFuel
  | S fuel' =>
    match kids h ctr !! i with
    | None => Ok h
    | Some child =>
      do h' <- add_child container child h;
      splice_children fuel' (S i) ctr container h'
    end
  end.

(** Step five (c), the body of the second loop. *)
Definition merge_step (container : cid) (st : SubjectTable * Heap)
  : Result (SubjectTable * Heap) :=
  let '(t, h) := st in
  do subj <- grouping_subject h container;
  match table_get t subj with
  | None => Ok (t, h)
  | Some ctr =>
    if bool_decide (ctr = container) then Ok (t, h)
    else if is_dummy h ctr && is_dummy h container then
      do h' <- splice_children (S (length (kids h ctr))) 0 ctr container h;
      Ok (t, h')
    else if is_dummy h ctr || is_dummy h container then
      if is_dummy h ctr then
        do h' <- add_child ctr container h; Ok (t, h')
      else
        do h' <- add_child container ctr h; Ok (t, h')
    else
      match msg_of h ctr, msg_of h container with
      | Some mr, Some mc =>
        do sr <- subject_string mr;
        do sc <- subject_string mc;
        if bool_decide (String.length sr < String.length sc) then
          do h' <- add_child ctr container h; Ok (t, h')
        else if bool_decide (String.length sc < String.length sr) then
          do h' <- add_child container ctr h; Ok (t, h')
        else
          let '(new, h0) := new_container h in
          do h1 <- add_child new ctr h0;
          do h2 <- add_child new container h1;
          Ok (table_set t subj new, h2)
      | _, _ => Raise AttributeError
      end
  end.

Definition group_by_subject_step (root_set : list cid) (h : Heap)
  : Result (list cid * Heap) :=
  do t <- build_subject_table h root_set;
  do '(t', h') <- for_each merge_step root_set (t, h);
  Ok (table_values t', h').

(** ** [thread]

    [thread] is run by an interpreter that bounds the depth of nested
    calls.  The calls that [thread] makes outside the pruning are at most
    two deep ([add_child], which may call [remove_child]), whatever the
    input: the interpreter is taken to allow [2 + room] levels below
    [thread], and [room] tells how many more than these two there are.
    [prune_container] is the one function that recurses, natively: it
    gets all the levels, and raises [RecursionError] on a tree that is
    higher. *)

Definition thread (room : nat) (messages : list Message)
    (group_by_subject : bool) : Result (list cid * Heap) :=
  do '(id_table, h) <- link_messages messages;
  let root_set := find_root_set id_table h in
  do h1 <- assert_roots root_set h;
  do '(root_set', h2) <- prune_root_set (2 + room) root_set h1;
  if group_by_subject then group_by_subject_step root_set' h2
  else Ok (root_set', h2).

(** ** [sort_threads] *)

(** [getattr(el.message, key)] for the two keys that are let through. *)
Definition getattr (m : Message) (key : string) : option string :=
  if bool_decide (key = "message_id") then message_id m else subject m.

(** What a sort key can be.  The field of a message is a string; the
    sentinel [missing] is what the caller gives: a string, an integer
    (the default is [-1]) or [None]. *)
Inductive Value : Set :=
| VStr (s : string)
| VInt (z : Z)
| VNone.

#[global] Instance Value_eq_dec : EqDecision Value.
Proof. solve_decision. Defined.

(** [_sort_func(el)] *)
Definition sort_func (h : Heap) (key : string) (missing : Value) (el : cid)
  : Value :=
  match msg_of h el with
  | None => missing
  | Some m =>
    match getattr m key with
    | None => missing
    | Some val => VStr val
    end
  end.

(** [x < y] on strings: by code point, the shorter a prefix first. *)
Definition str_lt (x y : string) : bool :=
  match String_as_OT.compare x y with Lt => true | _ => false end.

(** [x < y] of Python on keys: two strings and two integers compare; a
    string against an integer, and [None] against anything, raise
    [TypeError]. *)
Definition value_lt (x y : Value) : Result bool :=
  match x, y with
  | VStr a, VStr b => Ok (str_lt a b)
  | VInt a, VInt b => Ok (Z.ltb a b)
  | _, _ => Raise TypeError
  end.

(** [sorted(l, key=f)]: a stable sort; an element goes in front of the
    first one that is not smaller than it.  Every element of a list of
    two or more is compared with another one, as in the sort of Python,
    so that the sort raises exactly when the keys do not all compare. *)
Fixpoint sorted_insert (f : cid -> Value) (x : cid) (l : list cid)
  : Result (list cid) :=
  match l with
  | [] => Ok [x]
  | y :: l' =>
    do lt <- value_lt (f y) (f x);
    if lt : bool then
      do rest <- sorted_insert f x l'; Ok (y :: rest)
    else Ok (x :: y :: l')
  end.

Fixpoint sorted (f : cid -> Value) (l : list cid) : Result (list cid) :=
  match l with
  | [] => Ok []
  | x :: l' => do tail <- sorted f l'; sorted_insert f x tail
  end.

Definition sort_threads (h : Heap) (threads : list cid) (key : string)
    (missing : Value) (reverse : bool) : Result (list cid) :=
  if bool_decide (key ∈ ["message_id"; "subject"]) then
    sorted (sort_func h key missing) threads
  else Raise ValueError.

(** * Further functions of [jwzthreading.py] *)

(** [size]: the number of containers under [c], itself included.  The
    recursion follows [children]; [fuel] bounds its depth, and a call
    for which no depth is left raises [RecursionError]. *)
Fixpoint container_size (fuel : nat) (h : Heap) (c : cid) : Result nat :=
  match fuel with
  | 0 => Raise RecursionError
  | S fuel' =>
    do n <- for_each (fun child acc =>
                        do k <- container_size fuel' h child; Ok (acc + k))
                     (kids h c) 0;
    Ok (1 + n)
  end.

(** [unique(alist)]: [result] holds the elements met so far; an element
    is returned when it is not in [result] yet, and [setdefault] puts it
    there. *)
Fixpoint unique_loop (result : list string) (alist : list string)
  : list string :=
  match alist with
  | [] => []
  | e :: alist' =>
    if decide (e ∈ result) then unique_loop result alist'
    else e :: unique_loop (result ++ [e]) alist'
  end.

Definition unique (alist : list string) : list string := unique_loop [] alist.

(** ** [MSGID_RE]

    The pattern [<([^>]+)>]: an opening bracket, one or more characters
    that are not a closing bracket, a closing bracket.  [msgid_match]
    tries it at the head of [s] and gives the group and what follows the
    match. *)
Definition msgid_match (s : string) : option (string * string) :=
  match s with
  | String c s1 =>
    if Ascii.eqb c "<" then
      let '(n, s2) := span_while (fun a => negb (Ascii.eqb a ">")) s1 in
      match n, s2 with
      | S _, String _ s3 => Some (substring 0 n s1, s3)
      | _, _ => None
      end
    else None
  | EmptyString => None
  end.

(** [MSGID_RE.search(s)], then [.group(1)]: the leftmost match. *)
Fixpoint msgid_search (s : string) : option string :=
  match msgid_match s with
  | Some (g, _) => Some g
  | None =>
    match s with
    | String _ s' => msgid_search s'
    | EmptyString => None
    end
  end.

(** [MSGID_RE.findall(s)]: the groups of the matches, left to right, each
    search going on where the match before ended. *)
Fixpoint msgid_findall_loop (fuel : nat) (s : string) : list string :=
  match fuel with
  | 0 => []
  | S fuel' =>
    match s with
    | EmptyString => []
    | String _ s' =>
      match msgid_match s with
      | Some (g, r) => g :: msgid_findall_loop fuel' r
      | None => msgid_findall_loop fuel' s'
      end
    end
  end.

Definition msgid_findall (s : string) : list string :=
  msgid_findall_loop (String.length s) s.

(** What [msg.get(name, default)] gives for a header that is there: a
    string, or an object that is not a string (the [email] package gives
    an [email.header.Header] for a header with raw 8-bit bytes). *)
Inductive HeaderValue : Set :=
| HStr (s : string)
| HObject.

(** The argument of [MSGID_RE.search] and [MSGID_RE.findall] has to be a
    string: an object that is not one is a [TypeError]. *)
Definition header_string (v : HeaderValue) : Result string :=
  match v with
  | HStr s => Ok s
  | HObject => Raise TypeError
  end.

(** [Message(msg, message_idx)].  [msg] is read through [msg.get] only:
    [get name] is the header [name], if there is one.  The subject is
    stored as [msg.get] gives it; the record has [None] for a subject that
    is not a string: where [thread] reads a subject it needs a string and
    raises the same [TypeError] for either.  ([sort_threads] and
    [print_container] are modelled for subjects that are strings or
    [None].) *)
Definition new_message (msg : option (string -> option HeaderValue))
    (idx : option nat) : Result Message :=
  match msg with
  | None => Ok (mkMessage None [] None None)
  | Some get =>
    do id_header <- header_string (default (HStr "") (get "Message-ID"));
    match msgid_search id_header with
    | None => Raise ValueError
    | Some msg_id =>
      do refs_header <- header_string (default (HStr "") (get "References"));
      let refs := unique (msgid_findall refs_header) in
      let subj := match default (HStr "No subject") (get "Subject") with
                  | HStr s => Some s
                  | HObject => None
                  end in
      do reply_header <-
        header_string (default (HStr "") (get "In-Reply-To"));
      let refs' :=
        match msgid_search reply_header with
        | Some reply => if decide (reply ∈ refs) then refs else refs ++ [reply]
        | None => refs
        end in
      Ok (mkMessage (Some msg_id) refs' subj idx)
    end
  end.



(** [print_container(ctr, depth)] with [debug] off, as [main] calls it;
    the result is the list of the lines that are printed.  A line is
    [depth] times the mark, then [str(ctr.message and ctr.message.subject)].
    With [debug] off the two calls in the loop over the children are the
    same call.  [fuel] bounds the depth of the recursion. *)
Definition print_line (h : Heap) (ctr : cid) (depth : nat) : string :=
  (String.concat "" (replicate depth "> ")
   ++ match msg_of h ctr with
      | None => "None"
      | Some m => default "None" (subject m)
      end)%string.

Fixpoint print_container (fuel : nat) (h : Heap) (ctr : cid) (depth : nat)
  : Result (list string) :=
  match fuel with
  | 0 => Raise RecursionError
  | S fuel' =>
    do below <- for_each (fun child out =>
                            do first <- print_container fuel' h child (S depth);
                            do second <- print_container fuel' h child (S depth);
                            Ok (out ++ first ++ second))
                         (kids h ctr) [];
    Ok (print_line h ctr depth :: below)
  end.

(** * The vocabulary of the specification *)

(** The links of a heap agree: [c] is in [p.children] exactly when
    [c.parent] is [p], and no list of children holds a container twice. *)
Record linked (h : Heap) : Prop := mk_linked {
  linked_down : forall p c, c ∈ kids h p -> par h c = Some p;
  linked_up : forall p c, par h c = Some p -> c ∈ kids h p;
  linked_nodup : forall p, NoDup (kids h p)
}.

(** [descends h p c]: [c] is a child of [p]. *)
Definition descends (h : Heap) (p c : cid) : Prop := c ∈ kids h p.

(** The [k]-th ancestor of [c], following [parent]. *)
Fixpoint ancestor (h : Heap) (k : nat) (c : cid) : option cid :=
  match k with
  | 0 => Some c
  | S k' =>
    match par h c with
    | Some p => ancestor h k' p
    | None => None
    end
  end.

(** The messages of the contract of §3: an identifier and a subject that
    are strings. *)
Definition well_formed_message (m : Message) : Prop :=
  message_id m <> None /\ subject m <> None.

(** The key by which the sorter orders a root, in the words of the
    specification: the requested field of its message, the sentinel when
    the message or the field is missing. *)
Definition sort_key_spec (h : Heap) (key : string) (missing : Value) (c : cid)
  : Value :=
  default missing
    (VStr <$> (m ← msg_of h c;
               if decide (key = "message_id") then message_id m
               else subject m)).

(** [x <= y] on strings. *)
Definition str_le (x y : string) : Prop := str_lt y x = false.

(** [x <= y] on keys: the two compare, and [y] is not below [x]. *)
Definition value_le (x y : Value) : Prop := value_lt y x = Ok false.

(** The keys [vs] all compare with each other: they are all strings, or
    all integers. *)
Definition comparable (vs : list Value) : Prop :=
  Forall (fun v => exists s, v = VStr s) vs \/
  Forall (fun v => exists z, v = VInt z) vs.

(** A stable sort of [l] by [f]: sorted, and the elements of any one key
    are those of [l] in the order of [l]. *)
Definition stable_sort_of (f : cid -> Value) (l out : list cid) : Prop :=
  StronglySorted (fun a b => value_le (f a) (f b)) out /\
  out ≡ₚ l /\
  forall k, filter (fun c => f c = k) out = filter (fun c => f c = k) l.

(** Pre-order walk of the containers under [c] ([flatten]); [fuel]
    bounds the depth. *)
Fixpoint flatten (fuel : nat) (h : Heap) (c : cid) : list cid :=
  match fuel with
  | 0 => []
  | S fuel' => c :: flat_map (flatten fuel' h) (kids h c)
  end.

(** The messages held by the containers of the forest under [roots]. *)
Definition forest_messages (h : Heap) (roots : list cid) : list Message :=
  omap (msg_of h) (flat_map (flatten (length h) h) roots).

(** The rule of replacement that the code applies while it builds the
    subject table: the candidate wins if the representative has a message
    and the candidate has none, or if both have one and the subject of the
    candidate is strictly shorter. *)
Definition prefers_candidate (h : Heap) (existing container : cid) : Prop :=
  (msg_of h existing <> None /\ msg_of h container = None) \/
  (exists me mc se sc,
     msg_of h existing = Some me /\ msg_of h container = Some mc /\
     subject me = Some se /\ subject mc = Some sc /\
     String.length sc < String.length se).

(** The rule as §4.4 words it: the candidate wins if the representative
    lacks a message and the candidate has one, or if both have one and the
    subject of the candidate is strictly shorter. *)
Definition prefers_candidate_spec (h : Heap) (existing container : cid) : Prop :=
  (msg_of h existing = None /\ msg_of h container <> None) \/
  (exists me mc se sc,
     msg_of h existing = Some me /\ msg_of h container = Some mc /\
     subject me = Some se /\ subject mc = Some sc /\
     String.length sc < String.length se).

(** [mail id refs subj i]: a message as the tests build them. *)
Definition mail (id : string) (refs : list string) (subj : string) (i : nat)
  : Message := mkMessage (Some id) refs (Some subj) (Some i).

(** ** Trees

    A [tree] names the containers of a subtree of the heap; [shape h t]
    says that the [children] lists of the heap are those of [t]. *)
Inductive tree : Set :=
| Node (c : cid) (ts : list tree).

Definition root (t : tree) : cid := match t with Node c _ => c end.
Definition subtrees (t : tree) : list tree := match t with Node _ ts => ts end.

Fixpoint nodes (t : tree) : list cid :=
  match t with Node c ts => c :: flat_map nodes ts end.

Fixpoint height (t : tree) : nat :=
  match t with Node _ ts => S (max_list (map height ts)) end.

Inductive shape (h : Heap) : tree -> Prop :=
| shape_node c ts :
    kids h c = map root ts -> Forall (shape h) ts -> shape h (Node c ts).

(** The tree under [c], unfolded [n] levels deep. *)
Fixpoint tree_of (n : nat) (h : Heap) (c : cid) : tree :=
  match n with
  | 0 => Node c []
  | S n' => Node c (map (tree_of n' h) (kids h c))
  end.

(** Pruning in the words of §4.3, on trees: the children are pruned
    first (each of them has a parent); then a node without message and
    without children is dropped, a node without message that has exactly
    one child, or a parent, is replaced by its children, and any other
    node stays, with the pruned children. *)
Fixpoint prune_tree (h : Heap) (has_parent : bool) (t : tree) : list tree :=
  match t with
  | Node c ts =>
    let ts' := flat_map (prune_tree h true) ts in
    if is_dummy h c && bool_decide (ts' = []) then []
    else if is_dummy h c && (bool_decide (length ts' = 1) || has_parent)
    then ts'
    else [Node c ts']
  end.

(** Every container below the root of [t] has a message. *)
Definition clean (h : Heap) (t : tree) : Prop :=
  forall x, x ∈ flat_map nodes (subtrees t) -> msg_of h x <> None.

(** A tree that pruning leaves alone: clean, and its root has a message
    or, if the root has no parent, at least two children. *)
Definition pruned (h : Heap) (has_parent : bool) (t : tree) : Prop :=
  clean h t /\
  (msg_of h (root t) <> None \/
   (has_parent = false /\ 2 <= length (subtrees t))).

(** What a run of [prune_container] on the tree [t] of the heap [h]
    leaves behind: the links agree, no message has changed, the
    containers outside [t] and the parent of the root are untouched, the
    trees [out] are in the new heap, and those of their roots that are
    not the root of [t] have no parent. *)
Definition prune_post (h : Heap) (t : tree) (h' : Heap) (out : list tree)
  : Prop :=
  linked h' /\ length h' = length h /\
  (forall x, msg_of h' x = msg_of h x) /\
  (forall x, x ∉ nodes t -> kids h' x = kids h x /\ par h' x = par h x) /\
  par h' (root t) = par h (root t) /\
  Forall (shape h') out /\
  (forall t', t' ∈ out -> root t' <> root t -> par h' (root t') = None).

(** The state of the first loop of [prune_container] on the node [c] of
    the heap [h], when the children [ts1] are done and [ts2] are still to
    come: the pruned trees of [ts1] are in the heap, detached. *)
Definition children_inv (h : Heap) (c : cid) (ts1 ts2 : list tree) (hi : Heap)
  : Prop :=
  linked hi /\ length hi = length h /\
  (forall x, msg_of hi x = msg_of h x) /\
  kids hi c = map root ts2 /\
  (forall x, x ∉ flat_map nodes ts1 -> x <> c ->
             kids hi x = kids h x /\ par hi x = par h x) /\
  par hi c = par h c /\
  Forall (shape hi) (flat_map (prune_tree h true) ts1) /\
  (forall t', t' ∈ flat_map (prune_tree h true) ts1 -> par hi (root t') = None).

(** [linked], checked cell by cell. *)
Definition linked_check (h : Heap) : bool :=
  forallb (fun p =>
             forallb (fun c => bool_decide (par h c = Some p)) (kids h p)
             && bool_decide (NoDup (kids h p))
             && match par h p with
                | Some q => bool_decide (p ∈ kids h q)
                | None => true
                end)
          (seq 0 (length h)).

(** ** The search of [has_descendant]

    What is left to do for the loop: a container that has not been seen
    counts for itself and for each of its children. *)
Definition unseen_weight (h : Heap) (seen : list cid) : nat :=
  list_sum (map (fun c => if decide (c ∈ seen) then 0 else S (length (kids h c)))
                (seq 0 (length h))).

(** The stack of the search: the children of a container that has been
    seen are seen too, or wait above it on the stack. *)
Definition search_inv (h : Heap) (stack seen : list cid) : Prop :=
  forall i n, stack !! i = Some n -> n ∈ seen ->
    forall k, k ∈ kids h n -> k ∈ seen \/ k ∈ take i stack.

(** ** The state of the linker

    Between two steps of the linker the links agree, the id table holds
    the containers in the order of their creation, and every message of
    the heap is one of the input ([P] holds of it). *)
Definition link_inv (P : Message -> Prop) (t : IdTable) (h : Heap) : Prop :=
  linked h /\ table_values t = seq 0 (length h) /\
  forall c m, msg_of h c = Some m -> P m.

(** ** The root set after pruning

    [readable h r]: the grouper can read a subject for [r], from its
    message or from the message of its first child. *)
Definition readable (h : Heap) (r : cid) : Prop :=
  msg_of h r = None ->
  exists k ks, kids h r = k :: ks /\ msg_of h k <> None.

Definition roots_ok (h : Heap) (roots : list cid) : Prop :=
  NoDup roots /\
  forall r, r ∈ roots -> par h r = None /\ r < length h /\ readable h r.

(** ** The state of the subject grouper *)

(** Every message of the heap has a subject. *)
Definition subjects_ok (h : Heap) : Prop :=
  forall c m, msg_of h c = Some m -> subject m <> None.

(** [len(c.message.subject)] *)
Definition subject_len (h : Heap) (c : cid) : nat :=
  match msg_of h c with
  | Some m => match subject m with Some s => String.length s | None => 0 end
  | None => 0
  end.

(** The representatives of the table [t] for the roots [roots]: a dummy
    root is represented by a dummy that comes no later than itself in
    [roots]; a root with a message is represented by a dummy or by a
    container whose subject is no longer than its own. *)
Definition represented (h : Heap) (roots : list cid) (t : SubjectTable)
  : Prop :=
  (forall l1 D l2 k,
     roots = l1 ++ D :: l2 -> msg_of h D = None ->
     grouping_subject h D = Ok k -> k <> "" ->
     exists e, table_get t k = Some e /\ msg_of h e = None /\ e ∉ l2) /\
  (forall X k,
     X ∈ roots -> msg_of h X <> None ->
     grouping_subject h X = Ok k -> k <> "" ->
     exists e, table_get t k = Some e /\
               (msg_of h e = None \/ subject_len h e <= subject_len h X)).

(** The subject table while it is built from the roots [pre]. *)
Definition build_inv (h : Heap) (pre : list cid) (t : SubjectTable) : Prop :=
  NoDup (map fst t) /\
  (forall k e, table_get t k = Some e ->
               e ∈ pre /\ k <> "" /\ grouping_subject h e = Ok k) /\
  represented h pre t.

(** The state of the merge loop of step five when the roots [rest] are
    still to come. *)
Definition merge_inv (rest : list cid) (t : SubjectTable) (h : Heap) : Prop :=
  linked h /\ subjects_ok h /\
  NoDup (map fst t) /\ table_get t "" = None /\
  (forall D, D ∈ rest -> readable h D /\ D < length h) /\
  represented h rest t /\
  (forall k e, table_get t k = Some e -> par h e = None /\ e < length h) /\
  (forall k e, table_get t k = Some e -> msg_of h e <> None ->
               grouping_subject h e = Ok k) /\
  (forall c q, c ∈ rest -> par h c = Some q -> q ∉ rest).

(** ** Message identifiers

    [bracketed s pre g post]: [s] is [pre], an opening bracket, [g], a
    closing bracket and [post], where [g] is not empty and holds no
    closing bracket: a place where [MSGID_RE] matches, with group [g]. *)
Definition bracketed (s pre g post : string) : Prop :=
  s = (pre ++ String "<" (g ++ String ">" post))%string /\
  g <> "" /\
  Forall (fun a => a <> ">"%char) (list_ascii_of_string g).

(** ** Every other element of a list

    [evens l] holds the elements of [l] at the positions 0, 2, 4, ...,
    and [odds l] those at the positions 1, 3, 5, ... *)
Fixpoint evens {A : Type} (l : list A) : list A :=
  match l with
  | [] => []
  | a :: r => a :: match r with
                   | [] => []
                   | _ :: r' => evens r'
                   end
  end.

Definition odds {A : Type} (l : list A) : list A := evens (tail l).

(** ** Subjects

    [plain_subject s]: [s] has no character with which a match of
    [SUBJECT_RE] can start. *)
Definition plain_subject (s : string) : Prop :=
  Forall (fun a => a <> "r"%char /\ a <> "R"%char /\ a <> "["%char)
         (list_ascii_of_string s).


(** ** The identifiers of the linker

    [ids_inv t h]: the id table has no key twice, and a container that
    holds a message is the container of the identifier of that message. *)
Definition ids_inv (t : IdTable) (h : Heap) : Prop :=
  NoDup (map fst t) /\
  forall c m, msg_of h c = Some m -> table_get t (message_id m) = Some c.

(** Every message of [seen] has left a message with its identifier in
    the container of that identifier. *)
Definition ids_stored (seen : list Message) (t : IdTable) (h : Heap) : Prop :=
  forall m, m ∈ seen ->
    exists c m', table_get t (message_id m) = Some c /\
                 msg_of h c = Some m' /\ message_id m' = message_id m.

(** ** The interpreter

    CPython allows 1000 nested calls unless the caller has set another
    limit: below [thread] there are at most [2 + default_room] of
    them. *)
Definition default_room : nat := 998.


(** An upper bound of the number of containers that step one makes: one
    for each message and one for each reference. *)
Definition container_bound (messages : list Message) : nat :=
  length messages + list_sum (map (fun m => length (references m)) messages).

(** ** Headers

    [header get name d] is [msg.get(name, d)]. *)
Definition header (get : string -> option HeaderValue) (name d : string)
  : HeaderValue :=
  default (HStr d) (get name).



(** * Properties of the container operations *)

(** A sequence of two steps returns only when both do. *)
Lemma bind_Ok {A B} (m : Result A) (k : A -> Result B) b :
  bind m k = Ok b -> exists a, m = Ok a /\ k a = Ok b.
Proof. destruct m as [a|err]; simpl; [by exists a|done]. Qed.

Section HeapAccess.
Implicit Types (h : Heap) (c x : cid).

Lemma length_set_message c m h : length (set_message c m h) = length h.
Proof. apply length_insert. Qed.
Lemma length_set_children c l h : length (set_children c l h) = length h.
Proof. apply length_insert. Qed.
Lemma length_set_parent c p h : length (set_parent c p h) = length h.
Proof. apply length_insert. Qed.

Lemma cell_insert c v h x :
  c < length h ->
  <[c := v]> h !!! x = if decide (x = c) then v else h !!! x.
Proof.
  intros Hc. case_decide as Hx.
  - subst. by apply list_lookup_total_insert_eq.
  - apply list_lookup_total_insert_ne. congruence.
Qed.

Lemma cell_insert_other c v h x : x <> c -> <[c := v]> h !!! x = h !!! x.
Proof. intros. apply list_lookup_total_insert_ne. congruence. Qed.

Lemma cell_out_of_range h x : length h <= x -> h !!! x = empty_container.
Proof.
  intros Hx. rewrite list_lookup_total_alt.
  by rewrite (lookup_ge_None_2 h x Hx).
Qed.

(** A write through a name that is not in the arena is lost, but such a
    cell reads as an empty container in any case. *)
Lemma cell_insert_field {A} (f : Container -> A) c v h x :
  f v = f (h !!! c) -> f (<[c := v]> h !!! x) = f (h !!! x).
Proof.
  intros Hf. destruct (decide (c < length h)) as [Hc|Hc].
  - rewrite cell_insert by done. case_decide; by subst.
  - rewrite list_insert_ge by lia. done.
Qed.

Lemma msg_set_message c m h x :
  c < length h ->
  msg_of (set_message c m h) x = if decide (x = c) then m else msg_of h x.
Proof.
  intros Hc. unfold msg_of, set_message. rewrite cell_insert by done.
  by case_decide.
Qed.
Lemma msg_set_children c l h x : msg_of (set_children c l h) x = msg_of h x.
Proof. unfold msg_of, set_children. by apply cell_insert_field. Qed.
Lemma msg_set_parent c p h x : msg_of (set_parent c p h) x = msg_of h x.
Proof. unfold msg_of, set_parent. by apply cell_insert_field. Qed.

Lemma kids_set_children c l h x :
  c < length h ->
  kids (set_children c l h) x = if decide (x = c) then l else kids h x.
Proof.
  intros Hc. unfold kids, set_children. rewrite cell_insert by done.
  by case_decide.
Qed.
Lemma kids_set_message c m h x : kids (set_message c m h) x = kids h x.
Proof. unfold kids, set_message. by apply cell_insert_field. Qed.
Lemma kids_set_parent c p h x : kids (set_parent c p h) x = kids h x.
Proof. unfold kids, set_parent. by apply cell_insert_field. Qed.

Lemma par_set_parent c p h x :
  c < length h ->
  par (set_parent c p h) x = if decide (x = c) then p else par h x.
Proof.
  intros Hc. unfold par, set_parent. rewrite cell_insert by done.
  by case_decide.
Qed.
Lemma par_set_message c m h x : par (set_message c m h) x = par h x.
Proof. unfold par, set_message. by apply cell_insert_field. Qed.
Lemma par_set_children c l h x : par (set_children c l h) x = par h x.
Proof. unfold par, set_children. by apply cell_insert_field. Qed.

Lemma cell_new h x : (h ++ [empty_container]) !!! x = h !!! x.
Proof.
  destruct (decide (x < length h)) as [Hx|Hx].
  - by apply lookup_total_app_l.
  - rewrite (cell_out_of_range h) by lia.
    destruct (decide (x = length h)) as [->|].
    + rewrite lookup_total_app_r by lia. by rewrite Nat.sub_diag.
    + apply cell_out_of_range. rewrite length_app. simpl. lia.
Qed.

Lemma msg_new h x : msg_of (h ++ [empty_container]) x = msg_of h x.
Proof. unfold msg_of. by rewrite cell_new. Qed.
Lemma kids_new h x : kids (h ++ [empty_container]) x = kids h x.
Proof. unfold kids. by rewrite cell_new. Qed.
Lemma par_new h x : par (h ++ [empty_container]) x = par h x.
Proof. unfold par. by rewrite cell_new. Qed.

Lemma msg_out_of_range h x : length h <= x -> msg_of h x = None.
Proof. intros. unfold msg_of. by rewrite cell_out_of_range. Qed.
Lemma kids_out_of_range h x : length h <= x -> kids h x = [].
Proof. intros. unfold kids. by rewrite cell_out_of_range. Qed.
Lemma par_out_of_range h x : length h <= x -> par h x = None.
Proof. intros. unfold par. by rewrite cell_out_of_range. Qed.

(** Two arenas of one length whose cells read the same are equal. *)
Lemma heap_ext h1 h2 :
  length h1 = length h2 ->
  (forall x, msg_of h1 x = msg_of h2 x) ->
  (forall x, kids h1 x = kids h2 x) ->
  (forall x, par h1 x = par h2 x) ->
  h1 = h2.
Proof.
  intros Hlen Hm Hk Hp. apply list_eq. intros x.
  destruct (decide (x < length h1)) as [Hx|Hx].
  - rewrite !list_lookup_lookup_total_lt by lia. f_equal.
    specialize (Hm x). specialize (Hk x). specialize (Hp x).
    unfold msg_of, kids, par in *.
    destruct (h1 !!! x), (h2 !!! x). simpl in *. congruence.
  - rewrite !lookup_ge_None_2 by lia. done.
Qed.
End HeapAccess.

Ltac heap_len :=
  repeat first
    [ rewrite length_set_message | rewrite length_set_children
    | rewrite length_set_parent | rewrite length_app ];
  simpl; try lia.

Ltac heap_simpl :=
  repeat first
    [ rewrite msg_set_children | rewrite msg_set_parent
    | rewrite kids_set_message | rewrite kids_set_parent
    | rewrite par_set_message | rewrite par_set_children
    | rewrite msg_new | rewrite kids_new | rewrite par_new
    | rewrite msg_set_message by heap_len
    | rewrite kids_set_children by heap_len
    | rewrite par_set_parent by heap_len ].

Section RemoveFirst.
Implicit Types (x y : cid) (l : list cid).

Lemma remove_first_notin x l : x ∉ l -> remove_first x l = l.
Proof.
  induction l as [|y l IH]; simpl; [done|]. intros Hx.
  apply not_elem_of_cons in Hx as [? ?].
  case_decide; [done|]. by rewrite IH.
Qed.

Lemma elem_of_remove_first x y l :
  NoDup l -> y ∈ remove_first x l <-> y ∈ l /\ y <> x.
Proof.
  induction l as [|z l IH]; simpl.
  - intros _. rewrite elem_of_nil. naive_solver.
  - intros [Hz Hl]%NoDup_cons. case_decide as Hxz.
    + subst z. rewrite elem_of_cons. naive_solver.
    + rewrite !elem_of_cons, IH by done. naive_solver.
Qed.

Lemma elem_of_remove_first_weak x y l : y ∈ remove_first x l -> y ∈ l.
Proof.
  induction l as [|z l IH]; simpl; [done|].
  case_decide; rewrite ?elem_of_cons; naive_solver.
Qed.

Lemma NoDup_remove_first x l : NoDup l -> NoDup (remove_first x l).
Proof.
  induction l as [|z l IH]; simpl; [done|].
  intros [Hz Hl]%NoDup_cons. case_decide; [done|].
  apply NoDup_cons. split; [|by apply IH].
  intros ?%elem_of_remove_first_weak. done.
Qed.

Lemma remove_first_app_notin x l l' :
  x ∉ l -> remove_first x (l ++ l') = l ++ remove_first x l'.
Proof.
  induction l as [|z l IH]; simpl; [done|].
  intros [? ?]%not_elem_of_cons. case_decide; [done|]. by rewrite IH.
Qed.

Lemma length_remove_first x l :
  x ∈ l -> S (length (remove_first x l)) = length l.
Proof.
  induction l as [|z l IH]; simpl.
  - by intros ?%elem_of_nil.
  - intros Hx. case_decide as Hxz; [done|].
    apply elem_of_cons in Hx as [?|Hx]; [done|]. simpl. by rewrite IH.
Qed.
End RemoveFirst.

Section Links.
Implicit Types (h : Heap) (p c x : cid).

Lemma linked_child_valid h p c : linked h -> c ∈ kids h p -> c < length h.
Proof.
  intros Hl Hc. apply (linked_down _ Hl) in Hc.
  destruct (decide (c < length h)); [done|].
  rewrite par_out_of_range in Hc by lia. done.
Qed.

Lemma kids_parent_valid h p c : c ∈ kids h p -> p < length h.
Proof.
  intros Hc. destruct (decide (p < length h)); [done|].
  rewrite kids_out_of_range in Hc by lia. by apply elem_of_nil in Hc.
Qed.

Lemma linked_nil : linked [].
Proof.
  split.
  - intros p c. rewrite kids_out_of_range by (simpl; lia).
    by intros ?%elem_of_nil.
  - intros p c. rewrite par_out_of_range by (simpl; lia). done.
  - intros p. rewrite kids_out_of_range by (simpl; lia). constructor.
Qed.

Lemma linked_new h : linked h -> linked (h ++ [empty_container]).
Proof.
  intros [Hd Hu Hn]. split.
  - intros p c. heap_simpl. apply Hd.
  - intros p c. heap_simpl. apply Hu.
  - intros p. heap_simpl. apply Hn.
Qed.

Lemma linked_set_message h c m : linked h -> linked (set_message c m h).
Proof.
  intros [Hd Hu Hn]. split.
  - intros p x. heap_simpl. apply Hd.
  - intros p x. heap_simpl. apply Hu.
  - intros p. heap_simpl. apply Hn.
Qed.

(** What [self.remove_child(child)] does to a heap whose links agree. *)
Lemma remove_child_spec h p c :
  linked h -> c ∈ kids h p ->
  exists h',
    remove_child p c h = Ok h' /\ linked h' /\ length h' = length h /\
    (forall x, msg_of h' x = msg_of h x) /\
    (forall x, kids h' x = remove_first c (kids h x)) /\
    (forall x, par h' x = if decide (x = c) then None else par h x).
Proof.
  intros Hl Hc.
  assert (Hp : p < length h) by eauto using kids_parent_valid.
  assert (Hcv : c < length h) by eauto using linked_child_valid.
  unfold remove_child. rewrite decide_True by done.
  eexists. split; [done|].
  assert (Hk : forall x, kids (set_parent c None
            (set_children p (remove_first c (kids h p)) h)) x
          = remove_first c (kids h x)).
  { intros x. heap_simpl. case_decide; [by subst|].
    rewrite remove_first_notin; [done|].
    intros Hx. apply (linked_down _ Hl) in Hx.
    apply (linked_down _ Hl) in Hc. congruence. }
  assert (Hq : forall x, par (set_parent c None
            (set_children p (remove_first c (kids h p)) h)) x
          = if decide (x = c) then None else par h x).
  { intros x. heap_simpl. done. }
  split_and!; [|heap_len|intros; by heap_simpl|done|done].
  destruct Hl as [Hd Hu Hn]. split.
  - intros q x. rewrite Hk, Hq.
    intros [Hx Hne]%elem_of_remove_first; [|done].
    rewrite decide_False by done. by apply Hd.
  - intros q x. rewrite Hk, Hq. case_decide; [done|].
    intros Hx. apply elem_of_remove_first; [done|]. split; [by apply Hu|done].
  - intros q. rewrite Hk. by apply NoDup_remove_first.
Qed.

(** What [self.add_child(child)] does to a heap whose links agree. *)
Lemma add_child_spec h p c :
  linked h -> p < length h -> c < length h ->
  exists h',
    add_child p c h = Ok h' /\ linked h' /\ length h' = length h /\
    (forall x, msg_of h' x = msg_of h x) /\
    (forall x, kids h' x =
       remove_first c (kids h x) ++ (if decide (x = p) then [c] else [])) /\
    (forall x, par h' x = if decide (x = c) then Some p else par h x).
Proof.
  intros Hl Hp Hc. unfold add_child.
  assert (exists h1, match par h c with
                     | Some q => remove_child q c h
                     | None => Ok h
                     end = Ok h1 /\ linked h1 /\ length h1 = length h /\
            (forall x, msg_of h1 x = msg_of h x) /\
            (forall x, kids h1 x = remove_first c (kids h x)) /\
            (forall x, c ∉ kids h1 x) /\
            (forall x, x <> c -> par h1 x = par h x))
    as (h1 & -> & Hl1 & Hlen1 & Hm1 & Hk1 & Hnot & Hp1).
  { destruct (par h c) as [q|] eqn:Hq.
    - destruct (remove_child_spec h q c) as (h1 & ? & ? & ? & ? & Hk & Hpp);
        [done|by apply (linked_up _ Hl)|].
      exists h1. split_and!; try done.
      + intros x. rewrite Hk.
        intros [? ?]%elem_of_remove_first; [done|apply (linked_nodup _ Hl)].
      + intros x ?. rewrite Hpp. by rewrite decide_False.
    - assert (forall x, c ∉ kids h x).
      { intros x Hx. apply (linked_down _ Hl) in Hx. congruence. }
      exists h. split_and!; try done.
      intros x. by rewrite remove_first_notin. }
  simpl. eexists. split; [done|].
  assert (Hk : forall x, kids (set_parent c (Some p)
            (set_children p (kids h1 p ++ [c]) h1)) x
          = remove_first c (kids h x) ++ (if decide (x = p) then [c] else [])).
  { intros x. heap_simpl. case_decide; [subst; by rewrite Hk1|].
    by rewrite Hk1, app_nil_r. }
  assert (Hq : forall x, par (set_parent c (Some p)
            (set_children p (kids h1 p ++ [c]) h1)) x
          = if decide (x = c) then Some p else par h x).
  { intros x. heap_simpl. case_decide; [done|by apply Hp1]. }
  split_and!; [|heap_len|intros; heap_simpl; by rewrite Hm1|done|done].
  split.
  - intros q x. rewrite Hk, Hq. rewrite elem_of_app.
    intros [Hx|Hx].
    + rewrite <- Hk1 in Hx. rewrite decide_False by (intros ->; by eapply Hnot).
      rewrite <- Hp1 by (intros ->; by eapply Hnot).
      by apply (linked_down _ Hl1).
    + case_decide; [|by apply elem_of_nil in Hx].
      apply list_elem_of_singleton in Hx. subst. by rewrite decide_True.
  - intros q x. rewrite Hk, Hq. rewrite elem_of_app. case_decide.
    + intros [= <-]. right. subst. rewrite decide_True by done.
      by apply list_elem_of_singleton.
    + intros Hx. left. rewrite <- Hk1. apply (linked_up _ Hl1).
      by rewrite Hp1.
  - intros q. rewrite Hk, <- Hk1. apply NoDup_app. split_and!.
    + apply (linked_nodup _ Hl1).
    + intros x Hx. case_decide; [|apply not_elem_of_nil].
      intros ->%list_elem_of_singleton. by eapply Hnot.
    + case_decide; [apply NoDup_singleton|constructor].
Qed.
End Links.

(** * The sorter *)

Section Sorter.
Variable f : cid -> Value.
Implicit Types (x y : cid) (l out : list cid) (u v w : Value).

Lemma str_lt_spec a b : str_lt a b = true <-> String_as_OT.lt a b.
Proof.
  unfold str_lt, String_as_OT.lt.
  destruct (String_as_OT.compare a b); naive_solver.
Qed.

Lemma str_le_spec a b : str_le a b <-> ~ String_as_OT.lt b a.
Proof.
  unfold str_le. rewrite <- str_lt_spec. by destruct (str_lt b a).
Qed.

Lemma str_lt_irrefl a : str_lt a a = false.
Proof.
  apply str_le_spec. apply (irreflexivity String_as_OT.lt).
Qed.

Lemma str_lt_asym a b : str_lt a b = true -> str_lt b a = false.
Proof.
  rewrite str_lt_spec. intros Hab. apply str_le_spec. intros Hba.
  apply (irreflexivity String_as_OT.lt a). by transitivity b.
Qed.

Lemma str_le_trans a b c : str_le a b -> str_le b c -> str_le a c.
Proof.
  rewrite !str_le_spec. intros Hab Hbc Hca.
  destruct (String_as_OT.compare_spec b a) as [Heq|Hba|Hba].
  - apply Hbc. by rewrite Heq.
  - done.
  - apply Hbc. by transitivity a.
Qed.

Lemma value_lt_irrefl u : value_lt u u <> Ok true.
Proof.
  destruct u as [a|z|]; simpl; [|intros [= Hz]; lia|done].
  by rewrite str_lt_irrefl.
Qed.

Lemma value_lt_asym u v : value_lt u v = Ok true -> value_le u v.
Proof.
  unfold value_le. destruct u as [a|z|], v as [b|z'|]; simpl; try done.
  - intros [= Hab]. by rewrite str_lt_asym.
  - intros [= Hz]. f_equal. lia.
Qed.

Lemma value_le_trans u v w : value_le u v -> value_le v w -> value_le u w.
Proof.
  unfold value_le.
  destruct u as [a|z|], v as [b|z'|], w as [c|z''|]; simpl; try done.
  - intros [= Hab] [= Hbc]. f_equal. by apply (str_le_trans a b c).
  - intros [= Hab] [= Hbc]. f_equal. lia.
Qed.

(** The kind of a key: [Some true] for a string, [Some false] for an
    integer; two keys compare when they are of one kind. *)
Lemma value_lt_Ok u v b :
  value_lt u v = Ok b ->
  (exists a c, u = VStr a /\ v = VStr c) \/
  (exists z z', u = VInt z /\ v = VInt z').
Proof. destruct u, v; simpl; try done; naive_solver. Qed.

Lemma value_lt_Raise u v e : value_lt u v = Raise e -> e = TypeError.
Proof. destruct u, v; simpl; congruence. Qed.

Lemma sorted_insert_perm x l out :
  sorted_insert f x l = Ok out -> out ≡ₚ x :: l.
Proof.
  revert out. induction l as [|y l IH]; intros out; simpl.
  { by intros [= <-]. }
  intros ([|] & _ & Hrun)%bind_Ok.
  - apply bind_Ok in Hrun as (rest & Hrest & [= <-]).
    rewrite (IH rest Hrest). apply Permutation_swap.
  - by injection Hrun as <-.
Qed.

Lemma sorted_insert_sorted x l out :
  sorted_insert f x l = Ok out ->
  StronglySorted (fun a b => value_le (f a) (f b)) l ->
  StronglySorted (fun a b => value_le (f a) (f b)) out.
Proof.
  revert out. induction l as [|y l IH]; intros out; simpl.
  { intros [= <-] _. repeat constructor. }
  intros ([|] & Hlt & Hrun)%bind_Ok [Hy Hl]%StronglySorted_cons.
  - apply bind_Ok in Hrun as (rest & Hrest & [= <-]).
    apply StronglySorted_cons. split; [|by apply IH].
    rewrite (sorted_insert_perm _ _ _ Hrest). constructor; [|done].
    by apply value_lt_asym.
  - injection Hrun as <-. apply StronglySorted_cons. split.
    + constructor; [done|].
      eapply Forall_impl; [exact Hy|]. intros z Hz. simpl in Hz.
      by apply (value_le_trans _ (f y)).
    + by apply StronglySorted_cons.
Qed.

Lemma sorted_insert_filter k x l out :
  sorted_insert f x l = Ok out ->
  filter (fun c => f c = k) out = filter (fun c => f c = k) (x :: l).
Proof.
  revert out. induction l as [|y l IH]; intros out; simpl.
  { by intros [= <-]. }
  intros ([|] & Hlt & Hrun)%bind_Ok; [|by injection Hrun as <-].
  apply bind_Ok in Hrun as (rest & Hrest & [= <-]).
  rewrite (filter_cons _ y), (IH rest Hrest), !filter_cons.
  repeat case_decide; try done.
  assert (f y = f x) as Heq by congruence.
  rewrite Heq in Hlt. by apply value_lt_irrefl in Hlt.
Qed.

(** When [sorted] returns, it has sorted stably. *)
Lemma sorted_stable l out : sorted f l = Ok out -> stable_sort_of f l out.
Proof.
  revert out. induction l as [|x l IH]; intros out; simpl.
  { intros [= <-]. split_and!; [constructor|done|done]. }
  intros (tail & Htail & Hins)%bind_Ok.
  destruct (IH tail Htail) as (Hs & Hp & Hf). split_and!.
  - by eapply sorted_insert_sorted.
  - rewrite (sorted_insert_perm _ _ _ Hins). by constructor.
  - intros k. rewrite (sorted_insert_filter k _ _ _ Hins), !filter_cons, Hf.
    done.
Qed.

(** Keys of one kind: the sort returns. *)
Lemma sorted_insert_comparable x l :
  comparable (map f (x :: l)) -> exists out, sorted_insert f x l = Ok out.
Proof.
  induction l as [|y l IH]; [by eexists|]. intros Hcomp. simpl.
  assert (exists b, value_lt (f y) (f x) = Ok b) as (b & ->).
  { destruct Hcomp as [Hc|Hc];
      apply Forall_cons in Hc as [(? & ->) [(? & ->) _]%Forall_cons];
      by eexists. }
  simpl. destruct b; [|by eexists].
  destruct IH as (rest & ->); [|by eexists].
  destruct Hcomp as [Hc|Hc]; [left|right];
    apply Forall_cons in Hc as [? [_ ?]%Forall_cons]; by constructor.
Qed.

Lemma comparable_perm (vs ws : list Value) :
  vs ≡ₚ ws -> comparable vs -> comparable ws.
Proof. intros Hp [?|?]; [left|right]; by rewrite <- Hp. Qed.

Lemma sorted_comparable l :
  comparable (map f l) -> exists out, sorted f l = Ok out.
Proof.
  induction l as [|x l IH]; [by eexists|]. intros Hcomp. simpl.
  destruct IH as (tail & Htail).
  { destruct Hcomp as [Hc|Hc]; [left|right];
      by apply Forall_cons in Hc as [_ ?]. }
  rewrite Htail. simpl. apply sorted_insert_comparable.
  destruct (sorted_stable l tail Htail) as (_ & Hp & _).
  eapply comparable_perm; [|exact Hcomp]. simpl. constructor.
  by apply fmap_Permutation.
Qed.

(** The sort returns only for keys of one kind, or for a list of one
    element at most. *)
Lemma sorted_insert_Ok x y l out :
  sorted_insert f x (y :: l) = Ok out -> comparable [f y; f x].
Proof.
  simpl. intros (b & Hlt & _)%bind_Ok.
  destruct (value_lt_Ok _ _ _ Hlt) as [(a & c & -> & ->)|(z & z' & -> & ->)];
    [left|right]; repeat constructor; by eexists.
Qed.

Lemma comparable_cons v u (vs : list Value) :
  comparable [u; v] -> u ∈ vs -> comparable vs -> comparable (v :: vs).
Proof.
  intros [Huv|Huv] Hu [Hvs|Hvs];
    apply Forall_cons in Huv as [(a & ->) [Hv _]%Forall_cons].
  - left. by constructor.
  - exfalso. rewrite Forall_forall in Hvs. by destruct (Hvs _ Hu) as (? & [=]).
  - exfalso. rewrite Forall_forall in Hvs. by destruct (Hvs _ Hu) as (? & [=]).
  - right. by constructor.
Qed.

Lemma sorted_Ok l out :
  sorted f l = Ok out -> length l <= 1 \/ comparable (map f l).
Proof.
  revert out. induction l as [|x l IH]; intros out; simpl; [left; lia|].
  intros (tail & Htail & Hins)%bind_Ok.
  destruct (sorted_stable l tail Htail) as (_ & Hp & _).
  destruct tail as [|y tail].
  { left. apply Permutation_length in Hp. simpl in Hp. lia. }
  right. pose proof (sorted_insert_Ok _ _ _ _ Hins) as Hyx.
  assert (f y ∈ map f l) as Hy.
  { apply list_elem_of_fmap. exists y. split; [done|].
    rewrite <- Hp. by left. }
  apply (comparable_cons _ (f y)); [done|done|].
  destruct (IH _ Htail) as [Hlen|?]; [|done].
  destruct l as [|z [|z' l]]; simpl in *; [by apply elem_of_nil in Hy| |lia].
  apply list_elem_of_singleton in Hy. rewrite <- Hy.
  destruct Hyx as [Hc|Hc]; [left|right];
    apply Forall_cons in Hc as [? _]; by repeat constructor.
Qed.

Lemma sorted_insert_Raise x l e : sorted_insert f x l = Raise e -> e = TypeError.
Proof.
  induction l as [|y l IH]; simpl; [done|].
  destruct (value_lt (f y) (f x)) as [[|]|e'] eqn:Hlt; simpl.
  - destruct (sorted_insert f x l); simpl; [done|]. intros [= <-]. by apply IH.
  - done.
  - intros [= <-]. by eapply value_lt_Raise.
Qed.

Lemma sorted_Raise l e :
  sorted f l = Raise e ->
  e = TypeError /\ 2 <= length l /\ ~ comparable (map f l).
Proof.
  intros Hrun. split_and!.
  - revert Hrun. induction l as [|x l IH]; simpl; [done|].
    destruct (sorted f l) as [tail|e'] eqn:Htail; simpl.
    + apply sorted_insert_Raise.
    + intros [= <-]. by apply IH.
  - destruct l as [|x [|y l]]; simpl in *; [done|done|lia].
  - intros (out & Hout)%sorted_comparable. congruence.
Qed.

(** A sorted list comes back as it is. *)
Lemma sorted_insert_least x l :
  Forall (fun y => value_le (f x) (f y)) l ->
  sorted_insert f x l = Ok (x :: l).
Proof.
  destruct l as [|y l]; [done|]. intros [Hy _]%Forall_cons. simpl.
  unfold value_le in Hy. by rewrite Hy.
Qed.

Lemma sorted_fixed l :
  StronglySorted (fun a b => value_le (f a) (f b)) l -> sorted f l = Ok l.
Proof.
  induction 1 as [|x l Hl IH Hx]; [done|]. simpl. rewrite IH. simpl.
  by apply sorted_insert_least.
Qed.
End Sorter.

Lemma sort_func_spec h key missing c :
  key = "message_id" \/ key = "subject" ->
  sort_func h key missing c = sort_key_spec h key missing c.
Proof.
  intros Hkey. unfold sort_func, sort_key_spec, getattr.
  destruct (msg_of h c) as [m|]; simpl; [|done].
  destruct Hkey as [-> | ->]; simpl; by destruct (_ m).
Qed.

Lemma sorted_insert_ext (f g : cid -> Value) x l :
  (forall c, f c = g c) -> sorted_insert f x l = sorted_insert g x l.
Proof.
  intros Hfg. induction l as [|y l IH]; simpl; [done|].
  by rewrite !Hfg, IH.
Qed.

Lemma sorted_ext (f g : cid -> Value) l :
  (forall c, f c = g c) -> sorted f l = sorted g l.
Proof.
  intros Hfg. induction l as [|x l IH]; simpl; [done|]. rewrite IH.
  destruct (sorted g l) as [tail|]; simpl; [|done].
  by apply sorted_insert_ext.
Qed.

(** C8, as amended: [sort_threads] raises the invalid-argument error
    ([ValueError]) exactly when the key is neither ['message_id'] nor
    ['subject'].  For one of these two keys, where the key of a container
    without message, or whose message lacks the field, is the sentinel
    [missing]: when the keys all compare with each other (they are all
    strings, or all integers), or the list has one container at most, it
    raises nothing and returns the input stably sorted by that key; and
    when two or more containers have keys that do not all compare (a
    string beside an integer sentinel, or [None]) the comparison raises
    [TypeError]. *)
Theorem sort_threads_correct (h : Heap) (threads : list cid)
    (key : string) (missing : Value) (reverse : bool) :
  let keys := map (sort_key_spec h key missing) threads in
  match sort_threads h threads key missing reverse with
  | Raise e =>
    (e = ValueError /\ key <> "message_id" /\ key <> "subject") \/
    (e = TypeError /\ (key = "message_id" \/ key = "subject") /\
     2 <= length threads /\ ~ comparable keys)
  | Ok out =>
    (key = "message_id" \/ key = "subject") /\
    (length threads <= 1 \/ comparable keys) /\
    stable_sort_of (sort_key_spec h key missing) threads out
  end.
Proof.
  intros keys. subst keys. unfold sort_threads. case_bool_decide as Hkey.
  - assert (key = "message_id" \/ key = "subject") as Hk.
    { rewrite !elem_of_cons, elem_of_nil in Hkey. tauto. }
    rewrite (sorted_ext _ (sort_key_spec h key missing))
      by (intros c; by apply sort_func_spec).
    destruct (sorted _ threads) as [out|e] eqn:Hrun.
    + split_and!; [done|by eapply sorted_Ok|by apply sorted_stable].
    + right. destruct (sorted_Raise _ _ _ Hrun) as (-> & ? & ?). done.
  - left. rewrite !elem_of_cons, elem_of_nil in Hkey. split_and!; tauto.
Qed.

(** C8 as the specification words it does not hold: a valid key does not
    keep [sort_threads] from raising.  Two messages that answer a missing
    one and a third message give, without the grouping, a root without
    message and a root with one; sorting them by ['message_id'] with the
    sentinel of the signature, [-1], compares an integer with a string
    and raises [TypeError].  A sentinel that is a string sorts them. *)
Lemma sort_threads_spec_counterexample :
  exists roots h,
    thread default_room [mail "m1" ["p"] "x" 0; mail "m2" ["p"] "x" 1;
                         mail "m3" [] "y" 2] false = Ok (roots, h) /\
    sort_threads h roots "message_id" (VInt (-1)%Z) false = Raise TypeError /\
    sort_threads h roots "message_id" (VStr "") false = Ok roots.
Proof.
  eexists _, _. split; [vm_compute; reflexivity|].
  split; vm_compute; reflexivity.
Qed.

(** * The linker, step one (a) *)

(** C9: when the identifier of the message already has a container in the
    id table, attaching the message writes the [message] field of that
    container and nothing else: the parent and the children of every
    container, and the message of every other container, are as before,
    and the table is as before. *)
Theorem attach_keeps_links (msg : Message) (t : IdTable) (h : Heap)
    (this_container : cid) :
  table_get t (message_id msg) = Some this_container ->
  this_container < length h ->
  exists h',
    step_one_a msg t h = (this_container, t, h') /\
    msg_of h' this_container = Some msg /\
    length h' = length h /\
    forall x, par h' x = par h x /\ kids h' x = kids h x /\
              (x <> this_container -> msg_of h' x = msg_of h x).
Proof.
  intros Hget Hvalid. unfold step_one_a. rewrite Hget.
  eexists. split; [done|]. split_and!.
  - heap_simpl. by rewrite decide_True.
  - heap_len.
  - intros x. heap_simpl. split_and!; try done.
    intros Hx. by rewrite decide_False.
Qed.

Lemma attach_keeps_links_witness :
  let later := mkMessage (Some "a") ["b"] (Some "second") (Some 1) in
  let h := [mkContainer (Some (mkMessage (Some "a") [] (Some "first") (Some 0)))
                        [1] None;
            mkContainer None [] (Some 0)] in
  exists h',
    step_one_a later [(Some "a", 0); (Some "c", 1)] h
    = (0, [(Some "a", 0); (Some "c", 1)], h') /\
    msg_of h' 0 = Some later /\
    length h' = length h /\
    forall x, par h' x = par h x /\ kids h' x = kids h x /\
              (x <> 0 -> msg_of h' x = msg_of h x).
Proof.
  intros later h.
  apply (attach_keeps_links later [(Some "a", 0); (Some "c", 1)] h 0).
  - reflexivity.
  - simpl. lia.
Defined.

(** * The subject table *)

Lemma replaces_spec h existing container b :
  replaces h existing container = Ok b ->
  b = true <-> prefers_candidate h existing container.
Proof.
  unfold replaces, prefers_candidate, subject_string.
  destruct (msg_of h existing) as [me|], (msg_of h container) as [mc|];
    simpl; try (intros [= <-]; naive_solver).
  destruct (subject me) as [se|] eqn:Hse, (subject mc) as [sc|] eqn:Hsc;
    simpl; try done.
  intros [= <-]. rewrite bool_decide_eq_true. split.
  - intros Hlt. right. by exists me, mc, se, sc.
  - intros [[_ ?]|(? & ? & ? & ? & ? & ? & ? & ? & ?)]; [done|].
    simplify_eq. congruence.
Qed.

(** C4, as the code has it: while the subject table is built, a container
    whose normalized subject is already in the table replaces the
    representative exactly when the representative has a message and the
    candidate has none (the dummy is preferred), or both have messages and
    the raw subject of the candidate is strictly shorter. *)
Theorem table_step_replaces (h : Heap) (t : SubjectTable)
    (container existing : cid) (subj : string) :
  grouping_subject h container = Ok subj ->
  subj <> "" ->
  table_get t subj = Some existing ->
  (forall m, msg_of h existing = Some m -> subject m <> None) ->
  exists b : bool,
    table_step h container t = Ok (if b then table_set t subj container else t) /\
    (b = true <-> prefers_candidate h existing container).
Proof.
  intros Hsubj Hne Hget Hsub. unfold table_step. rewrite Hsubj. simpl.
  rewrite bool_decide_eq_false_2 by done. rewrite Hget.
  destruct (replaces h existing container) as [b|e] eqn:Hrep.
  - exists b. split; [done|]. by eapply replaces_spec.
  - exfalso. unfold replaces, subject_string in Hrep.
    destruct (msg_of h existing) as [me|] eqn:Hme; [|done].
    destruct (msg_of h container) as [mc|] eqn:Hmc; [|done].
    specialize (Hsub me eq_refl).
    destruct (subject me) as [se|]; [|done]. simpl in Hrep.
    unfold grouping_subject, subject_source, subject_string in Hsubj.
    rewrite Hmc in Hsubj. simpl in Hsubj.
    destruct (subject mc); simpl in *; done.
Qed.

(** * Trees *)

Section Trees.
Implicit Types (h : Heap) (t : tree) (ts : list tree) (c x : cid).

Lemma tree_induction (P : tree -> Prop) :
  (forall c ts, Forall P ts -> P (Node c ts)) -> forall t, P t.
Proof.
  intros HP. fix IH 1. intros [c ts]. apply HP.
  induction ts as [|t ts IHts]; constructor; [apply IH|exact IHts].
Qed.

Lemma root_in_nodes t : root t ∈ nodes t.
Proof. destruct t. simpl. apply elem_of_cons. by left. Qed.

Lemma elem_of_flat_map_nodes x ts :
  x ∈ flat_map nodes ts <-> exists t, t ∈ ts /\ x ∈ nodes t.
Proof.
  rewrite list_elem_of_In, in_flat_map.
  setoid_rewrite list_elem_of_In. done.
Qed.

Lemma roots_in_nodes t ts : t ∈ ts -> root t ∈ flat_map nodes ts.
Proof.
  intros Ht. apply elem_of_flat_map_nodes. eauto using root_in_nodes.
Qed.

Lemma flat_map_app_nodes ts1 ts2 :
  flat_map nodes (ts1 ++ ts2) = flat_map nodes ts1 ++ flat_map nodes ts2.
Proof. apply flat_map_app. Qed.

Lemma shape_inv h c ts :
  shape h (Node c ts) -> kids h c = map root ts /\ Forall (shape h) ts.
Proof. by inversion 1. Qed.

(** [shape] reads the [children] of the nodes of the tree only. *)
Lemma shape_ext h1 h2 t :
  (forall x, x ∈ nodes t -> kids h2 x = kids h1 x) ->
  shape h1 t -> shape h2 t.
Proof.
  induction t as [c ts IH] using tree_induction. intros Hk Hs.
  apply shape_inv in Hs as [Hc Hts]. constructor.
  - rewrite Hk; [done|]. apply (root_in_nodes (Node c ts)).
  - rewrite Forall_forall in IH, Hts |- *. intros t Ht.
    apply IH; [done| |by apply Hts].
    intros x Hx. apply Hk. simpl. apply elem_of_cons. right.
    apply elem_of_flat_map_nodes. eauto.
Qed.

Lemma Forall_shape_ext h1 h2 ts :
  (forall x, x ∈ flat_map nodes ts -> kids h2 x = kids h1 x) ->
  Forall (shape h1) ts -> Forall (shape h2) ts.
Proof.
  intros Hk. rewrite !Forall_forall. intros Hs t Ht.
  eapply shape_ext; [|by apply Hs].
  intros x Hx. apply Hk. apply elem_of_flat_map_nodes. eauto.
Qed.

Lemma height_subtree c ts t : t ∈ ts -> height t < height (Node c ts).
Proof.
  intros Ht. simpl. apply Nat.lt_succ_r.
  apply max_list_elem_of_le. by apply list_elem_of_fmap_2.
Qed.

(** In a heap whose links agree, the nodes below the root of a tree
    have a parent. *)
Lemma shape_par h t x :
  linked h -> shape h t -> x ∈ flat_map nodes (subtrees t) ->
  par h x <> None.
Proof.
  intros Hl. revert x. induction t as [c ts IH] using tree_induction.
  intros x Hs Hx. simpl in Hx.
  apply shape_inv in Hs as [Hc Hts].
  apply elem_of_flat_map_nodes in Hx as (t & Ht & Hx).
  rewrite Forall_forall in IH, Hts.
  destruct t as [c' ts']. simpl in Hx.
  apply elem_of_cons in Hx as [->|Hx].
  - assert (c' ∈ kids h c) as Hin.
    { rewrite Hc. by apply (list_elem_of_fmap_2 root _ (Node c' ts')). }
    rewrite (linked_down _ Hl _ _ Hin). done.
  - apply (IH _ Ht); [by apply Hts|done].
Qed.
End Trees.

(** * Pruning, on trees *)

Section PruneTree.
Implicit Types (h : Heap) (t : tree) (ts : list tree) (c x : cid).

Lemma flat_map_ext_Forall {A B} (f g : A -> list B) (l : list A) :
  Forall (fun a => f a = g a) l -> flat_map f l = flat_map g l.
Proof. induction 1 as [|a l Ha _ IH]; simpl; [done|]. by rewrite Ha, IH. Qed.

Lemma flat_map_singletons {A} (f : A -> list A) (l : list A) :
  Forall (fun a => f a = [a]) l -> flat_map f l = l.
Proof. induction 1 as [|a l Ha _ IH]; simpl; [done|]. by rewrite Ha, IH. Qed.

Lemma is_dummy_ext h1 h2 c :
  msg_of h1 c = msg_of h2 c -> is_dummy h1 c = is_dummy h2 c.
Proof. unfold is_dummy. by intros ->. Qed.

Lemma is_dummy_true h c : is_dummy h c = true <-> msg_of h c = None.
Proof. unfold is_dummy. destruct (msg_of h c); naive_solver. Qed.

Lemma is_dummy_false h c : is_dummy h c = false <-> msg_of h c <> None.
Proof. unfold is_dummy. destruct (msg_of h c); naive_solver. Qed.

Lemma prune_tree_ext h1 h2 b t :
  (forall x, msg_of h1 x = msg_of h2 x) ->
  prune_tree h1 b t = prune_tree h2 b t.
Proof.
  intros Hm. revert b. induction t as [c ts IH] using tree_induction.
  intros b. simpl.
  assert (flat_map (prune_tree h1 true) ts
          = flat_map (prune_tree h2 true) ts) as ->.
  { apply flat_map_ext_Forall. eapply Forall_impl; [exact IH|].
    intros t Ht. apply Ht. }
  by rewrite (is_dummy_ext h1 h2 c).
Qed.

Lemma flat_map_sublist (f : tree -> list tree) ts :
  Forall (fun t => flat_map nodes (f t) `sublist_of` nodes t) ts ->
  flat_map nodes (flat_map f ts) `sublist_of` flat_map nodes ts.
Proof.
  induction 1 as [|t ts Ht _ IH]; simpl; [done|].
  rewrite flat_map_app. by apply sublist_app.
Qed.

(** Pruning drops nodes and keeps the order of those that stay. *)
Lemma prune_tree_sublist h b t :
  flat_map nodes (prune_tree h b t) `sublist_of` nodes t.
Proof.
  revert b. induction t as [c ts IH] using tree_induction. intros b.
  assert (flat_map nodes (flat_map (prune_tree h true) ts)
            `sublist_of` flat_map nodes ts) as Hsub.
  { apply flat_map_sublist. eapply Forall_impl; [exact IH|].
    intros t Ht. apply Ht. }
  simpl. repeat case_match.
  - apply sublist_nil_l.
  - by apply sublist_cons.
  - simpl. rewrite app_nil_r. by apply sublist_skip.
Qed.

Lemma prune_tree_nodes h b t x :
  x ∈ flat_map nodes (prune_tree h b t) -> x ∈ nodes t.
Proof. intros Hx. eapply elem_of_sublist; [exact Hx|]. apply prune_tree_sublist. Qed.

Lemma prune_forest_sublist h ts :
  flat_map nodes (flat_map (prune_tree h true) ts)
    `sublist_of` flat_map nodes ts.
Proof.
  apply flat_map_sublist, Forall_forall. intros t _.
  apply prune_tree_sublist.
Qed.

Lemma roots_sublist ts : map root ts `sublist_of` flat_map nodes ts.
Proof.
  induction ts as [|[c ts'] ts IH]; simpl; [done|].
  apply sublist_skip. etrans; [exact IH|]. apply sublist_inserts_l. done.
Qed.

(** What pruning returns is pruned. *)
Lemma prune_tree_pruned h b t : Forall (pruned h b) (prune_tree h b t).
Proof.
  revert b. induction t as [c ts IH] using tree_induction. intros b.
  assert (Forall (pruned h true) (flat_map (prune_tree h true) ts)) as Hts.
  { apply Forall_forall. intros t' Ht'.
    apply list_elem_of_In, in_flat_map in Ht' as (t & Ht & Ht').
    rewrite Forall_forall in IH.
    apply list_elem_of_In in Ht, Ht'.
    specialize (IH t Ht true). rewrite Forall_forall in IH. by apply IH. }
  simpl. set (ts' := flat_map (prune_tree h true) ts) in *.
  destruct (is_dummy h c && bool_decide (ts' = [])) eqn:H1; [constructor|].
  destruct (is_dummy h c && (bool_decide (length ts' = 1) || b)) eqn:H2.
  - eapply Forall_impl; [exact Hts|]. intros t [Hc [Hr|[? _]]]; [|done].
    split; [done|]. by left.
  - constructor; [|constructor]. split.
    + intros x Hx. simpl in Hx.
      apply elem_of_flat_map_nodes in Hx as (t & Ht & Hx).
      rewrite Forall_forall in Hts. destruct (Hts t Ht) as [Hc [Hr|[? _]]];
        [|done].
      destruct t as [c' ts'']. simpl in Hx, Hr.
      apply elem_of_cons in Hx as [->|Hx]; [done|]. by apply Hc.
    + simpl. destruct (is_dummy h c) eqn:Hd.
      * right. simpl in H1, H2.
        apply orb_false_iff in H2 as [H2 ->].
        apply bool_decide_eq_false in H1, H2.
        split; [done|]. destruct ts' as [|? [|? ?]]; simpl in *; try done; lia.
      * left. by apply is_dummy_false.
Qed.

(** Pruning leaves a pruned tree alone. *)
Lemma prune_tree_fixed h b t : pruned h b t -> prune_tree h b t = [t].
Proof.
  revert b. induction t as [c ts IH] using tree_induction.
  intros b [Hclean Hroot]. simpl in Hroot.
  assert (flat_map (prune_tree h true) ts = ts) as Hts.
  { apply flat_map_singletons. rewrite Forall_forall in IH |- *.
    intros t Ht. apply (IH t Ht). split.
    - intros x Hx. apply Hclean. simpl.
      apply elem_of_flat_map_nodes. exists t. split; [done|].
      destruct t. simpl in *. apply elem_of_cons. by right.
    - left. apply Hclean. simpl. by apply roots_in_nodes. }
  simpl. rewrite Hts.
  destruct Hroot as [Hm|[-> Hlen]].
  - apply is_dummy_false in Hm. by rewrite Hm.
  - destruct (is_dummy h c); simpl; [|done].
    rewrite !bool_decide_eq_false_2; [done|lia|].
    intros ->. simpl in Hlen. lia.
Qed.
End PruneTree.

(** * Pruning, on the heap *)

Section PruneLoops.
Implicit Types (h : Heap) (t : tree) (ts : list tree) (c x : cid).

Lemma linked_not_child h x k p :
  linked h -> par h k = Some p -> x <> p -> k ∉ kids h x.
Proof.
  intros Hl Hk Hx Hin. apply (linked_down _ Hl) in Hin. congruence.
Qed.

Lemma linked_orphan h x k : linked h -> par h k = None -> k ∉ kids h x.
Proof. intros Hl Hk Hin. apply (linked_down _ Hl) in Hin. congruence. Qed.

(** [for child in children: container.remove_child(child)] *)
Lemma remove_children_spec c ks : forall h,
  linked h -> kids h c = ks ->
  exists h',
    for_each (remove_child c) ks h = Ok h' /\ linked h' /\
    length h' = length h /\
    (forall x, msg_of h' x = msg_of h x) /\
    kids h' c = [] /\
    (forall x, x <> c -> kids h' x = kids h x) /\
    (forall x, par h' x = if decide (x ∈ ks) then None else par h x).
Proof.
  induction ks as [|k ks IH]; intros h Hl Hks; simpl.
  - exists h. split_and!; done.
  - destruct (remove_child_spec h c k) as (h1 & -> & Hl1 & Hlen1 & Hm1 & Hk1 & Hp1);
      [done|rewrite Hks; by left|].
    simpl. destruct (IH h1) as (h' & -> & Hl' & Hlen' & Hm' & Hk' & Hko' & Hp');
      [done| |].
    { rewrite Hk1, Hks. simpl. by rewrite decide_True. }
    exists h'. split_and!.
    + done.
    + done.
    + congruence.
    + intros x. by rewrite Hm', Hm1.
    + done.
    + intros x Hx. rewrite Hko', Hk1 by done.
      apply remove_first_notin. apply (linked_not_child h x k c); [done| |done].
      apply (linked_down _ Hl). rewrite Hks. by left.
    + intros x. rewrite Hp', Hp1.
      repeat case_decide; try done; set_solver.
Qed.

(** [for child in new_children: container.add_child(child)] *)
Lemma add_children_spec c rs : forall h,
  linked h -> (rs <> [] -> c < length h) -> NoDup rs ->
  (forall r, r ∈ rs -> par h r = None /\ r < length h) ->
  exists h',
    for_each (add_child c) rs h = Ok h' /\ linked h' /\
    length h' = length h /\
    (forall x, msg_of h' x = msg_of h x) /\
    kids h' c = kids h c ++ rs /\
    (forall x, x <> c -> kids h' x = kids h x) /\
    (forall x, par h' x = if decide (x ∈ rs) then Some c else par h x).
Proof.
  induction rs as [|r rs IH]; intros h Hl Hc Hnd Hrs; simpl.
  - exists h. split_and!; try done. by rewrite app_nil_r.
  - apply NoDup_cons in Hnd as [Hr Hnd].
    destruct (Hrs r) as [Hpr Hrv]; [by left|].
    destruct (add_child_spec h c r) as (h1 & -> & Hl1 & Hlen1 & Hm1 & Hk1 & Hp1);
      [done|by apply Hc|done|].
    simpl. destruct (IH h1) as (h' & -> & Hl' & Hlen' & Hm' & Hk' & Hko' & Hp');
      [done|intros _; rewrite Hlen1; by apply Hc|done| |].
    { intros r' Hr'. rewrite Hp1, Hlen1.
      rewrite decide_False by (intros ->; done). apply Hrs. by right. }
    assert (forall x, remove_first r (kids h x) = kids h x) as Hrf.
    { intros x. apply remove_first_notin. by apply linked_orphan. }
    exists h'. split_and!.
    + done.
    + done.
    + congruence.
    + intros x. by rewrite Hm', Hm1.
    + rewrite Hk', Hk1, Hrf. rewrite decide_True by done.
      by rewrite <- app_assoc.
    + intros x Hx. rewrite Hko', Hk1, Hrf by done.
      rewrite decide_False by done. by rewrite app_nil_r.
    + intros x. rewrite Hp', Hp1.
      repeat case_decide; try done; set_solver.
Qed.
End PruneLoops.

Section PruneRefines.
Implicit Types (h : Heap) (t : tree) (ts : list tree) (c x : cid).

Lemma NoDup_nodes_inv c ts1 t ts2 :
  NoDup (nodes (Node c (ts1 ++ t :: ts2))) ->
  NoDup (nodes t) /\ c ∉ nodes t /\
  (forall x, x ∈ nodes t -> x ∉ flat_map nodes ts1) /\
  (forall x, x ∈ nodes t -> x ∉ flat_map nodes ts2).
Proof.
  simpl. rewrite flat_map_app. simpl.
  intros [Hc Hnd]%NoDup_cons.
  apply NoDup_app in Hnd as (_ & Hd1 & Hnd).
  apply NoDup_app in Hnd as (Ht & Hd2 & _).
  rewrite !elem_of_app in Hc. split_and!; [done|tauto| |done].
  intros x Hx Hx1. apply (Hd1 x Hx1). apply elem_of_app. by left.
Qed.

Lemma prune_children_loop
    (prune : cid -> Heap -> Result (list cid * Heap)) h c ts :
  linked h -> shape h (Node c ts) -> NoDup (nodes (Node c ts)) ->
  (forall t h0, t ∈ ts -> linked h0 -> shape h0 t ->
     exists h',
       prune (root t) h0
       = Ok (map root
               (prune_tree h0 (bool_decide (par h0 (root t) <> None)) t), h') /\
       prune_post h0 t h'
         (prune_tree h0 (bool_decide (par h0 (root t) <> None)) t)) ->
  forall ts2 ts1 hi,
    ts = ts1 ++ ts2 -> children_inv h c ts1 ts2 hi ->
    exists h',
      for_each (prune_child prune c) (map root ts2)
               (map root (flat_map (prune_tree h true) ts1), hi)
      = Ok (map root (flat_map (prune_tree h true) ts), h') /\
      children_inv h c ts [] h'.
Proof.
  intros Hl Hs Hnd Hrec. apply shape_inv in Hs as [Hkc Hsts].
  induction ts2 as [|t ts2 IH]; intros ts1 hi Hts Hinv.
  { simpl. exists hi. rewrite app_nil_r in Hts. by subst. }
  destruct Hinv as (Hli & Hleni & Hmi & Hki & Hfr & Hpc & Hsh & Hroots).
  subst ts.
  destruct (NoDup_nodes_inv _ _ _ _ Hnd) as (Hndt & Hct & Hd1 & Hd2).
  assert (t ∈ ts1 ++ t :: ts2) as Htin by set_solver.
  assert (shape h t) as Hst by (rewrite Forall_forall in Hsts; by apply Hsts).
  assert (par h (root t) = Some c) as Hpt.
  { apply (linked_down _ Hl). rewrite Hkc. by apply list_elem_of_fmap_2. }
  assert (forall x, x ∈ nodes t -> kids hi x = kids h x /\ par hi x = par h x)
    as Hfrt.
  { intros x Hx. apply Hfr; [by apply Hd1|]. intros ->. done. }
  assert (shape hi t) as Hsit.
  { eapply shape_ext; [|exact Hst]. intros x Hx. by apply Hfrt. }
  destruct (Hrec t hi Htin Hli Hsit) as (h' & Hrun & Hpost).
  assert (par hi (root t) = Some c) as Hpit.
  { destruct (Hfrt (root t) (root_in_nodes t)) as [_ ->]. done. }
  rewrite Hpit, bool_decide_eq_true_2 in Hrun, Hpost by done.
  rewrite (prune_tree_ext hi h) in Hrun, Hpost by done.
  destruct Hpost as (Hl' & Hlen' & Hm' & Hfr' & Hproot & Hsh' & Hroots').
  assert (kids h' c = root t :: map root ts2) as Hkc'.
  { destruct (Hfr' c Hct) as [-> _]. by rewrite Hki. }
  destruct (remove_child_spec h' c (root t))
    as (h'' & Hrm & Hl'' & Hlen'' & Hm'' & Hk'' & Hp'');
    [done|rewrite Hkc'; by left|].
  assert (forall x, x <> c -> kids h'' x = kids h' x) as Hko''.
  { intros x Hx. rewrite Hk''. apply remove_first_notin.
    apply (linked_not_child h' x (root t) c); [done|congruence|done]. }
  simpl. rewrite Hrun. simpl. rewrite Hrm. simpl.
  rewrite <- map_app.
  assert (flat_map (prune_tree h true) (ts1 ++ [t])
          = flat_map (prune_tree h true) ts1 ++ prune_tree h true t) as Hout.
  { rewrite flat_map_app. simpl. by rewrite app_nil_r. }
  rewrite <- Hout.
  apply (IH (ts1 ++ [t]) h''); [by rewrite <- app_assoc|].
  split_and!.
  - done.
  - congruence.
  - intros x. by rewrite Hm'', Hm', Hmi.
  - rewrite Hk'', Hkc'. simpl. by rewrite decide_True.
  - intros x Hx Hxc. rewrite flat_map_app, elem_of_app in Hx. simpl in Hx.
    rewrite app_nil_r in Hx.
    assert (x ∉ nodes t) as Hxt by tauto.
    rewrite Hko'' by done. rewrite Hp''.
    rewrite decide_False by (intros ->; apply Hxt, root_in_nodes).
    destruct (Hfr' x Hxt) as [-> ->]. apply Hfr; tauto.
  - rewrite Hp''. rewrite decide_False by (intros ->; apply Hct, root_in_nodes).
    destruct (Hfr' c Hct) as [_ ->]. done.
  - rewrite Hout. apply Forall_app. split.
    + eapply Forall_shape_ext; [|exact Hsh]. intros x Hx.
      assert (x ∈ flat_map nodes ts1) as Hx1.
      { eapply elem_of_sublist; [exact Hx|]. apply prune_forest_sublist. }
      assert (x ∉ nodes t) as Hxt by (intros ?; by eapply Hd1).
      assert (x <> c) as Hxc.
      { intros ->. apply NoDup_cons in Hnd as [Hnd _]. apply Hnd.
        rewrite flat_map_app. apply elem_of_app. by left. }
      rewrite Hko'' by done. by destruct (Hfr' x Hxt) as [-> _].
    + eapply Forall_shape_ext; [|exact Hsh']. intros x Hx.
      apply prune_tree_nodes in Hx. apply Hko''. by intros ->.
  - intros t' Ht'. rewrite Hout in Ht'. rewrite Hp''.
    case_decide as Hrt; [done|].
    apply elem_of_app in Ht' as [Ht'|Ht'].
    + assert (root t' ∈ flat_map nodes ts1) as Hx1.
      { eapply elem_of_sublist; [|apply prune_forest_sublist].
        by apply roots_in_nodes. }
      assert (root t' ∉ nodes t) as Hxt by (intros ?; by eapply Hd1).
      destruct (Hfr' _ Hxt) as [_ ->]. by apply Hroots.
    + by apply Hroots'.
Qed.
Lemma shape_nodes_valid h t x :
  linked h -> shape h t -> x ∈ flat_map nodes (subtrees t) -> x < length h.
Proof.
  intros Hl Hs Hx. destruct (decide (x < length h)); [done|].
  exfalso. eapply shape_par; [done..|]. apply par_out_of_range. lia.
Qed.

(** The run of [prune_container] on a tree of the heap computes
    [prune_tree]. *)
Lemma prune_container_refines fuel : forall t h,
  linked h -> shape h t -> NoDup (nodes t) -> height t <= fuel ->
  exists h',
    prune_container fuel (root t) h
    = Ok (map root (prune_tree h (bool_decide (par h (root t) <> None)) t), h') /\
    prune_post h t h' (prune_tree h (bool_decide (par h (root t) <> None)) t).
Proof.
  induction fuel as [|fuel IHfuel]; intros [c ts] h Hl Hs Hnd Hh.
  { simpl in Hh. lia. }
  assert (forall t h0, t ∈ ts -> linked h0 -> shape h0 t ->
     exists h',
       prune_container fuel (root t) h0
       = Ok (map root
               (prune_tree h0 (bool_decide (par h0 (root t) <> None)) t), h') /\
       prune_post h0 t h'
         (prune_tree h0 (bool_decide (par h0 (root t) <> None)) t)) as Hrec.
  { intros t h0 Ht Hl0 Hs0. apply IHfuel; [done|done| |].
    - apply list_elem_of_split in Ht as (ts1 & ts2 & ->).
      by destruct (NoDup_nodes_inv _ _ _ _ Hnd) as (? & _).
    - pose proof (height_subtree c ts t Ht). lia. }
  assert (children_inv h c [] ts h) as Hinv0.
  { apply shape_inv in Hs as [Hkc _]. split_and!; simpl; try done.
    intros t' Ht'. by apply elem_of_nil in Ht'. }
  destruct (prune_children_loop _ h c ts Hl Hs Hnd Hrec ts [] h eq_refl Hinv0)
    as (h1 & Hloop & Hinv1).
  destruct Hinv1 as (Hl1 & Hlen1 & Hm1 & Hk1 & Hfr1 & Hpc1 & Hsh1 & Hroots1).
  pose proof Hs as Hs'. apply shape_inv in Hs' as [Hkc Hsts].
  set (out := flat_map (prune_tree h true) ts) in *.
  assert (forall x, x ∈ flat_map nodes out -> x ∈ flat_map nodes ts) as Hsub.
  { intros x Hx. eapply elem_of_sublist; [exact Hx|].
    apply prune_forest_sublist. }
  assert (c ∉ flat_map nodes ts) as Hcts.
  { simpl in Hnd. by apply NoDup_cons in Hnd as [? _]. }
  assert (NoDup (map root out)) as Hndr.
  { eapply sublist_NoDup; [|apply roots_sublist].
    eapply sublist_NoDup; [|apply prune_forest_sublist].
    simpl in Hnd. by apply NoDup_cons in Hnd as [_ ?]. }
  assert (forall r, r ∈ map root out -> r ∈ flat_map nodes ts) as Hrts.
  { intros r Hr. apply Hsub. eapply elem_of_sublist; [exact Hr|].
    apply roots_sublist. }
  destruct (add_children_spec c (map root out) h1)
    as (h2 & Hadd & Hl2 & Hlen2 & Hm2 & Hk2 & Hko2 & Hp2); [done| |done| |].
  { intros Hne. rewrite Hlen1. destruct ts as [|t ts]; [done|].
    apply (kids_parent_valid h c (root t)). rewrite Hkc. by left. }
  { intros r Hr. split.
    - apply list_elem_of_fmap in Hr as (t' & -> & Ht'). by apply Hroots1.
    - rewrite Hlen1. apply (shape_nodes_valid h (Node c ts)); [done..|].
      by apply Hrts. }
  change (root (Node c ts)) with c.
  simpl prune_container. rewrite Hkc.
  change (@nil cid) with (map root (flat_map (prune_tree h true) [])).
  rewrite Hloop. simpl. rewrite Hadd. simpl.
  rewrite Hk1 in Hk2. simpl in Hk2.
  assert (Forall (shape h2) out) as Hsh2.
  { eapply Forall_shape_ext; [|exact Hsh1]. intros x Hx. apply Hko2.
    intros ->. by apply Hcts, Hsub. }
  assert (par h2 c = par h c) as Hpc2.
  { rewrite Hp2, decide_False; [done|]. intros Hc. by apply Hcts, Hrts. }
  assert (forall x, x ∉ nodes (Node c ts) ->
            kids h2 x = kids h x /\ par h2 x = par h x) as Hfr2.
  { intros x Hx. simpl in Hx. apply not_elem_of_cons in Hx as [Hxc Hx].
    rewrite Hko2 by done. rewrite Hp2.
    rewrite decide_False by (intros ?; by apply Hx, Hrts).
    by apply Hfr1. }
  assert (forall x, msg_of h2 x = msg_of h x) as Hmsg2.
  { intros x. by rewrite Hm2, Hm1. }
  unfold prune_decide. rewrite (is_dummy_ext h2 h c) by done.
  rewrite Hk2, length_map, Hpc2.
  assert (bool_decide (length out = 0) = bool_decide (out = [])) as ->.
  { apply bool_decide_ext. by destruct out. }
  simpl prune_tree. fold out.
  destruct (is_dummy h c && bool_decide (out = [])) eqn:H1.
  { exists h2. split; [done|]. split_and!; try done; try congruence.
    intros t' Ht'. by apply elem_of_nil in Ht'. }
  destruct (is_dummy h c && (bool_decide (length out = 1)
                             || bool_decide (par h c <> None))) eqn:H2.
  - destruct (remove_children_spec c (map root out) h2)
      as (h3 & Hrm & Hl3 & Hlen3 & Hm3 & Hk3 & Hko3 & Hp3); [done|done|].
    rewrite Hrm. simpl. exists h3. split; [done|]. split_and!.
    + done.
    + congruence.
    + intros x. by rewrite Hm3.
    + intros x Hx. destruct (Hfr2 x Hx) as [<- <-].
      simpl in Hx. apply not_elem_of_cons in Hx as [Hxc Hx].
      rewrite Hko3 by done. rewrite Hp3.
      by rewrite decide_False by (intros ?; by apply Hx, Hrts).
    + simpl. rewrite Hp3. rewrite decide_False; [done|].
      intros Hc. by apply Hcts, Hrts.
    + eapply Forall_shape_ext; [|exact Hsh2]. intros x Hx. apply Hko3.
      intros ->. by apply Hcts, Hsub.
    + intros t' Ht' _. rewrite Hp3. rewrite decide_True; [done|].
      by apply list_elem_of_fmap_2.
  - exists h2. split; [done|]. split_and!; try done; try congruence.
    + constructor; [|constructor]. by constructor.
    + intros t' Ht'. apply list_elem_of_singleton in Ht' as ->. done.
Qed.
End PruneRefines.

(** * The tree under a root

    In a heap whose links agree, what hangs under a container without
    parent is a tree: following [parent] from any container under it ends
    at the root, so no container is met twice. *)

Section Ancestors.
Implicit Types (h : Heap) (c x r : cid).

Lemma ancestor_plus h a b x :
  ancestor h (a + b) x = ancestor h a x ≫= ancestor h b.
Proof.
  revert x. induction a as [|a IH]; intros x; simpl; [done|].
  destruct (par h x); [apply IH|done].
Qed.

Lemma ancestor_succ h a x y p :
  ancestor h a x = Some y -> par h y = Some p -> ancestor h (S a) x = Some p.
Proof.
  intros Ha Hp. replace (S a) with (a + 1) by lia.
  rewrite ancestor_plus, Ha. simpl. by rewrite Hp.
Qed.

Lemma ancestor_past_root h r a x b :
  par h r = None -> ancestor h a x = Some r -> a < b ->
  ancestor h b x = None.
Proof.
  intros Hr Ha Hab. replace b with (a + S (b - a - 1)) by lia.
  rewrite ancestor_plus, Ha. simpl. by rewrite Hr.
Qed.

Lemma ancestor_cycle h k x m :
  ancestor h k x = Some x -> ancestor h (m * k) x = Some x.
Proof.
  intros Hk. induction m as [|m IH]; simpl; [done|].
  by rewrite ancestor_plus, Hk.
Qed.

(** A container from which [parent] leads to a root is on no cycle. *)
Lemma no_cycle h r a x k :
  par h r = None -> ancestor h a x = Some r -> ancestor h (S k) x <> Some x.
Proof.
  intros Hr Ha Hk.
  pose proof (ancestor_cycle h (S k) x (S a) Hk) as Hc.
  rewrite (ancestor_past_root h r a x) in Hc; [done..|]. simpl. lia.
Qed.

Lemma ancestor_valid h a x y :
  ancestor h (S a) x = Some y -> x < length h.
Proof.
  simpl. destruct (par h x) eqn:Hp; [|done]. intros _.
  destruct (decide (x < length h)); [done|].
  rewrite par_out_of_range in Hp by lia. done.
Qed.

Lemma ancestor_chain h r : par h r = None -> r < length h ->
  forall j x, ancestor h j x = Some r ->
  exists l, length l = S j /\ NoDup l /\
            forall y, y ∈ l ->
              y < length h /\ exists i, ancestor h i x = Some y.
Proof.
  intros Hr Hrv. induction j as [|j IH]; intros x Hx.
  - simpl in Hx. simplify_eq. exists [r]. split_and!; [done|apply NoDup_singleton|].
    intros y ->%list_elem_of_singleton. split; [done|]. by exists 0.
  - pose proof (ancestor_valid _ _ _ _ Hx) as Hxv.
    simpl in Hx. destruct (par h x) as [p|] eqn:Hp; [|done].
    destruct (IH p Hx) as (l & Hlen & Hnd & Hl).
    exists (x :: l). split_and!.
    + simpl. by rewrite Hlen.
    + apply NoDup_cons. split; [|done]. intros Hin.
      destruct (Hl x Hin) as (_ & i & Hi).
      apply (no_cycle h r (S j) x i); [done|simpl; by rewrite Hp|].
      simpl. by rewrite Hp.
    + intros y [->|Hy]%elem_of_cons.
      * split; [done|]. by exists 0.
      * destruct (Hl y Hy) as (? & i & Hi). split; [done|].
        exists (S i). simpl. by rewrite Hp.
Qed.

(** Under a root there is no container deeper than the heap is large. *)
Lemma depth_bound h r j x :
  par h r = None -> r < length h -> ancestor h j x = Some r ->
  j < length h.
Proof.
  intros Hr Hrv Hx.
  destruct (ancestor_chain h r Hr Hrv j x Hx) as (l & Hlen & Hnd & Hl).
  assert (l ⊆+ seq 0 (length h)) as Hsub.
  { apply NoDup_submseteq; [done|]. intros y Hy.
    apply elem_of_seq. destruct (Hl y Hy). lia. }
  apply submseteq_length in Hsub. rewrite length_seq in Hsub. lia.
Qed.

(** Two children of a container under a root have nothing in common
    below them. *)
Lemma siblings_apart h r j c k k' a b x :
  par h r = None -> ancestor h j c = Some r ->
  par h k = Some c -> par h k' = Some c -> k <> k' ->
  ancestor h a x = Some k -> ancestor h b x = Some k' -> False.
Proof.
  intros Hr Hc Hk Hk' Hne Ha Hb.
  assert (forall a1 b1 k1 k2, par h k1 = Some c -> par h k2 = Some c ->
            ancestor h a1 x = Some k1 -> ancestor h b1 x = Some k2 ->
            a1 < b1 -> False) as Hlt.
  { intros a1 b1 k1 k2 Hk1 Hk2 Ha1 Hb1 Hab.
    replace b1 with (a1 + S (b1 - a1 - 1)) in Hb1 by lia.
    rewrite ancestor_plus, Ha1 in Hb1. simpl in Hb1. rewrite Hk1 in Hb1.
    apply (no_cycle h r j c (b1 - a1 - 1)); [done..|].
    by eapply ancestor_succ. }
  destruct (lt_eq_lt_dec a b) as [[Hab| ->]|Hab]; [by eauto| |by eauto].
  congruence.
Qed.
End Ancestors.

Section TreeOf.
Implicit Types (h : Heap) (c x r : cid).

Lemma root_tree_of n h c : root (tree_of n h c) = c.
Proof. by destruct n. Qed.

Lemma roots_tree_of n h l : map root (map (tree_of n h) l) = l.
Proof.
  induction l as [|c l IH]; simpl; [done|].
  by rewrite root_tree_of, IH.
Qed.

Lemma height_tree_of n h c : height (tree_of n h c) <= S n.
Proof.
  revert c. induction n as [|n IH]; intros c; simpl; [lia|].
  apply le_n_S. induction (kids h c) as [|k l IHl]; simpl; [lia|].
  specialize (IH k). lia.
Qed.

Lemma tree_of_nodes h n c x :
  linked h -> x ∈ nodes (tree_of n h c) ->
  exists i, ancestor h i x = Some c.
Proof.
  intros Hl. revert c. induction n as [|n IH]; intros c; simpl.
  - intros ->%list_elem_of_singleton. by exists 0.
  - intros [->|Hx]%elem_of_cons; [by exists 0|].
    apply elem_of_flat_map_nodes in Hx as (t & Ht & Hx).
    apply list_elem_of_fmap in Ht as (k & -> & Hk).
    destruct (IH k Hx) as (i & Hi). exists (S i).
    eapply ancestor_succ; [done|]. by apply (linked_down _ Hl).
Qed.

Section UnderRoot.
Context (h : Heap) (r : cid).
Hypothesis (Hl : linked h) (Hr : par h r = None) (Hrv : r < length h).

Lemma tree_of_shape n : forall c j,
  ancestor h j c = Some r -> length h <= j + n + 1 ->
  shape h (tree_of n h c).
Proof.
  induction n as [|n IH]; intros c j Hc Hn; simpl.
  - constructor; [|constructor].
    destruct (kids h c) as [|k l] eqn:Hk; [done|]. exfalso.
    assert (par h k = Some c) as Hp.
    { apply (linked_down _ Hl). rewrite Hk. by left. }
    assert (ancestor h (S j) k = Some r) as Hanc.
    { simpl. by rewrite Hp. }
    pose proof (depth_bound h r (S j) k Hr Hrv Hanc). lia.
  - constructor; [by rewrite roots_tree_of|].
    apply Forall_forall. intros t Ht.
    apply list_elem_of_fmap in Ht as (k & -> & Hk).
    apply (IH k (S j)); [|lia].
    simpl. by rewrite (linked_down _ Hl _ _ Hk).
Qed.

Lemma tree_of_NoDup n : forall c j,
  ancestor h j c = Some r -> NoDup (nodes (tree_of n h c)).
Proof.
  induction n as [|n IH]; intros c j Hc; simpl.
  { apply NoDup_singleton. }
  apply NoDup_cons. split.
  - intros Hx. apply elem_of_flat_map_nodes in Hx as (t & Ht & Hx).
    apply list_elem_of_fmap in Ht as (k & -> & Hk).
    destruct (tree_of_nodes h n k c Hl Hx) as (i & Hi).
    apply (no_cycle h r j c i Hr Hc).
    eapply ancestor_succ; [done|]. by apply (linked_down _ Hl).
  - assert (forall k, k ∈ kids h c -> par h k = Some c) as Hpar.
    { intros k. apply (linked_down _ Hl). }
    pose proof (linked_nodup _ Hl c) as Hnd.
    induction (kids h c) as [|k l IHl]; simpl; [constructor|].
    apply NoDup_cons in Hnd as [Hk Hnd].
    apply NoDup_app. split_and!.
    + apply (IH k (S j)). simpl. rewrite Hpar; [done|by left].
    + intros x Hx Hx'.
      apply elem_of_flat_map_nodes in Hx' as (t & Ht & Hx').
      apply list_elem_of_fmap in Ht as (k' & -> & Hk').
      destruct (tree_of_nodes h n k x Hl Hx) as (a & Ha).
      destruct (tree_of_nodes h n k' x Hl Hx') as (b & Hb).
      apply (siblings_apart h r j c k k' a b x); try done.
      * apply Hpar. by left.
      * apply Hpar. by right.
      * intros ->. done.
    + apply IHl; [|done]. intros k' Hk'. apply Hpar. by right.
Qed.

(** The tree under a root. *)
Lemma root_tree :
  let t := tree_of (length h - 1) h r in
  root t = r /\ shape h t /\ NoDup (nodes t) /\ height t <= length h.
Proof.
  simpl. split_and!.
  - apply root_tree_of.
  - apply (tree_of_shape _ r 0); [done|lia].
  - by apply (tree_of_NoDup _ r 0).
  - pose proof (height_tree_of (length h - 1) h r). lia.
Qed.
End UnderRoot.
End TreeOf.

(** * What pruning returns *)

Section Pruned.
Implicit Types (h : Heap) (t : tree) (ts : list tree) (c x : cid).

Lemma shape_unique h t1 : forall t2,
  root t1 = root t2 -> shape h t1 -> shape h t2 -> t1 = t2.
Proof.
  induction t1 as [c1 ts1 IH] using tree_induction.
  intros [c2 ts2] Hroot Hs1 Hs2. simpl in Hroot. subst c2.
  apply shape_inv in Hs1 as [Hk1 Hs1]. apply shape_inv in Hs2 as [Hk2 Hs2].
  f_equal. rewrite Hk1 in Hk2. clear Hk1.
  revert ts2 Hk2 Hs2. induction ts1 as [|t1 ts1 IHts]; intros [|t2 ts2] Hk Hs2;
    simpl in Hk; try done.
  apply Forall_cons in IH as [IH1 IH], Hs1 as [Hs1 Hs1'], Hs2 as [Hs2 Hs2'].
  simplify_eq. f_equal; [by apply IH1|by apply IHts].
Qed.

Lemma shape_kids_agree h1 h2 t x :
  shape h1 t -> shape h2 t -> x ∈ nodes t -> kids h1 x = kids h2 x.
Proof.
  revert x. induction t as [c ts IH] using tree_induction.
  intros x [Hk1 Hs1]%shape_inv [Hk2 Hs2]%shape_inv. simpl.
  intros [->|Hx]%elem_of_cons; [congruence|].
  apply elem_of_flat_map_nodes in Hx as (t & Ht & Hx).
  rewrite Forall_forall in IH, Hs1, Hs2. by apply (IH t Ht); auto.
Qed.

Lemma linked_par_ext h1 h2 :
  linked h1 -> linked h2 -> (forall x, kids h1 x = kids h2 x) ->
  forall x, par h1 x = par h2 x.
Proof.
  intros Hl1 Hl2 Hk x. destruct (par h1 x) as [p|] eqn:Hp1.
  - apply (linked_up _ Hl1) in Hp1. rewrite Hk in Hp1.
    by rewrite (linked_down _ Hl2 _ _ Hp1).
  - destruct (par h2 x) as [p|] eqn:Hp2; [|done].
    apply (linked_up _ Hl2) in Hp2. rewrite <- Hk in Hp2.
    rewrite (linked_down _ Hl1 _ _ Hp2) in Hp1. done.
Qed.

(** What is reached from the root of a tree of the heap is a node of
    the tree. *)
Lemma shape_reach h x d :
  tc (descends h) x d ->
  forall t, root t = x -> shape h t -> d ∈ flat_map nodes (subtrees t).
Proof.
  induction 1 as [x d Hd|x y d Hy _ IH]; intros [c ts] Hroot Hs;
    simpl in Hroot; subst c; apply shape_inv in Hs as [Hk Hs]; simpl.
  - unfold descends in Hd. rewrite Hk in Hd.
    apply list_elem_of_fmap in Hd as (t & -> & Ht). by apply roots_in_nodes.
  - unfold descends in Hy. rewrite Hk in Hy.
    apply list_elem_of_fmap in Hy as (t & -> & Ht).
    apply elem_of_flat_map_nodes. exists t. split; [done|].
    rewrite Forall_forall in Hs. specialize (IH t eq_refl (Hs t Ht)).
    destruct t. simpl in *. apply elem_of_cons. by right.
Qed.

Lemma pruned_ext h1 h2 b t :
  (forall x, msg_of h1 x = msg_of h2 x) -> pruned h1 b t -> pruned h2 b t.
Proof.
  intros Hm [Hc Hr]. split.
  - intros x Hx. rewrite <- Hm. by apply Hc.
  - by rewrite <- Hm.
Qed.

(** The outcome of pruning a root of the heap. *)
Lemma prune_root h c fuel :
  linked h -> par h c = None -> c < length h -> length h <= fuel ->
  exists out h',
    prune_container fuel c h = Ok (map root out, h') /\
    linked h' /\ length h' = length h /\
    (forall x, msg_of h' x = msg_of h x) /\
    (forall x, par h x = None -> x <> c ->
               kids h' x = kids h x /\ par h' x = None) /\
    Forall (shape h') out /\ Forall (pruned h' false) out /\
    NoDup (flat_map nodes out) /\
    (forall t, t ∈ out -> par h' (root t) = None /\ root t < length h /\
                          (root t <> c -> par h (root t) <> None)).
Proof.
  intros Hl Hc Hcv Hfuel.
  destruct (root_tree h c Hl Hc Hcv) as (Hroot & Hs & Hnd & Hh).
  set (t := tree_of (length h - 1) h c) in *.
  destruct (prune_container_refines fuel t h Hl Hs Hnd) as (h' & Hrun & Hpost);
    [lia|].
  rewrite Hroot, Hc in Hrun, Hpost.
  rewrite bool_decide_eq_false_2 in Hrun, Hpost by naive_solver.
  destruct Hpost as (Hl' & Hlen' & Hm' & Hfr' & Hpc' & Hsh' & Hroots').
  assert (forall x, x ∈ flat_map nodes (subtrees t) -> par h x <> None) as Hsub.
  { intros x. by apply shape_par. }
  assert (forall x, x ∈ nodes t -> x = c \/ par h x <> None) as Hnodes.
  { intros x Hx. destruct t as [c' ts]. simpl in *. subst c'.
    apply elem_of_cons in Hx as [->|Hx]; [by left|]. right. by apply Hsub. }
  exists (prune_tree h false t), h'. split_and!; try done.
  - intros x Hx Hxc. rewrite <- Hx. apply Hfr'. intros Hin.
    destruct (Hnodes x Hin); done.
  - eapply Forall_impl; [apply prune_tree_pruned|]. intros t'.
    by apply pruned_ext.
  - eapply sublist_NoDup; [exact Hnd|]. apply prune_tree_sublist.
  - intros t' Ht'.
    assert (root t' ∈ nodes t) as Hin.
    { apply (prune_tree_nodes h false). by apply roots_in_nodes. }
    split_and!.
    + destruct (decide (root t' = c)) as [->|Hne]; [congruence|].
      apply Hroots'; [done|congruence].
    + destruct (Hnodes _ Hin) as [->|Hp]; [done|].
      destruct (decide (root t' < length h)); [done|].
      rewrite par_out_of_range in Hp by lia. done.
    + intros Hne. destruct (Hnodes _ Hin); done.
Qed.
End Pruned.

Lemma linked_check_sound h : linked_check h = true -> linked h.
Proof.
  unfold linked_check. rewrite forallb_forall. intros Hall.
  assert (forall p, p < length h ->
            (forall c, c ∈ kids h p -> par h c = Some p) /\
            NoDup (kids h p) /\
            (forall q, par h p = Some q -> p ∈ kids h q)) as Hcell.
  { intros p Hp.
    assert (In p (seq 0 (length h))) as HIn.
    { apply list_elem_of_In, elem_of_seq. lia. }
    apply Hall in HIn. apply andb_prop in HIn as [H12 H3].
    apply andb_prop in H12 as [H1 H2].
    rewrite forallb_forall in H1. split_and!.
    - intros c Hc. apply list_elem_of_In, H1 in Hc.
      by apply bool_decide_eq_true in Hc.
    - by apply bool_decide_eq_true in H2.
    - intros q Hq. rewrite Hq in H3. by apply bool_decide_eq_true in H3. }
  split.
  - intros p c Hc. apply Hcell; [|done]. by eapply kids_parent_valid.
  - intros p c Hc. apply Hcell; [|done].
    destruct (decide (c < length h)); [done|].
    rewrite par_out_of_range in Hc by lia. done.
  - intros p. destruct (decide (p < length h)); [by apply Hcell|].
    rewrite kids_out_of_range by lia. constructor.
Qed.

(** C6: [prune_container] works post-order.  With the children already
    pruned (each of them as a node that has a parent), a node without
    message and without children gives the empty list; a node without
    message that has exactly one child, or a parent, gives its pruned
    children; any other node (it has a message, or it is a root without
    message that has two or more children) gives the singleton list of
    itself, and keeps the pruned children. *)
Theorem prune_container_cases (fuel : nat) (h : Heap) (t : tree) :
  linked h -> shape h t -> NoDup (nodes t) -> height t <= fuel ->
  let c := root t in
  let pruned_children :=
    map root (flat_map (prune_tree h true) (subtrees t)) in
  exists res h',
    prune_container fuel c h = Ok (res, h') /\
    ((msg_of h c = None /\ pruned_children = [] /\ res = []) \/
     (msg_of h c = None /\
      (length pruned_children = 1 \/ par h c <> None) /\
      res = pruned_children) \/
     ((msg_of h c <> None \/ (par h c = None /\ 2 <= length pruned_children)) /\
      res = [c] /\ kids h' c = pruned_children)).
Proof.
  intros Hl Hs Hnd Hh c ks.
  destruct (prune_container_refines fuel t h Hl Hs Hnd Hh) as (h' & Hrun & Hpost).
  eexists _, h'. split; [exact Hrun|].
  destruct Hpost as (_ & _ & _ & _ & _ & Hsh & _).
  destruct t as [c' ts]. simpl in *. subst c ks.
  set (out := flat_map (prune_tree h true) ts) in *.
  destruct (is_dummy h c') eqn:Hd; simpl in *.
  - apply is_dummy_true in Hd. case_bool_decide as Hout.
    { left. by rewrite Hout. }
    right. case_bool_decide as Hone; simpl in *.
    { left. split_and!; [done| |done]. left. by rewrite length_map. }
    case_bool_decide as Hpar; simpl in *.
    { left. split_and!; [done| |done]. by right. }
    right. apply Forall_cons in Hsh as [[Hk _]%shape_inv _].
    split_and!; [|done|done]. right. split.
    + destruct (par h c'); [by destruct Hpar|done].
    + rewrite length_map. destruct out as [|? [|? ?]]; simpl in *; try done; lia.
  - apply is_dummy_false in Hd. right. right.
    apply Forall_cons in Hsh as [[Hk _]%shape_inv _].
    split_and!; [by left|done|done].
Qed.

Lemma prune_container_cases_witness :
  let m := mail "a" ["p"; "q"] "s" 0 in
  let h := [mkContainer None [1; 4] None;
            mkContainer None [2; 3] (Some 0);
            mkContainer (Some m) [] (Some 1);
            mkContainer (Some m) [] (Some 1);
            mkContainer (Some m) [] (Some 0)] in
  let t := Node 1 [Node 2 []; Node 3 []] in
  exists res h',
    prune_container 2 1 h = Ok (res, h') /\
    ((msg_of h 1 = None /\ [2; 3] = [] /\ res = []) \/
     (msg_of h 1 = None /\ (length [2; 3] = 1 \/ par h 1 <> None) /\
      res = [2; 3]) \/
     ((msg_of h 1 <> None \/ (par h 1 = None /\ 2 <= length [2; 3])) /\
      res = [1] /\ kids h' 1 = [2; 3])).
Proof.
  intros m h t.
  apply (prune_container_cases 2 h t).
  - apply linked_check_sound. vm_compute. reflexivity.
  - repeat constructor.
  - apply (bool_decide_unpack _). vm_compute. exact I.
  - simpl. lia.
Defined.

(** C10: after [prune_container] has run on a root of a heap whose links
    agree (what hangs under such a root is a tree), every returned
    container is a root; one without message has at least two children;
    every container below a returned root has a parent and a message, so
    a container of the returned trees that has a parent has a message; the
    read of the subject grouper, [subject_source], finds a message. *)
Theorem pruned_roots_readable (fuel : nat) (h : Heap) (c : cid)
    (res : list cid) (h' : Heap) :
  linked h -> par h c = None -> c < length h -> length h <= fuel ->
  prune_container fuel c h = Ok (res, h') ->
  forall r, r ∈ res ->
    par h' r = None /\
    (msg_of h' r = None -> 2 <= length (kids h' r)) /\
    (forall d, tc (descends h') r d ->
               par h' d <> None /\ msg_of h' d <> None) /\
    (forall d, rtc (descends h') r d -> par h' d <> None ->
               msg_of h' d <> None) /\
    (exists m, subject_source h' r = Ok m).
Proof.
  intros Hl Hc Hcv Hfuel Hrun r Hr.
  destruct (prune_root h c fuel Hl Hc Hcv Hfuel)
    as (out & h'' & Hrun' & Hl' & Hlen' & Hm' & _ & Hsh & Hpr & _ & Hroots).
  rewrite Hrun in Hrun'. injection Hrun' as -> <-.
  apply list_elem_of_fmap in Hr as (t & -> & Ht).
  rewrite Forall_forall in Hsh, Hpr.
  specialize (Hsh t Ht). destruct (Hpr t Ht) as [Hclean Hroot].
  destruct (Hroots t Ht) as (Hpar & _ & _).
  assert (kids h' (root t) = map root (subtrees t)) as Hk.
  { destruct t. by apply shape_inv in Hsh as [? _]. }
  assert (forall d, tc (descends h') (root t) d ->
            par h' d <> None /\ msg_of h' d <> None) as Hbelow.
  { intros d Hd. pose proof (shape_reach h' _ _ Hd t eq_refl Hsh) as Hin.
    split; [by eapply shape_par|by apply Hclean]. }
  split_and!.
  - done.
  - intros Hnone. destruct Hroot as [?|[_ Hlen]]; [done|].
    by rewrite Hk, length_map.
  - done.
  - intros d Hd Hp. apply rtc_tc in Hd as [<-|Hd]; [done|]. by apply Hbelow.
  - unfold subject_source. destruct (msg_of h' (root t)) as [m|] eqn:Hm.
    { by exists m. }
    destruct Hroot as [?|[_ Hlen]]; [done|]. rewrite Hk.
    destruct (subtrees t) as [|t1 ts] eqn:Hts; simpl in *; [lia|].
    destruct (msg_of h' (root t1)) as [m|] eqn:Hm1; [by exists m|].
    exfalso. apply (Hclean (root t1)); [|done]. rewrite Hts.
    apply roots_in_nodes. by left.
Qed.

Lemma pruned_roots_readable_witness :
  let m := mail "a" ["p"; "q"] "s" 0 in
  let h := [mkContainer None [1; 4] None;
            mkContainer None [2; 3] (Some 0);
            mkContainer (Some m) [] (Some 1);
            mkContainer (Some m) [] (Some 1);
            mkContainer (Some m) [] (Some 0)] in
  let h' := [mkContainer None [2; 3; 4] None;
             mkContainer None [] None;
             mkContainer (Some m) [] (Some 0);
             mkContainer (Some m) [] (Some 0);
             mkContainer (Some m) [] (Some 0)] in
  par h' 0 = None /\
  (msg_of h' 0 = None -> 2 <= length (kids h' 0)) /\
  (forall d, tc (descends h') 0 d ->
             par h' d <> None /\ msg_of h' d <> None) /\
  (forall d, rtc (descends h') 0 d -> par h' d <> None ->
             msg_of h' d <> None) /\
  (exists m, subject_source h' 0 = Ok m).
Proof.
  intros m h h'.
  apply (pruned_roots_readable 5 h 0 [0] h').
  - apply linked_check_sound. vm_compute. reflexivity.
  - reflexivity.
  - simpl. lia.
  - simpl. lia.
  - vm_compute. reflexivity.
  - apply list_elem_of_singleton. reflexivity.
Defined.

(** C7: pruning is idempotent.  If [prune_container] on a root returns
    the root itself, a second run on the heap it left returns the root
    again and leaves that heap as it is: every container keeps its
    message, its parent and its children, in the same order. *)
Theorem prune_idempotent (h : Heap) (c : cid) (h' : Heap) :
  linked h -> par h c = None -> c < length h ->
  prune_container (length h) c h = Ok ([c], h') ->
  prune_container (length h') c h' = Ok ([c], h').
Proof.
  intros Hl Hc Hcv Hrun.
  destruct (prune_root h c (length h) Hl Hc Hcv (le_n _))
    as (out & h1 & Hrun' & Hl' & Hlen' & Hm' & _ & Hsh & Hpr & _ & Hroots).
  rewrite Hrun in Hrun'. injection Hrun' as Hout <-.
  destruct out as [|t1 [|? ?]]; simpl in Hout; try done.
  injection Hout as Hout. subst c.
  apply Forall_cons in Hsh as [Hsh _], Hpr as [Hpr _].
  destruct (Hroots t1) as (Hpar & Hv & _); [by left|].
  assert (root t1 < length h') as Hv' by lia.
  destruct (root_tree h' (root t1) Hl' Hpar Hv') as (Hroot2 & Hs2 & Hnd2 & Hh2).
  set (t2 := tree_of (length h' - 1) h' (root t1)) in *.
  assert (t1 = t2) as Heq by (by apply (shape_unique h')).
  subst t2. rewrite <- Heq in *. clear Heq.
  destruct (prune_container_refines (length h') t1 h' Hl' Hsh Hnd2 Hh2)
    as (h2 & Hrun2 & Hl2 & Hlen2 & Hm2 & Hfr2 & Hpc2 & Hsh2 & _).
  rewrite Hpar in Hrun2, Hsh2.
  rewrite bool_decide_eq_false_2 in Hrun2, Hsh2 by naive_solver.
  rewrite (prune_tree_fixed h' false t1 Hpr) in Hrun2, Hsh2.
  apply Forall_cons in Hsh2 as [Hsh2 _].
  assert (forall x, kids h2 x = kids h' x) as Hkids.
  { intros x. destruct (decide (x ∈ nodes t1)) as [Hx|Hx].
    - by apply (shape_kids_agree h2 h' t1).
    - by apply Hfr2. }
  assert (h2 = h') as ->.
  { apply heap_ext; [done|done|done|]. by apply linked_par_ext. }
  exact Hrun2.
Qed.

Lemma prune_idempotent_witness :
  let m := mail "a" ["p"; "q"] "s" 0 in
  let h := [mkContainer None [1; 4] None;
            mkContainer None [2; 3] (Some 0);
            mkContainer (Some m) [] (Some 1);
            mkContainer (Some m) [] (Some 1);
            mkContainer (Some m) [] (Some 0)] in
  let h' := [mkContainer None [2; 3; 4] None;
             mkContainer None [] None;
             mkContainer (Some m) [] (Some 0);
             mkContainer (Some m) [] (Some 0);
             mkContainer (Some m) [] (Some 0)] in
  prune_container (length h') 0 h' = Ok ([0], h').
Proof.
  intros m h h'.
  apply (prune_idempotent h 0 h').
  - apply linked_check_sound. vm_compute. reflexivity.
  - reflexivity.
  - simpl. lia.
  - vm_compute. reflexivity.
Defined.

(** * The size of the heap

    Step one makes at most one container for each message and one for
    each reference, and nothing else makes a container before the
    grouping. *)

Section HeapSize.
Implicit Types (h : Heap) (t : IdTable) (c p x : cid).

Lemma remove_child_length p c h h' :
  remove_child p c h = Ok h' -> length h' = length h.
Proof.
  unfold remove_child. case_decide; [|done]. intros [= <-]. heap_len.
Qed.

Lemma add_child_length p c h h' :
  add_child p c h = Ok h' -> length h' = length h.
Proof.
  unfold add_child. intros (h1 & Hh1 & [= <-])%bind_Ok.
  assert (length h1 = length h) as <-.
  { destruct (par h c); [by eapply remove_child_length|by injection Hh1 as ->]. }
  heap_len.
Qed.

Lemma try_link_length this_container prev container h h' :
  try_link this_container prev container h = Ok h' -> length h' = length h.
Proof.
  unfold try_link. case_bool_decide; [by intros [= <-]|].
  case_bool_decide; [by intros [= <-]|].
  intros ([|] & _ & Hrun)%bind_Ok; [by injection Hrun as <-|].
  apply bind_Ok in Hrun as ([|] & _ & Hrun); [by injection Hrun as <-|].
  by eapply add_child_length.
Qed.

Lemma step_one_b_length this_container ref prev t h prev' t' h' :
  step_one_b this_container ref (prev, t, h) = Ok (prev', t', h') ->
  length h' <= S (length h).
Proof.
  unfold step_one_b. destruct (table_get t (Some ref)) as [container|].
  - intros (h2 & Hlink & [= <- <- <-])%bind_Ok.
    destruct prev as [p|]; [|injection Hlink as <-; lia].
    apply try_link_length in Hlink. lia.
  - simpl. intros (h2 & Hlink & [= <- <- <-])%bind_Ok.
    assert (length h2 = length (h ++ [empty_container])) as ->.
    { destruct prev as [p|]; [|by injection Hlink as <-].
      by eapply try_link_length. }
    rewrite length_app. simpl. lia.
Qed.

Lemma step_one_b_loop_length this_container refs :
  forall prev t h prev' t' h',
  for_each (step_one_b this_container) refs (prev, t, h)
  = Ok (prev', t', h') ->
  length h' <= length h + length refs.
Proof.
  induction refs as [|ref refs IH]; intros prev t h prev' t' h'.
  { intros [= <- <- <-]. simpl. lia. }
  simpl. intros ([[p1 t1] h1] & Hstep & Hrest)%bind_Ok.
  apply step_one_b_length in Hstep. apply IH in Hrest. lia.
Qed.

Lemma step_one_a_length msg t h c t1 h1 :
  step_one_a msg t h = (c, t1, h1) -> length h1 <= S (length h).
Proof.
  unfold step_one_a. destruct (table_get t (message_id msg)).
  - intros [= <- <- <-]. rewrite length_set_message. lia.
  - simpl. intros [= <- <- <-].
    rewrite length_set_message, length_app. simpl. lia.
Qed.

Lemma step_one_c_length this_container prev h h' :
  step_one_c this_container prev h = Ok h' -> length h' = length h.
Proof.
  unfold step_one_c. destruct prev as [p|]; [by apply add_child_length|].
  destruct (par h this_container); [by apply remove_child_length|].
  by intros [= <-].
Qed.

Lemma link_message_length msg t h t' h' :
  link_message msg (t, h) = Ok (t', h') ->
  length h' <= length h + S (length (references msg)).
Proof.
  unfold link_message. destruct (step_one_a msg t h) as [[c t1] h1] eqn:Ha.
  apply step_one_a_length in Ha.
  intros ([[prev t2] h2] & Hb & Hrun)%bind_Ok.
  apply step_one_b_loop_length in Hb.
  apply bind_Ok in Hrun as (h3 & Hc & [= <- <-]).
  apply step_one_c_length in Hc. lia.
Qed.

Lemma link_messages_length messages : forall t h t' h',
  for_each link_message messages (t, h) = Ok (t', h') ->
  length h' <= length h + container_bound messages.
Proof.
  unfold container_bound.
  induction messages as [|msg messages IH]; intros t h t' h'.
  { intros [= <- <-]. simpl. lia. }
  simpl. intros ([t1 h1] & Hstep & Hrest)%bind_Ok.
  apply link_message_length in Hstep. apply IH in Hrest. lia.
Qed.
End HeapSize.

(** * The depth of the pruning

    A run that returns within some depth returns the same within any
    greater depth. *)

Section Depth.
Implicit Types (h : Heap) (c : cid) (fuel : nat).

Lemma for_each_Ok_impl {A S} (body body' : A -> S -> Result S) (l : list A) :
  (forall x s r, body x s = Ok r -> body' x s = Ok r) ->
  forall s r, for_each body l s = Ok r -> for_each body' l s = Ok r.
Proof.
  intros Himpl. induction l as [|x l IH]; intros s r; simpl; [done|].
  intros (s1 & Hstep & Hrest)%bind_Ok.
  rewrite (Himpl _ _ _ Hstep). simpl. by apply IH.
Qed.

Lemma prune_container_mono fuel : forall fuel' c h r,
  fuel <= fuel' ->
  prune_container fuel c h = Ok r -> prune_container fuel' c h = Ok r.
Proof.
  induction fuel as [|fuel IH]; intros fuel' c h r Hle; [done|].
  destruct fuel' as [|fuel']; [lia|]. simpl.
  intros (st & Hloop & Hrest)%bind_Ok.
  assert (for_each (prune_child (prune_container fuel') c) (kids h c) ([], h)
          = Ok st) as ->; [|done].
  revert Hloop. apply for_each_Ok_impl. intros ctr [acc hi] r'.
  unfold prune_child. intros (pruned & Hrun & Hrest')%bind_Ok.
  rewrite (IH fuel' ctr hi pruned); [done|lia|done].
Qed.

Lemma prune_root_set_mono fuel fuel' roots h r :
  fuel <= fuel' ->
  prune_root_set fuel roots h = Ok r -> prune_root_set fuel' roots h = Ok r.
Proof.
  intros Hle. unfold prune_root_set. apply for_each_Ok_impl.
  intros c [acc hi] r'. unfold prune_root_step.
  intros (pruned & Hrun & Hrest)%bind_Ok.
  by rewrite (prune_container_mono fuel fuel' c hi pruned Hle Hrun).
Qed.

(** More room changes nothing in a run of [thread] that returns. *)
Lemma thread_mono room room' messages group_by_subject r :
  room <= room' ->
  thread room messages group_by_subject = Ok r ->
  thread room' messages group_by_subject = Ok r.
Proof.
  intros Hle. unfold thread.
  intros ([id_table h] & -> & Hrun)%bind_Ok. simpl.
  apply bind_Ok in Hrun as (h1 & -> & Hrun). simpl.
  apply bind_Ok in Hrun as (st & Hprune & Hrun).
  rewrite (prune_root_set_mono (2 + room) (2 + room') _ _ st); [done|lia|done].
Qed.
End Depth.

(** * The subject grouper on examples *)

Lemma table_step_replaces_witness :
  let h := [mkContainer (Some (mail "m3" [] "x" 2)) [] None;
            mkContainer (Some (mail "m1" ["p"] "x" 0)) [] (Some 2);
            mkContainer None [1; 3] None;
            mkContainer (Some (mail "m2" ["p"] "x" 1)) [] (Some 2)] in
  exists b : bool,
    table_step h 2 [("x", 0)]
    = Ok (if b then table_set [("x", 0)] "x" 2 else [("x", 0)]) /\
    (b = true <-> prefers_candidate h 0 2).
Proof.
  intros h.
  apply (table_step_replaces h [("x", 0)] 2 0 "x").
  - reflexivity.
  - discriminate.
  - reflexivity.
  - intros m Hm. vm_compute in Hm. injection Hm as <-. discriminate.
Defined.

(** C4 as the specification words it does not hold.  The root set of the
    three messages below is a dummy (container 1, with the children [m1]
    and [m2]) followed by [m3]; all have the subject [x].  The dummy is
    the representative when [m3] is scanned: the representative lacks a
    message and the candidate has one, yet the table keeps the dummy.
    With [m3] first, the dummy (now container 2) replaces [m3], although
    neither condition of the specification holds. *)
Lemma table_step_spec_counterexample :
  (exists h,
     thread default_room
            [mail "m1" ["p"] "x" 0; mail "m2" ["p"] "x" 1; mail "m3" [] "x" 2]
            false = Ok ([1; 3], h) /\
     table_step h 1 [] = Ok [("x", 1)] /\
     prefers_candidate_spec h 1 3 /\
     table_step h 3 [("x", 1)] = Ok [("x", 1)]) /\
  (exists h,
     thread default_room
            [mail "m3" [] "x" 2; mail "m1" ["p"] "x" 0; mail "m2" ["p"] "x" 1]
            false = Ok ([0; 2], h) /\
     table_step h 0 [] = Ok [("x", 0)] /\
     ~ prefers_candidate_spec h 0 2 /\
     table_step h 2 [("x", 0)] = Ok [("x", 2)]).
Proof.
  split.
  - eexists. split; [vm_compute; reflexivity|]. split_and!.
    + reflexivity.
    + left. split; [reflexivity|discriminate].
    + reflexivity.
  - eexists. split; [vm_compute; reflexivity|]. split_and!.
    + reflexivity.
    + intros [[Hm _]|(me & mc & se & sc & _ & Hm & _)]; discriminate.
    + reflexivity.
Qed.

(** C5 on the code: a root whose normalized subject is empty is left out
    of the subject table, and [thread] returns the values of the table, so
    the root is not returned.  The single message below has a subject
    made of reply and tag prefixes only.  The depth that the interpreter
    allows plays no part. *)
Lemma empty_subject_root_dropped (room : nat) :
  exists h,
    thread room [mail "a" [] "Re:[list] Re:" 0] false = Ok ([0], h) /\
    grouping_subject h 0 = Ok "" /\
    thread room [mail "a" [] "Re:[list] Re:" 0] true = Ok ([], h) /\
    forest_messages h [] = [].
Proof.
  eexists. split_and!.
  - apply (thread_mono 0); [lia|vm_compute; reflexivity].
  - reflexivity.
  - apply (thread_mono 0); [lia|vm_compute; reflexivity].
  - reflexivity.
Qed.

(** C3 on the code: messages are lost.  Without grouping, two messages
    that name each other as reference end on a cycle that no root
    reaches, and nothing is returned.  With grouping, of two dummy roots
    of one subject the second takes every other child of the first and
    is not returned itself: of four messages one is left.  The depth
    that the interpreter allows plays no part. *)
Lemma thread_loses_messages (room : nat) :
  (exists h,
     thread room [mail "B" ["A"] "b" 0; mail "A" ["B"] "a" 1] false
     = Ok ([], h) /\
     kids h 0 = [1] /\ kids h 1 = [0] /\
     forest_messages h [] = []) /\
  (exists h,
     thread room [mail "m1" ["p1"] "x" 0; mail "m2" ["p1"] "x" 1;
                  mail "m3" ["p2"] "x" 2; mail "m4" ["p2"] "x" 3] true
     = Ok ([1], h) /\
     kids h 1 = [2] /\ par h 4 = None /\ kids h 4 = [3; 5; 0] /\
     forest_messages h [1] = [mail "m2" ["p1"] "x" 1]).
Proof.
  split.
  - eexists. split; [apply (thread_mono 0); [lia|vm_compute; reflexivity]|].
    split_and!; reflexivity.
  - eexists. split; [apply (thread_mono 0); [lia|vm_compute; reflexivity]|].
    split_and!; reflexivity.
Qed.

(** * [has_descendant] returns *)

Section Search.
Implicit Types (h : Heap) (stack seen : list cid) (c x : cid).

Lemma push_unseen_spec seen l : forall stack,
  push_unseen seen stack l
  = reverse (filter (fun c => c ∉ seen) l) ++ stack.
Proof.
  unfold push_unseen. induction l as [|c l IH]; intros stack; simpl; [done|].
  rewrite IH, filter_cons. destruct (decide (c ∈ seen)) as [Hc|Hc].
  - by rewrite decide_False by (intros Hn; by apply Hn).
  - rewrite decide_True by done. by rewrite reverse_cons, <- app_assoc.
Qed.

Lemma list_sum_change (f g : nat -> nat) (n d : nat) (l : list nat) :
  NoDup l -> n ∈ l -> g n + d = f n ->
  (forall x, x <> n -> g x = f x) ->
  list_sum (map g l) + d = list_sum (map f l).
Proof.
  intros Hnd Hn Hd Hother. induction l as [|y l IH]; simpl.
  { by apply elem_of_nil in Hn. }
  apply NoDup_cons in Hnd as [Hy Hnd].
  apply elem_of_cons in Hn as [->|Hn].
  - assert (map g l = map f l) as ->.
    { apply map_ext_in. intros x Hx%list_elem_of_In. apply Hother.
      intros ->. done. }
    lia.
  - rewrite (Hother y) by (intros ->; done). specialize (IH Hnd Hn). lia.
Qed.

Lemma list_sum_same (f g : nat -> nat) (l : list nat) :
  (forall x, x ∈ l -> g x = f x) -> list_sum (map g l) = list_sum (map f l).
Proof.
  intros Hfg. f_equal. apply map_ext_in. intros x Hx%list_elem_of_In.
  by apply Hfg.
Qed.

Lemma unseen_weight_seen h seen n :
  n ∈ seen -> unseen_weight h (n :: seen) = unseen_weight h seen.
Proof.
  intros Hn. unfold unseen_weight. apply list_sum_same. intros x _.
  repeat case_decide; set_solver.
Qed.

Lemma unseen_weight_outside h seen n :
  length h <= n -> unseen_weight h (n :: seen) = unseen_weight h seen.
Proof.
  intros Hn. unfold unseen_weight. apply list_sum_same.
  intros x Hx%elem_of_seq. repeat case_decide; try done.
  - assert (x ≠ n) by lia. set_solver.
  - set_solver.
Qed.

Lemma unseen_weight_new h seen n :
  n ∉ seen -> n < length h ->
  unseen_weight h (n :: seen) + S (length (kids h n)) = unseen_weight h seen.
Proof.
  intros Hn Hv. unfold unseen_weight.
  apply (list_sum_change _ _ n).
  - apply NoDup_seq.
  - apply elem_of_seq. lia.
  - rewrite decide_True by set_solver. by rewrite decide_False.
  - intros x Hx. repeat case_decide; set_solver.
Qed.

Lemma search_loop_total h ctr fuel : forall stack seen,
  search_inv h stack seen ->
  length stack + unseen_weight h seen < fuel ->
  exists b, has_descendant_loop fuel h ctr stack seen = Ok b.
Proof.
  induction fuel as [|fuel IH]; intros stack seen Hinv Hfuel; [lia|].
  simpl. destruct stack as [|node stack]; [by exists false|].
  case_decide; [by exists true|].
  rewrite push_unseen_spec.
  set (pushed := reverse (filter (fun c => c ∉ node :: seen) (kids h node))).
  assert (forall k, k ∈ pushed -> k ∉ node :: seen /\ k ∈ kids h node)
    as Hpushed.
  { intros k. unfold pushed. by rewrite elem_of_reverse, list_elem_of_filter. }
  assert (forall k, k ∈ kids h node -> k ∈ node :: seen \/ k ∈ pushed) as Hkids.
  { intros k Hk. destruct (decide (k ∈ node :: seen)); [by left|right].
    unfold pushed. rewrite elem_of_reverse, list_elem_of_filter. done. }
  assert (length pushed <= length (kids h node)) as Hlen.
  { unfold pushed. rewrite length_reverse. apply length_filter. }
  clearbody pushed. apply IH.
  - intros i n Hi Hn k Hk.
    destruct (decide (i < length pushed)) as [Hlt|Hge].
    + rewrite lookup_app_l in Hi by done.
      apply list_elem_of_lookup_2 in Hi. by apply Hpushed in Hi as [? _].
    + rewrite lookup_app_r in Hi by lia.
      rewrite take_app_ge by lia.
      apply elem_of_cons in Hn as [->|Hn].
      * destruct (Hkids k Hk) as [?|?]; [by left|right].
        apply elem_of_app. by left.
      * destruct (Hinv (S (i - length pushed)) n Hi Hn k Hk) as [?|Hin].
        { left. by right. }
        simpl in Hin. apply elem_of_cons in Hin as [->|Hin].
        { left. by left. }
        right. apply elem_of_app. by right.
  - rewrite length_app. simpl in Hfuel.
    destruct (decide (node ∈ seen)) as [Hseen|Hnew].
    + assert (pushed = []) as ->.
      { apply elem_of_nil_inv. intros k Hk.
        destruct (Hpushed k Hk) as [Hnot Hkid].
        destruct (Hinv 0 node eq_refl Hseen k Hkid) as [?|Hin].
        - apply Hnot. by right.
        - simpl in Hin. by apply elem_of_nil in Hin. }
      rewrite unseen_weight_seen by done. simpl. lia.
    + destruct (decide (node < length h)) as [Hv|Hv].
      * pose proof (unseen_weight_new h seen node Hnew Hv). lia.
      * rewrite unseen_weight_outside by lia.
        rewrite kids_out_of_range in Hlen by lia. simpl in Hlen. lia.
Qed.

Lemma map_cells {A} (f : Container -> A) h :
  map (fun i => f (h !!! i)) (seq 0 (length h)) = map f h.
Proof.
  apply list_eq. intros i. rewrite !list_lookup_fmap.
  destruct (decide (i < length h)) as [Hi|Hi].
  - rewrite lookup_seq_lt by done. simpl.
    by rewrite (list_lookup_lookup_total_lt h i).
  - rewrite lookup_seq_ge by lia. by rewrite lookup_ge_None_2 by lia.
Qed.

Lemma list_sum_succ (g : nat -> nat) (l : list nat) :
  list_sum (map (fun i => S (g i)) l) = length l + list_sum (map g l).
Proof. induction l as [|i l IH]; simpl; [done|]. rewrite IH. lia. Qed.

Lemma unseen_weight_nil h : unseen_weight h [] = length h + edge_count h.
Proof.
  unfold unseen_weight, edge_count.
  rewrite <- (map_cells (fun cell => length (children cell)) h).
  transitivity (list_sum (map (fun i => S (length (kids h i)))
                              (seq 0 (length h)))).
  - apply list_sum_same. intros x _.
    by rewrite decide_False by apply not_elem_of_nil.
  - rewrite list_sum_succ. by rewrite length_seq.
Qed.

(** The search of [has_descendant] ends within its budget, on any heap. *)
Lemma has_descendant_total h self ctr :
  exists b, has_descendant h self ctr = Ok b.
Proof.
  unfold has_descendant. apply search_loop_total.
  - intros i n _ Hn. by apply elem_of_nil in Hn.
  - rewrite unseen_weight_nil. unfold search_budget. simpl. lia.
Qed.
End Search.

(** * The linker never raises *)

Section Tables.
Context {K : Type} `{EqDecision K}.
Implicit Types (t : Table K) (k : K) (v : cid).

Lemma table_get_set t k v k' :
  table_get (table_set t k v) k'
  = if decide (k' = k) then Some v else table_get t k'.
Proof.
  induction t as [|[k0 v0] t IH]; simpl.
  - by repeat case_decide.
  - repeat (case_decide; simpl; simplify_eq); try done.
Qed.

Lemma table_values_set_new t k v :
  table_get t k = None -> table_values (table_set t k v) = table_values t ++ [v].
Proof.
  unfold table_values. induction t as [|[k0 v0] t IH]; simpl; [done|].
  case_decide; [done|]. intros Hget. simpl. by rewrite IH.
Qed.

Lemma table_get_values t k v : table_get t k = Some v -> v ∈ table_values t.
Proof.
  unfold table_values. induction t as [|[k0 v0] t IH]; simpl; [done|].
  case_decide.
  - intros [= ->]. by left.
  - intros Hget. right. by apply IH.
Qed.

Lemma table_get_None t k : table_get t k = None <-> k ∉ map fst t.
Proof.
  induction t as [|[k0 v0] t IH]; simpl.
  - split; [intros _; apply not_elem_of_nil|done].
  - rewrite not_elem_of_cons. case_decide; [naive_solver|].
    rewrite IH. naive_solver.
Qed.

Lemma table_set_keys t k v :
  map fst (table_set t k v)
  = if decide (k ∈ map fst t) then map fst t else map fst t ++ [k].
Proof.
  induction t as [|[k0 v0] t IH]; simpl.
  - done.
  - destruct (decide (k = k0)) as [->|Hk]; simpl.
    + rewrite decide_True; [done|]. apply elem_of_cons. by left.
    + rewrite IH. destruct (decide (k ∈ map fst t)) as [Hin|Hin].
      * rewrite decide_True; [done|]. apply elem_of_cons. by right.
      * rewrite decide_False; [done|]. rewrite not_elem_of_cons. done.
Qed.

Lemma table_set_keys_NoDup t k v :
  NoDup (map fst t) -> NoDup (map fst (table_set t k v)).
Proof.
  intros Hnd. rewrite table_set_keys. case_decide; [done|].
  apply NoDup_app. split_and!; [done| |apply NoDup_singleton].
  intros x Hx ->%list_elem_of_singleton. done.
Qed.

Lemma table_values_get t v :
  NoDup (map fst t) -> v ∈ table_values t ->
  exists k, table_get t k = Some v.
Proof.
  unfold table_values. induction t as [|[k0 v0] t IH]; simpl.
  { by intros _ ?%elem_of_nil. }
  intros [Hk0 Hnd]%NoDup_cons [->|Hv]%elem_of_cons.
  - exists k0. by rewrite decide_True.
  - destruct (IH Hnd Hv) as (k & Hk). exists k.
    rewrite decide_False; [done|]. intros ->.
    apply table_get_None in Hk0. congruence.
Qed.

Lemma table_values_set t k v x :
  x ∈ table_values (table_set t k v) -> x = v \/ x ∈ table_values t.
Proof.
  unfold table_values. induction t as [|[k0 v0] t IH]; simpl.
  - intros ->%list_elem_of_singleton. by left.
  - case_decide; simpl; rewrite !elem_of_cons; naive_solver.
Qed.
End Tables.

Lemma for_each_cons {A S} (body : A -> S -> Result S) (x : A) (l : list A)
    (s : S) :
  for_each body (x :: l) s = bind (body x s) (for_each body l).
Proof. done. Qed.

Section Linker.
Context (P : Message -> Prop).
Implicit Types (h : Heap) (t : IdTable) (c x : cid).

Lemma link_inv_valid t h k c :
  link_inv P t h -> table_get t k = Some c -> c < length h.
Proof.
  intros (_ & Hv & _) Hget. apply table_get_values in Hget.
  rewrite Hv in Hget. apply elem_of_seq in Hget. lia.
Qed.

Lemma link_inv_new t h k :
  link_inv P t h -> table_get t k = None ->
  link_inv P (table_set t k (length h)) (h ++ [empty_container]).
Proof.
  intros (Hl & Hv & Hm) Hget. split_and!.
  - by apply linked_new.
  - rewrite table_values_set_new, Hv by done.
    rewrite length_app. simpl. by rewrite seq_app.
  - intros c m. rewrite msg_new. apply Hm.
Qed.

Lemma try_link_ok this_container prev container h :
  linked h -> prev < length h -> container < length h ->
  exists h', try_link this_container prev container h = Ok h' /\
             linked h' /\ length h' = length h /\
             forall x, msg_of h' x = msg_of h x.
Proof.
  intros Hl Hp Hc. unfold try_link.
  case_bool_decide; [by exists h|]. case_bool_decide; [by exists h|].
  destruct (has_descendant_total h container prev) as ([|] & ->); simpl;
    [by exists h|].
  destruct (has_descendant_total h prev container) as ([|] & ->); simpl;
    [by exists h|].
  destruct (add_child_spec h prev container Hl Hp Hc)
    as (h' & -> & ? & ? & ? & _). by exists h'.
Qed.

Lemma step_one_b_ok this_container ref prev t h :
  link_inv P t h -> (forall p, prev = Some p -> p < length h) ->
  exists p' t' h',
    step_one_b this_container ref (prev, t, h) = Ok (Some p', t', h') /\
    link_inv P t' h' /\ p' < length h' /\ length h <= length h'.
Proof.
  intros Hinv Hprev. unfold step_one_b.
  assert (exists container t1 h1,
            match table_get t (Some ref) with
            | Some container => (container, t, h)
            | None => let '(container, h') := new_container h in
                      (container, table_set t (Some ref) container, h')
            end = (container, t1, h1) /\
            link_inv P t1 h1 /\ container < length h1 /\
            length h <= length h1) as (container & t1 & h1 & -> & Hinv1 & Hc & Hlen).
  { destruct (table_get t (Some ref)) as [c|] eqn:Hget.
    - exists c, t, h. split_and!; try done. by eapply link_inv_valid.
    - eexists _, _, _. split; [done|]. split_and!.
      + by apply link_inv_new.
      + rewrite length_app. simpl. lia.
      + rewrite length_app. lia. }
  destruct prev as [p|].
  - destruct (try_link_ok this_container p container h1)
      as (h2 & -> & Hl2 & Hlen2 & Hm2); [by apply Hinv1| |done|].
    { specialize (Hprev p eq_refl). lia. }
    simpl. eexists _, _, _. split; [done|].
    destruct Hinv1 as (_ & Hv1 & Hm1). split_and!; try lia.
    split_and!; [done|by rewrite Hlen2|].
    intros c m. rewrite Hm2. apply Hm1.
  - simpl. eexists _, _, _. split; [done|]. split_and!; done.
Qed.

Lemma step_one_b_loop this_container refs : forall prev t h,
  link_inv P t h -> (forall p, prev = Some p -> p < length h) ->
  exists prev' t' h',
    for_each (step_one_b this_container) refs (prev, t, h)
    = Ok (prev', t', h') /\
    link_inv P t' h' /\ (forall p, prev' = Some p -> p < length h') /\
    length h <= length h'.
Proof.
  induction refs as [|ref refs IH]; intros prev t h Hinv Hprev.
  { by exists prev, t, h. }
  rewrite for_each_cons.
  destruct (step_one_b_ok this_container ref prev t h Hinv Hprev)
    as (p1 & t1 & h1 & -> & Hinv1 & Hp1 & Hlen1).
  simpl. destruct (IH (Some p1) t1 h1 Hinv1) as (p2 & t2 & h2 & -> & ? & ? & ?).
  { by intros p [= <-]. }
  exists p2, t2, h2. split_and!; try done. lia.
Qed.

Lemma step_one_c_ok this_container prev h :
  linked h -> this_container < length h ->
  (forall p, prev = Some p -> p < length h) ->
  exists h', step_one_c this_container prev h = Ok h' /\
             linked h' /\ length h' = length h /\
             forall x, msg_of h' x = msg_of h x.
Proof.
  intros Hl Hc Hprev. unfold step_one_c. destruct prev as [p|].
  - destruct (add_child_spec h p this_container Hl (Hprev p eq_refl) Hc)
      as (h' & -> & ? & ? & ? & _). by exists h'.
  - destruct (par h this_container) as [q|] eqn:Hq; [|by exists h].
    destruct (remove_child_spec h q this_container Hl)
      as (h' & -> & ? & ? & ? & _); [by apply (linked_up _ Hl)|].
    by exists h'.
Qed.

Lemma step_one_a_ok msg t h :
  link_inv P t h -> P msg ->
  exists c t' h', step_one_a msg t h = (c, t', h') /\
                  link_inv P t' h' /\ c < length h'.
Proof.
  intros Hinv Hmsg. unfold step_one_a.
  destruct (table_get t (message_id msg)) as [c|] eqn:Hget.
  - pose proof (link_inv_valid _ _ _ _ Hinv Hget) as Hc.
    eexists _, _, _. split; [done|]. split; [|by rewrite length_set_message].
    destruct Hinv as (Hl & Hv & Hm). split_and!.
    + by apply linked_set_message.
    + by rewrite length_set_message.
    + intros x m. rewrite msg_set_message by done.
      case_decide; [by intros [= <-]|apply Hm].
  - simpl. eexists _, _, _. split; [done|].
    pose proof (link_inv_new _ _ _ Hinv Hget) as (Hl & Hv & Hm).
    assert (length h < length (h ++ [empty_container])) as Hlt.
    { rewrite length_app. simpl. lia. }
    split; [|by rewrite length_set_message]. split_and!.
    + by apply linked_set_message.
    + by rewrite length_set_message.
    + intros x m. rewrite msg_set_message by done.
      case_decide; [by intros [= <-]|apply Hm].
Qed.

Lemma link_message_ok msg t h :
  link_inv P t h -> P msg ->
  exists t' h', link_message msg (t, h) = Ok (t', h') /\ link_inv P t' h'.
Proof.
  intros Hinv Hmsg. unfold link_message.
  destruct (step_one_a_ok msg t h Hinv Hmsg) as (c & t1 & h1 & -> & Hinv1 & Hc).
  destruct (step_one_b_loop c (references msg) None t1 h1 Hinv1)
    as (prev & t2 & h2 & -> & Hinv2 & Hprev & Hlen); [done|].
  simpl. destruct Hinv2 as (Hl2 & Hv2 & Hm2).
  destruct (step_one_c_ok c prev h2 Hl2) as (h3 & -> & Hl3 & Hlen3 & Hm3);
    [lia|done|].
  simpl. eexists _, _. split; [done|]. split_and!; [done|by rewrite Hlen3|].
  intros x m. rewrite Hm3. apply Hm2.
Qed.

Lemma link_messages_loop messages : forall t h,
  Forall P messages -> link_inv P t h ->
  exists t' h',
    for_each link_message messages (t, h) = Ok (t', h') /\ link_inv P t' h'.
Proof.
  induction messages as [|msg messages IH]; intros t h HP Hinv.
  { by exists t, h. }
  rewrite for_each_cons.
  apply Forall_cons in HP as [Hmsg HP].
  destruct (link_message_ok msg t h Hinv Hmsg) as (t1 & h1 & -> & Hinv1).
  simpl. by apply IH.
Qed.

(** Step one returns, whatever the references say. *)
Lemma link_messages_ok messages :
  Forall P messages ->
  exists t h, link_messages messages = Ok (t, h) /\ link_inv P t h.
Proof.
  intros HP. apply link_messages_loop; [done|].
  split_and!; [apply linked_nil|done|].
  intros c m. by rewrite msg_out_of_range by (simpl; lia).
Qed.
End Linker.

(** * The root set and its pruning *)

Section RootSet.
Implicit Types (h : Heap) (c r x : cid) (roots : list cid).

Lemma find_root_set_ok P t h :
  link_inv P t h ->
  NoDup (find_root_set t h) /\
  forall r, r ∈ find_root_set t h -> par h r = None /\ r < length h.
Proof.
  intros (_ & Hv & _). unfold find_root_set. rewrite Hv. split.
  - apply NoDup_filter, NoDup_seq.
  - intros r [Hr Hin]%list_elem_of_filter. apply elem_of_seq in Hin.
    split; [done|lia].
Qed.

Lemma assert_roots_ok h roots :
  (forall r, r ∈ roots -> par h r = None) -> assert_roots roots h = Ok h.
Proof.
  unfold assert_roots. induction roots as [|r roots IH]; intros Hr; [done|].
  rewrite for_each_cons. unfold assert_root at 1.
  rewrite bool_decide_eq_true_2 by (apply Hr; by left).
  simpl. apply IH. intros r' Hr'. apply Hr. by right.
Qed.

Lemma pruned_readable h t :
  shape h t -> pruned h false t -> readable h (root t).
Proof.
  intros Hs [Hclean Hroot] Hnone.
  destruct Hroot as [?|[_ Hlen]]; [done|].
  destruct t as [c [|t1 ts]]; simpl in *; [lia|].
  apply shape_inv in Hs as [Hk _]. exists (root t1), (map root ts).
  split; [done|]. apply Hclean. simpl.
  apply elem_of_app. left. apply root_in_nodes.
Qed.

Lemma readable_ext h h' r :
  (forall x, msg_of h' x = msg_of h x) -> kids h' r = kids h r ->
  readable h r -> readable h' r.
Proof.
  intros Hm Hk Hr. unfold readable. rewrite Hm, Hk.
  intros Hnone. destruct (Hr Hnone) as (k & ks & ? & ?).
  exists k, ks. by rewrite Hm.
Qed.

Lemma prune_root_set_loop fuel rest : forall acc hi,
  length hi <= fuel ->
  linked hi -> NoDup rest ->
  (forall r, r ∈ rest -> par hi r = None /\ r < length hi) ->
  roots_ok hi acc -> (forall r, r ∈ acc -> r ∉ rest) ->
  exists roots' h',
    for_each (prune_root_step fuel) rest (acc, hi) = Ok (roots', h') /\
    linked h' /\ length h' = length hi /\
    (forall x, msg_of h' x = msg_of hi x) /\
    roots_ok h' roots'.
Proof.
  induction rest as [|c rest IH];
    intros acc hi Hfuel Hl Hnd Hrest Hacc Hdisj.
  { by exists acc, hi. }
  rewrite for_each_cons. apply NoDup_cons in Hnd as [Hc Hnd].
  destruct (Hrest c) as [Hpc Hcv]; [by left|].
  destruct (prune_root hi c fuel Hl Hpc Hcv Hfuel)
    as (out & h1 & Hrun & Hl1 & Hlen1 & Hm1 & Hfr1 & Hsh1 & Hpr1 & Hnd1 & Hroots1).
  unfold prune_root_step at 1. rewrite Hrun. simpl.
  destruct Hacc as [Hndacc Hacc].
  destruct (IH (acc ++ map root out) h1) as (roots' & h' & -> & ? & ? & Hm' & ?).
  - lia.
  - done.
  - done.
  - intros r Hr. destruct (Hrest r) as [Hpr Hrv]; [by right|].
    destruct (Hfr1 r Hpr) as [_ ?]; [by intros ->|]. split; [done|lia].
  - split.
    + apply NoDup_app. split_and!.
      * done.
      * intros r Hr Hin. apply list_elem_of_fmap in Hin as (t & -> & Ht).
        destruct (Hacc _ Hr) as (Hpar & _ & _).
        destruct (Hroots1 t Ht) as (_ & _ & Hne).
        destruct (decide (root t = c)) as [Heq|Hneq].
        -- apply (Hdisj _ Hr). rewrite Heq. by left.
        -- by apply Hne.
      * eapply sublist_NoDup; [exact Hnd1|]. apply roots_sublist.
    + intros r [Hr|Hr]%elem_of_app.
      * destruct (Hacc r Hr) as (Hpar & Hv & Hread).
        destruct (Hfr1 r Hpar) as [Hk Hp].
        { intros ->. apply (Hdisj c Hr). by left. }
        split_and!; [done|lia|]. by apply (readable_ext hi).
      * apply list_elem_of_fmap in Hr as (t & -> & Ht).
        destruct (Hroots1 t Ht) as (Hpar & Hv & _).
        split_and!; [done|lia|].
        rewrite Forall_forall in Hsh1, Hpr1. by apply pruned_readable; auto.
  - intros r [Hr|Hr]%elem_of_app Hin.
    + apply (Hdisj r Hr). by right.
    + apply list_elem_of_fmap in Hr as (t & -> & Ht).
      destruct (Hroots1 t Ht) as (_ & _ & Hne).
      destruct (Hrest (root t)) as [Hpar _]; [by right|].
      apply Hne; [|done]. intros Heq. apply Hc. by rewrite <- Heq.
  - exists roots', h'. split_and!; try done; congruence.
Qed.

Lemma prune_root_set_ok fuel h roots :
  length h <= fuel ->
  linked h -> NoDup roots ->
  (forall r, r ∈ roots -> par h r = None /\ r < length h) ->
  exists roots' h',
    prune_root_set fuel roots h = Ok (roots', h') /\
    linked h' /\ length h' = length h /\
    (forall x, msg_of h' x = msg_of h x) /\
    roots_ok h' roots'.
Proof.
  intros Hfuel Hl Hnd Hroots. apply prune_root_set_loop; try done.
  - split; [constructor|]. by intros r ?%elem_of_nil.
  - by intros r ?%elem_of_nil.
Qed.
End RootSet.

(** * The subject grouper never raises *)

Section SubjectTable.
Implicit Types (h : Heap) (t : SubjectTable) (c e r x D X : cid).

Lemma snoc_split {A} (pre l1 l2 : list A) (X D : A) :
  pre ++ [X] = l1 ++ D :: l2 ->
  (l2 = [] /\ D = X /\ pre = l1) \/
  (exists l2', l2 = l2' ++ [X] /\ pre = l1 ++ D :: l2').
Proof.
  destruct l2 as [|y l2 _] using rev_ind; intros Heq.
  - apply app_inj_tail in Heq as [-> ->]. by left.
  - right. exists l2. rewrite app_comm_cons, app_assoc in Heq.
    apply app_inj_tail in Heq as [-> ->]. done.
Qed.

Lemma grouping_subject_ok h X :
  subjects_ok h -> readable h X -> exists s, grouping_subject h X = Ok s.
Proof.
  intros Hsub Hread. unfold grouping_subject, subject_source.
  destruct (msg_of h X) as [m|] eqn:Hm.
  - simpl. unfold subject_string. specialize (Hsub X m Hm).
    destruct (subject m) as [s|]; [|done]. simpl. by eexists.
  - destruct (Hread Hm) as (k & ks & -> & Hk).
    destruct (msg_of h k) as [m|] eqn:Hmk; [|done].
    simpl. unfold subject_string. specialize (Hsub k m Hmk).
    destruct (subject m) as [s|]; [|done]. simpl. by eexists.
Qed.

Lemma grouping_subject_msg h X m k :
  msg_of h X = Some m -> grouping_subject h X = Ok k ->
  exists s, subject m = Some s /\ k = subject_re_sub s.
Proof.
  intros Hm. unfold grouping_subject, subject_source, subject_string.
  rewrite Hm. simpl. destruct (subject m) as [s|]; simpl; [|done].
  intros [= <-]. by exists s.
Qed.

(** The subject read for a root does not change when messages stay and
    the root only gains children at the end of its list. *)
Lemma grouping_subject_ext h h' D :
  (forall x, msg_of h' x = msg_of h x) ->
  (msg_of h D = None -> exists l, kids h' D = kids h D ++ l) ->
  readable h D ->
  grouping_subject h' D = grouping_subject h D /\ readable h' D.
Proof.
  intros Hm Hk Hread. unfold grouping_subject, subject_source, readable.
  rewrite !Hm. destruct (msg_of h D) as [m|] eqn:HmD; [done|].
  destruct (Hk eq_refl) as (l & ->).
  destruct (Hread HmD) as (k & ks & -> & Hmk). simpl. rewrite Hm.
  split; [done|]. intros _. exists k, (ks ++ l). by rewrite Hm.
Qed.

Lemma subject_len_ext h h' c :
  (forall x, msg_of h' x = msg_of h x) -> subject_len h' c = subject_len h c.
Proof. intros Hm. unfold subject_len. by rewrite Hm. Qed.

Lemma replaces_ok h existing X :
  subjects_ok h ->
  exists b : bool,
    replaces h existing X = Ok b /\
    (b = true -> msg_of h existing <> None /\
       (msg_of h X = None \/ subject_len h X < subject_len h existing)) /\
    (b = false -> msg_of h existing = None \/
       (msg_of h X <> None /\ subject_len h existing <= subject_len h X)).
Proof.
  intros Hsub. unfold replaces, subject_len, subject_string.
  destruct (msg_of h existing) as [me|] eqn:Hme; [|exists false; naive_solver].
  destruct (msg_of h X) as [mc|] eqn:Hmc; [|exists true; naive_solver].
  specialize (Hsub _ _ Hme) as Hse. specialize (Hsub _ _ Hmc) as Hsc.
  destruct (subject me) as [se|]; [|done].
  destruct (subject mc) as [sc|]; [|done]. simpl.
  eexists. split; [done|]. case_bool_decide; split; intros; try done.
  - split; [done|]. by right.
  - right. split; [done|]. lia.
Qed.

Lemma build_inv_keep h pre t X subj :
  build_inv h pre t -> X ∉ pre -> grouping_subject h X = Ok subj ->
  (subj = "" \/
   exists e, table_get t subj = Some e /\
             (msg_of h e = None \/
              (msg_of h X <> None /\ subject_len h e <= subject_len h X))) ->
  build_inv h (pre ++ [X]) t.
Proof.
  intros (Hkeys & Hin & Hdummy & Hmsg) HX Hsubj Hcond.
  split_and!; [done| |split].
  - intros k e He. destruct (Hin k e He) as (? & ? & ?).
    split_and!; try done. apply elem_of_app. by left.
  - intros l1 D l2 k Hsplit HD Hk Hkne.
    apply snoc_split in Hsplit as [(-> & -> & _)|(l2' & -> & ->)].
    + assert (k = subj) as -> by congruence.
      destruct Hcond as [?|(e & He & [Hme|[? _]])]; try done.
      exists e. split_and!; [done|done|apply not_elem_of_nil].
    + destruct (Hdummy _ _ _ _ eq_refl HD Hk Hkne) as (e & He & Hme & Hnot).
      exists e. split_and!; [done|done|].
      rewrite not_elem_of_app. split; [done|].
      intros ->%list_elem_of_singleton. by apply Hin in He as (? & _).
  - intros Y k [HY| ->%list_elem_of_singleton]%elem_of_app HmY Hk Hkne.
    + by apply Hmsg.
    + assert (k = subj) as -> by congruence.
      destruct Hcond as [?|(e & He & Hcond)]; [done|].
      exists e. split; [done|]. tauto.
Qed.

Lemma build_inv_set h pre t X subj :
  build_inv h pre t -> X ∉ pre -> grouping_subject h X = Ok subj ->
  subj <> "" ->
  (forall e, table_get t subj = Some e ->
             msg_of h e <> None /\
             (msg_of h X = None \/ subject_len h X < subject_len h e)) ->
  build_inv h (pre ++ [X]) (table_set t subj X).
Proof.
  intros (Hkeys & Hin & Hdummy & Hmsg) HX Hsubj Hne Hcond.
  split_and!; [by apply table_set_keys_NoDup| |split].
  - intros k e. rewrite table_get_set. case_decide as Hk.
    + intros [= <-]. subst k. split_and!; [|done|done].
      apply elem_of_app. right. by apply list_elem_of_singleton.
    + intros He. destruct (Hin k e He) as (? & ? & ?).
      split_and!; try done. apply elem_of_app. by left.
  - intros l1 D l2 k Hsplit HD Hk Hkne. rewrite table_get_set.
    apply snoc_split in Hsplit as [(-> & -> & _)|(l2' & -> & ->)].
    + assert (k = subj) as -> by congruence. rewrite decide_True by done.
      exists X. split_and!; [done|done|apply not_elem_of_nil].
    + destruct (Hdummy _ _ _ _ eq_refl HD Hk Hkne) as (e & He & Hme & Hnot).
      case_decide as Hks.
      { subst k. by destruct (Hcond e He) as [? _]. }
      exists e. split_and!; [done|done|].
      rewrite not_elem_of_app. split; [done|].
      intros ->%list_elem_of_singleton. by apply Hin in He as (? & _).
  - intros Y k [HY| ->%list_elem_of_singleton]%elem_of_app HmY Hk Hkne;
      rewrite table_get_set.
    + destruct (Hmsg _ _ HY HmY Hk Hkne) as (e & He & Hlen).
      case_decide as Hks; [|by exists e].
      subst k. exists X. split; [done|].
      destruct (Hcond e He) as [Hme [?|Hlt]]; [by left|].
      right. destruct Hlen as [?|Hlen]; [done|lia].
    + assert (k = subj) as -> by congruence. rewrite decide_True by done.
      exists X. split; [done|]. by right.
Qed.

Lemma build_step h pre t X :
  subjects_ok h -> readable h X -> X ∉ pre -> build_inv h pre t ->
  exists t', table_step h X t = Ok t' /\ build_inv h (pre ++ [X]) t'.
Proof.
  intros Hsub Hread HX Hinv.
  destruct (grouping_subject_ok h X Hsub Hread) as (subj & Hsubj).
  unfold table_step. rewrite Hsubj. simpl.
  case_bool_decide as Hempty.
  { exists t. split; [done|]. eapply build_inv_keep; try done. by left. }
  destruct (table_get t subj) as [existing|] eqn:Hget.
  - destruct (replaces_ok h existing X Hsub) as (b & -> & Htrue & Hfalse).
    simpl. destruct b.
    + eexists. split; [done|]. apply build_inv_set; try done.
      intros e He. rewrite Hget in He. injection He as <-. by apply Htrue.
    + exists t. split; [done|]. eapply build_inv_keep; try done.
      right. exists existing. split; [done|]. by apply Hfalse.
  - eexists. split; [done|]. apply build_inv_set; try done.
    intros e He. congruence.
Qed.

Lemma build_loop h rest : forall pre t,
  subjects_ok h -> NoDup (pre ++ rest) ->
  (forall X, X ∈ rest -> readable h X) -> build_inv h pre t ->
  exists t', for_each (table_step h) rest t = Ok t' /\
             build_inv h (pre ++ rest) t'.
Proof.
  induction rest as [|X rest IH]; intros pre t Hsub Hnd Hread Hinv.
  { exists t. by rewrite app_nil_r. }
  rewrite for_each_cons.
  destruct (build_step h pre t X) as (t1 & -> & Hinv1); try done.
  { apply Hread. by left. }
  { apply NoDup_app in Hnd as (_ & Hd & _). intros Hin.
    apply (Hd X Hin). by left. }
  simpl. replace (pre ++ X :: rest) with ((pre ++ [X]) ++ rest)
    by (by rewrite <- app_assoc).
  apply IH; try done.
  - by rewrite <- app_assoc.
  - intros Y HY. apply Hread. by right.
Qed.

(** The first loop of step five returns a table that represents the
    roots. *)
Lemma build_subject_table_ok h roots :
  subjects_ok h -> roots_ok h roots ->
  exists t, build_subject_table h roots = Ok t /\ build_inv h roots t.
Proof.
  intros Hsub [Hnd Hroots]. unfold build_subject_table.
  apply (build_loop h roots []); try done.
  - intros X HX. by apply Hroots.
  - split_and!; [constructor|done|split].
    + intros l1 D l2 k Hsplit. by destruct l1.
    + intros X k HX. by apply elem_of_nil in HX.
Qed.
End SubjectTable.

Section Merge.
Implicit Types (h : Heap) (t : SubjectTable) (c e r x D X : cid).

(** The walk over the children of [ctr] while they move to [X] ends
    within its budget. *)
Lemma splice_children_ok ctr X fuel : forall i h,
  linked h -> ctr <> X -> X < length h ->
  length (kids h ctr) - i < fuel ->
  exists h',
    splice_children fuel i ctr X h = Ok h' /\ linked h' /\
    length h' = length h /\
    (forall x, msg_of h' x = msg_of h x) /\
    (forall x, x <> ctr -> x <> X -> kids h' x = kids h x) /\
    (exists l, kids h' X = kids h X ++ l) /\
    (forall x, par h' x = par h x \/
               (par h x = Some ctr /\ par h' x = Some X)).
Proof.
  induction fuel as [|fuel IH]; intros i h Hl Hne HX Hfuel; [lia|].
  simpl. destruct (kids h ctr !! i) as [child|] eqn:Hi.
  2:{ exists h. split_and!; try done; [by exists []; rewrite app_nil_r|by left]. }
  pose proof (list_elem_of_lookup_2 _ _ _ Hi) as Hin.
  pose proof (linked_down _ Hl _ _ Hin) as Hpar.
  pose proof (linked_child_valid _ _ _ Hl Hin) as Hcv.
  pose proof (lookup_lt_Some _ _ _ Hi) as Hlt.
  destruct (add_child_spec h X child Hl HX Hcv)
    as (h1 & -> & Hl1 & Hlen1 & Hm1 & Hk1 & Hp1).
  simpl.
  assert (forall x, x <> ctr -> remove_first child (kids h x) = kids h x) as Hrf.
  { intros x Hx. apply remove_first_notin.
    by apply (linked_not_child h x child ctr). }
  destruct (IH (S i) h1) as (h' & -> & Hl' & Hlen' & Hm' & Hk' & (l & HkX) & Hp');
    [done|done|lia| |].
  { rewrite Hk1, decide_False, app_nil_r by done.
    pose proof (length_remove_first child (kids h ctr) Hin). lia. }
  exists h'. split_and!.
  - done.
  - done.
  - congruence.
  - intros x. by rewrite Hm', Hm1.
  - intros x Hxc HxX. rewrite Hk' by done. rewrite Hk1, Hrf by done.
    by rewrite decide_False, app_nil_r.
  - exists (child :: l). rewrite HkX, Hk1, Hrf by done.
    rewrite decide_True by done. by rewrite <- app_assoc.
  - intros x. specialize (Hp' x). rewrite Hp1 in Hp'.
    case_decide as Hx.
    + subst x. right. split; [done|]. destruct Hp' as [?|[? ?]]; [done|].
      congruence.
    + done.
Qed.

(** The invariant of the merge loop lives on when the heap changes
    without touching what the roots to come rely on. *)
Lemma merge_inv_heap l0 rest t h h' :
  merge_inv (l0 ++ rest) t h -> linked h' -> length h <= length h' ->
  (forall x, msg_of h' x = msg_of h x) ->
  (forall D, D ∈ rest -> msg_of h D = None ->
             exists l, kids h' D = kids h D ++ l) ->
  (forall k e, table_get t k = Some e -> par h' e = None) ->
  (forall c q, c ∈ rest -> par h' c = Some q ->
               par h c = Some q \/ q ∉ rest) ->
  merge_inv rest t h'.
Proof.
  intros (Hl & Hsub & Hkeys & Hempty & Hread & [Hdummy Hmsg] & Hroot & Hkey & Hq)
         Hl' Hlen Hm Hk Hpar Hq'.
  assert (forall D, D ∈ rest ->
            grouping_subject h' D = grouping_subject h D /\ readable h' D)
    as Hsame.
  { intros D HD. apply grouping_subject_ext; [done|by apply Hk|].
    apply Hread. apply elem_of_app. by right. }
  split_and!; try done.
  - intros c m. rewrite Hm. apply Hsub.
  - intros D HD. split; [by apply Hsame|].
    destruct (Hread D) as [_ ?]; [apply elem_of_app; by right|]. lia.
  - split.
    + intros l1 D l2 k -> HD Hgs Hkne.
      destruct (Hsame D) as [Hgs' _]; [set_solver|].
      rewrite Hm in HD. rewrite Hgs' in Hgs.
      destruct (Hdummy (l0 ++ l1) D l2 k) as (e & ? & ? & ?);
        [by rewrite <- app_assoc|done..|].
      exists e. by rewrite Hm.
    + intros Y k HY HmY Hgs Hkne.
      destruct (Hsame Y HY) as [Hgs' _].
      rewrite Hm in HmY. rewrite Hgs' in Hgs.
      destruct (Hmsg Y k) as (e & ? & ?); [apply elem_of_app; by right|done..|].
      exists e. by rewrite Hm, !(subject_len_ext h h').
  - intros k e He. split; [by eapply Hpar|].
    destruct (Hroot k e He). lia.
  - intros k e He. rewrite Hm. intros Hme.
    rewrite <- (Hkey k e He Hme).
    unfold grouping_subject, subject_source. rewrite Hm.
    by destruct (msg_of h e).
  - intros c q Hc Hp. destruct (Hq' c q Hc Hp) as [Hp0|?]; [|done].
    intros Hin. apply (Hq c q); [|done|]; apply elem_of_app; by right.
Qed.

Lemma merge_inv_same X rest t h : merge_inv (X :: rest) t h -> merge_inv rest t h.
Proof.
  intros Hinv. apply (merge_inv_heap [X] rest t h h); try done.
  - apply Hinv.
  - intros D _ _. exists []. by rewrite app_nil_r.
  - intros k e He.
    destruct Hinv as (_ & _ & _ & _ & _ & _ & Hroot & _). by apply (Hroot k e).
  - intros c q _ ?. by left.
Qed.

Lemma merge_inv_alloc rest t h :
  merge_inv rest t h -> merge_inv rest t (h ++ [empty_container]).
Proof.
  intros Hinv. apply (merge_inv_heap [] rest t h); try done.
  - apply linked_new, Hinv.
  - rewrite length_app. lia.
  - apply msg_new.
  - intros D _ _. exists []. by rewrite kids_new, app_nil_r.
  - intros k e He. rewrite par_new.
    destruct Hinv as (_ & _ & _ & _ & _ & _ & Hroot & _). by apply (Hroot k e).
  - intros c q _. rewrite par_new. by left.
Qed.

(** A new dummy becomes the representative of a subject. *)
Lemma merge_inv_table rest t h subj new :
  merge_inv rest t h -> subj <> "" ->
  msg_of h new = None -> par h new = None -> new < length h -> new ∉ rest ->
  merge_inv rest (table_set t subj new) h.
Proof.
  intros (Hl & Hsub & Hkeys & Hempty & Hread & [Hdummy Hmsg] & Hroot & Hkey & Hq)
         Hne Hmn Hpn Hvn Hnew.
  split_and!; try done.
  - by apply table_set_keys_NoDup.
  - by rewrite table_get_set, decide_False.
  - split.
    + intros l1 D l2 k Hsplit HD Hgs Hkne. rewrite table_get_set.
      case_decide.
      * exists new. split_and!; [done|done|]. intros Hin. apply Hnew.
        rewrite Hsplit. set_solver.
      * by eapply Hdummy.
    + intros Y k HY HmY Hgs Hkne. rewrite table_get_set. case_decide.
      * exists new. split; [done|by left].
      * by apply Hmsg.
  - intros k e. rewrite table_get_set. case_decide; [by intros [= <-]|].
    apply Hroot.
  - intros k e. rewrite table_get_set. case_decide; [by intros [= <-]|].
    apply Hkey.
Qed.

(** The representative adopts the root [X]. *)
Lemma merge_adopt X rest t h ctr subj :
  NoDup (X :: rest) -> merge_inv (X :: rest) t h ->
  grouping_subject h X = Ok subj -> table_get t subj = Some ctr ->
  ctr <> X -> msg_of h X <> None ->
  exists h', add_child ctr X h = Ok h' /\ merge_inv rest t h'.
Proof.
  intros Hnd Hinv Hsubj Hget Hne HmX.
  pose proof Hinv
    as (Hl & Hsub & Hkeys & Hempty & Hread & [Hdummy Hmsg] & Hroot & Hkey & Hq).
  apply NoDup_cons in Hnd as [HX Hnd].
  destruct (Hroot _ _ Hget) as [Hpc Hcv].
  destruct (Hread X) as [_ HXv]; [by left|].
  destruct (add_child_spec h ctr X Hl Hcv HXv)
    as (h' & -> & Hl' & Hlen' & Hm' & Hk' & Hp').
  exists h'. split; [done|].
  apply (merge_inv_heap [X] rest t h h'); try done; [lia| | |].
  - intros D HD _. rewrite Hk'. rewrite remove_first_notin.
    + by eexists.
    + intros Hin. apply (linked_down _ Hl) in Hin.
      apply (Hq X D); [by left|done|by right].
  - intros k e He. rewrite Hp'. case_decide as HeX.
    + subst e. exfalso. apply Hne.
      pose proof (Hkey _ _ He HmX) as Hk2. congruence.
    + by apply (Hroot k e).
  - intros c q Hc. rewrite Hp'. rewrite decide_False by (intros ->; done).
    by left.
Qed.

(** Two dummies: children of the representative move to the root [X]. *)
Lemma merge_splice X rest t h ctr subj :
  NoDup (X :: rest) -> merge_inv (X :: rest) t h ->
  grouping_subject h X = Ok subj -> table_get t subj = Some ctr ->
  ctr <> X -> msg_of h X = None ->
  exists h',
    splice_children (S (length (kids h ctr))) 0 ctr X h = Ok h' /\
    merge_inv rest t h'.
Proof.
  intros Hnd Hinv Hsubj Hget Hne HmX.
  pose proof Hinv
    as (Hl & Hsub & Hkeys & Hempty & Hread & [Hdummy Hmsg] & Hroot & Hkey & Hq).
  apply NoDup_cons in Hnd as [HX Hnd].
  destruct (Hread X) as [_ HXv]; [by left|].
  assert (subj <> "") as Hsne by (intros ->; congruence).
  destruct (Hdummy [] X rest subj eq_refl HmX Hsubj Hsne) as (e & He & _ & Hnot).
  rewrite Hget in He. injection He as <-.
  destruct (splice_children_ok ctr X (S (length (kids h ctr))) 0 h)
    as (h' & -> & Hl' & Hlen' & Hm' & Hk' & _ & Hp'); [done|done|done|lia|].
  exists h'. split; [done|].
  apply (merge_inv_heap [X] rest t h h'); try done; [lia| | |].
  - intros D HD _. exists []. rewrite app_nil_r. apply Hk'; by intros ->.
  - intros k e He. destruct (Hroot k e He) as [Hpe _].
    destruct (Hp' e) as [->|[? _]]; [done|congruence].
  - intros c q Hc Hpc. destruct (Hp' c) as [Heq|[_ Heq]].
    + left. congruence.
    + right. rewrite Heq in Hpc. injection Hpc as <-. done.
Qed.

Lemma grouping_subject_new h c :
  grouping_subject (h ++ [empty_container]) c = grouping_subject h c.
Proof.
  unfold grouping_subject, subject_source. rewrite msg_new, kids_new.
  destruct (msg_of h c); [done|]. destruct (kids h c); [done|].
  by rewrite msg_new.
Qed.

(** Two messages with subjects of one length get a new dummy parent. *)
Lemma merge_wrap X rest t h ctr subj :
  NoDup (X :: rest) -> merge_inv (X :: rest) t h ->
  grouping_subject h X = Ok subj -> table_get t subj = Some ctr ->
  ctr <> X -> msg_of h X <> None -> msg_of h ctr <> None ->
  exists h1 h2,
    add_child (length h) ctr (h ++ [empty_container]) = Ok h1 /\
    add_child (length h) X h1 = Ok h2 /\
    merge_inv rest (table_set t subj (length h)) h2.
Proof.
  intros Hnd Hinv Hsubj Hget Hne HmX Hmc.
  assert (subj <> "") as Hsne.
  { intros ->. destruct Hinv as (_ & _ & _ & Hempty & _). congruence. }
  assert (forall D, D ∈ X :: rest -> D < length h) as Hvalid.
  { intros D HD. destruct Hinv as (_ & _ & _ & _ & Hread & _).
    by apply Hread. }
  set (new := length h) in *. set (h0 := h ++ [empty_container]).
  assert (new < length h0) as Hnv.
  { unfold h0. rewrite length_app. simpl. lia. }
  assert (merge_inv (X :: rest) (table_set t subj new) h0) as Hinv0.
  { apply merge_inv_table; try done.
    - by apply merge_inv_alloc.
    - unfold h0. rewrite msg_new. by apply msg_out_of_range.
    - unfold h0. rewrite par_new. by apply par_out_of_range.
    - intros Hin. apply Hvalid in Hin. lia. }
  assert (merge_inv (X :: rest) t h0) as Hinvt by (by apply merge_inv_alloc).
  destruct Hinvt as (Hl & Hsub & _ & _ & Hread & _ & Hroot & Hkey & Hq).
  apply NoDup_cons in Hnd as [HX Hnd].
  destruct (Hroot _ _ Hget) as [Hpc Hcv].
  destruct (Hread X) as [_ HXv]; [by left|].
  assert (msg_of h0 X <> None) as HmX0 by (unfold h0; by rewrite msg_new).
  assert (msg_of h0 ctr <> None) as Hmc0 by (unfold h0; by rewrite msg_new).
  assert (grouping_subject h0 X = Ok subj) as Hsubj0.
  { unfold h0. by rewrite grouping_subject_new. }
  destruct (add_child_spec h0 new ctr Hl Hnv Hcv)
    as (h1 & Hrun1 & Hl1 & Hlen1 & Hm1 & Hk1 & Hp1).
  destruct (add_child_spec h1 new X Hl1) as (h2 & Hrun2 & Hl2 & Hlen2 & Hm2 & Hk2 & Hp2);
    [lia|lia|].
  exists h1, h2. split_and!; [done|done|].
  assert (new <> X) as HnX by (specialize (Hvalid X); set_solver by lia).
  assert (new <> ctr).
  { intros Heq. rewrite <- Heq in Hmc0. unfold h0 in Hmc0.
    rewrite msg_new, msg_out_of_range in Hmc0; done. }
  apply (merge_inv_heap [X] rest _ h0 h2); try done; [lia| | | |].
  - intros x. by rewrite Hm2, Hm1.
  - intros D HD _.
    assert (D <> new) as HDn.
    { specialize (Hvalid D). intros ->. set_solver by lia. }
    rewrite Hk2, Hk1, !decide_False, !app_nil_r by done.
    rewrite (remove_first_notin ctr) by (by apply linked_orphan).
    rewrite remove_first_notin; [by exists []; rewrite app_nil_r|].
    intros Hin. apply (linked_down _ Hl) in Hin.
    apply (Hq X D); [by left|done|by right].
  - intros k e. rewrite table_get_set, Hp2, Hp1. case_decide as Hk.
    + intros [= <-]. rewrite !decide_False by done.
      unfold h0. rewrite par_new. by apply par_out_of_range.
    + intros He. case_decide as HeX.
      { subst e. exfalso. apply Hk. pose proof (Hkey _ _ He HmX0). congruence. }
      case_decide as Hec.
      { subst e. exfalso. apply Hk.
        pose proof (Hkey _ _ He Hmc0). pose proof (Hkey _ _ Hget Hmc0).
        congruence. }
      by apply (Hroot k e).
  - intros c q Hc. rewrite Hp2, Hp1.
    rewrite decide_False by (intros ->; done). case_decide.
    + intros [= <-]. right. intros Hin.
      specialize (Hvalid new). set_solver by lia.
    + by left.
Qed.
(** The body of the second loop of step five returns and keeps the
    invariant. *)
Lemma merge_step_ok X rest t h :
  NoDup (X :: rest) -> merge_inv (X :: rest) t h ->
  exists t' h', merge_step X (t, h) = Ok (t', h') /\ merge_inv rest t' h'.
Proof.
  intros Hnd Hinv.
  pose proof Hinv
    as (Hl & Hsub & Hkeys & Hempty & Hread & [Hdummy Hmsg] & Hroot & Hkey & Hq).
  destruct (Hread X) as [HrX HXv]; [by left|].
  destruct (grouping_subject_ok h X Hsub HrX) as (subj & Hsubj).
  unfold merge_step. rewrite Hsubj. cbn -[splice_children].
  destruct (table_get t subj) as [ctr|] eqn:Hget.
  2:{ exists t, h. split; [done|]. by eapply merge_inv_same. }
  case_bool_decide as Hne.
  { exists t, h. split; [done|]. by eapply merge_inv_same. }
  assert (subj <> "") as Hsne by (intros ->; congruence).
  unfold is_dummy.
  destruct (msg_of h ctr) as [mr|] eqn:Hmr, (msg_of h X) as [mc|] eqn:HmX;
    cbn -[splice_children].
  - pose proof (Hsub _ _ Hmr) as Hsr. pose proof (Hsub _ _ HmX) as Hsc.
    unfold subject_string.
    destruct (subject mr) as [sr|] eqn:Hsubr; [|done].
    destruct (subject mc) as [sc|] eqn:Hsubc; [|done]. simpl.
    case_bool_decide as Hlt.
    { destruct (merge_adopt X rest t h ctr subj) as (h' & -> & Hinv');
        try done; [congruence|].
      simpl. by exists t, h'. }
    case_bool_decide as Hgt.
    { exfalso. destruct (Hmsg X subj) as (e & He & Hlen);
        [by left|congruence|done|done|].
      rewrite Hget in He. injection He as <-.
      unfold subject_len in Hlen. rewrite Hmr, HmX, Hsubr, Hsubc in Hlen.
      destruct Hlen as [?|?]; [done|lia]. }
    destruct (merge_wrap X rest t h ctr subj) as (h1 & h2 & -> & Hrun2 & Hinv');
      try done; try congruence.
    simpl. rewrite Hrun2. simpl. by eexists _, _.
  - exfalso.
    destruct (Hdummy [] X rest subj eq_refl HmX Hsubj Hsne) as (e & He & Hme & _).
    congruence.
  - destruct (merge_adopt X rest t h ctr subj) as (h' & -> & Hinv');
      try done; [congruence|].
    simpl. by exists t, h'.
  - destruct (merge_splice X rest t h ctr subj) as (h' & -> & Hinv'); try done.
    simpl. by exists t, h'.
Qed.

Lemma merge_loop rest : forall t h,
  NoDup rest -> merge_inv rest t h ->
  exists t' h',
    for_each merge_step rest (t, h) = Ok (t', h') /\ merge_inv [] t' h'.
Proof.
  induction rest as [|X rest IH]; intros t h Hnd Hinv.
  { by exists t, h. }
  rewrite for_each_cons.
  destruct (merge_step_ok X rest t h Hnd Hinv) as (t1 & h1 & -> & Hinv1).
  simpl. apply IH; [|done]. by apply NoDup_cons in Hnd as [_ ?].
Qed.

(** Step five returns roots of a heap whose links agree. *)
Lemma group_by_subject_step_ok h roots :
  linked h -> subjects_ok h -> roots_ok h roots ->
  exists out h',
    group_by_subject_step roots h = Ok (out, h') /\ linked h' /\
    forall r, r ∈ out -> par h' r = None.
Proof.
  intros Hl Hsub Hroots. unfold group_by_subject_step.
  destruct (build_subject_table_ok h roots Hsub Hroots)
    as (t & -> & Hkeys & Hin & Hrep).
  simpl. destruct Hroots as [Hnd Hroots].
  destruct (merge_loop roots t h Hnd) as (t' & h' & -> & Hinv').
  { split_and!; try done.
    - destruct (table_get t "") as [e|] eqn:He; [|done].
      by destruct (Hin _ _ He) as (_ & ? & _).
    - intros D HD. by destruct (Hroots D HD) as (_ & ? & ?).
    - intros k e He. destruct (Hin _ _ He) as (He' & _).
      by destruct (Hroots e He') as (? & ? & _).
    - intros k e He _. by destruct (Hin _ _ He) as (_ & _ & ?).
    - intros c q Hc Hp. destruct (Hroots c Hc) as (? & _). congruence. }
  simpl. exists (table_values t'), h'. split; [done|].
  destruct Hinv' as (Hl' & _ & Hkeys' & _ & _ & _ & Hroot' & _).
  split; [done|]. intros r Hr.
  destruct (table_values_get t' r Hkeys' Hr) as (k & Hk).
  by destruct (Hroot' k r Hk).
Qed.
End Merge.

(** * [thread] as a whole *)

Section Acyclic.
Implicit Types (h : Heap) (c d r x : cid).

Lemma reach_ancestor h r c :
  linked h -> rtc (descends h) r c -> exists j, ancestor h j c = Some r.
Proof.
  intros Hl. revert c. apply rtc_ind_r.
  - by exists 0.
  - intros c d _ Hstep (j & Hj). exists (S j). simpl.
    by rewrite (linked_down _ Hl _ _ Hstep).
Qed.

Lemma path_ancestor h x y :
  linked h -> tc (descends h) x y -> exists k, ancestor h (S k) y = Some x.
Proof.
  intros Hl Hpath. induction Hpath as [x y Hxy|x z y Hxz _ (k & Hk)].
  - exists 0. simpl. by rewrite (linked_down _ Hl _ _ Hxy).
  - exists (S k). eapply ancestor_succ; [exact Hk|].
    by apply (linked_down _ Hl).
Qed.

(** Under a root of a heap whose links agree there is no cycle. *)
Lemma root_acyclic h r c :
  linked h -> par h r = None -> rtc (descends h) r c ->
  ~ tc (descends h) c c.
Proof.
  intros Hl Hr Hreach Hcycle.
  destruct (reach_ancestor h r c Hl Hreach) as (j & Hj).
  destruct (path_ancestor h c c Hl Hcycle) as (k & Hk).
  by apply (no_cycle h r j c k).
Qed.

Lemma search_loop_sound h self ctr fuel : forall stack seen,
  (forall n, n ∈ stack -> rtc (descends h) self n) ->
  has_descendant_loop fuel h ctr stack seen = Ok true ->
  rtc (descends h) self ctr.
Proof.
  induction fuel as [|fuel IH]; intros stack seen Hstack; simpl; [done|].
  destruct stack as [|node stack]; [done|].
  case_decide as Hnode.
  - intros _. subst. apply Hstack. by left.
  - rewrite push_unseen_spec. apply IH. intros n [Hn|Hn]%elem_of_app.
    + apply elem_of_reverse, list_elem_of_filter in Hn as [_ Hn].
      eapply rtc_r; [|exact Hn]. apply Hstack. by left.
    + apply Hstack. by right.
Qed.

(** [has_descendant] answers [True] only for a container that is
    reached through [children]. *)
Lemma has_descendant_sound h self ctr :
  has_descendant h self ctr = Ok true -> rtc (descends h) self ctr.
Proof.
  apply search_loop_sound. by intros n ->%list_elem_of_singleton.
Qed.

Lemma has_descendant_refl h c : has_descendant h c c = Ok true.
Proof. unfold has_descendant. simpl. by rewrite decide_True. Qed.
End Acyclic.

(** [thread] returns when the depth suffices, and what it returns are
    roots of a heap whose links agree. *)
Lemma thread_ok (room : nat) (messages : list Message)
    (group_by_subject : bool) :
  Forall well_formed_message messages ->
  container_bound messages <= 2 + room ->
  exists roots h,
    thread room messages group_by_subject = Ok (roots, h) /\ linked h /\
    forall r, r ∈ roots -> par h r = None.
Proof.
  intros Hwf Hroom. unfold thread.
  destruct (link_messages_ok (fun m => subject m <> None) messages)
    as (t & h & Hlink & Hinv).
  { eapply Forall_impl; [exact Hwf|]. by intros m [_ ?]. }
  rewrite Hlink. apply link_messages_length in Hlink. simpl in Hlink.
  simpl. destruct (find_root_set_ok _ t h Hinv) as [Hnd Hroots].
  rewrite assert_roots_ok by (intros r Hr; by apply Hroots).
  simpl. destruct Hinv as (Hl & _ & Hmsgs).
  destruct (prune_root_set_ok (S (S room)) h (find_root_set t h))
    as (roots' & h2 & -> & Hl2 & Hlen2 & Hm2 & Hok); [lia|done|done|done|].
  simpl. destruct group_by_subject.
  - apply group_by_subject_step_ok; [done| |done].
    intros c m. rewrite Hm2. apply Hmsgs.
  - exists roots', h2. split_and!; [done|done|].
    intros r Hr. by apply Hok.
Qed.

(** A run of [thread] that returns has returned roots of a heap whose
    links agree, whatever the depth was. *)
Lemma thread_run (room : nat) (messages : list Message)
    (group_by_subject : bool) (roots : list cid) (h : Heap) :
  Forall well_formed_message messages ->
  thread room messages group_by_subject = Ok (roots, h) ->
  linked h /\ forall r, r ∈ roots -> par h r = None.
Proof.
  intros Hwf Hrun.
  destruct (thread_ok (room + container_bound messages) messages
              group_by_subject Hwf) as (roots' & h' & Hrun' & Hprops); [lia|].
  rewrite (thread_mono room _ _ _ (roots, h)) in Hrun'; [|lia|done].
  by injection Hrun' as <- <-.
Qed.




(** C1: the forest that [thread] returns, with or without the grouping
    by subject, is acyclic.  For every container [c] reached from a
    returned root, [has_descendant(c, c)] is true (a container is its own
    descendant), no path of one or more [children] steps leads from [c]
    back to [c], and for every proper descendant [d] of [c] the search
    [has_descendant(d, c)] answers false. *)
Theorem thread_acyclic (room : nat) (messages : list Message)
    (group_by_subject : bool) (roots : list cid) (h : Heap) (r c : cid) :
  Forall well_formed_message messages ->
  thread room messages group_by_subject = Ok (roots, h) ->
  r ∈ roots -> rtc (descends h) r c ->
  has_descendant h c c = Ok true /\
  ~ tc (descends h) c c /\
  forall d, tc (descends h) c d ->
            ~ tc (descends h) d c /\ has_descendant h d c = Ok false.
Proof.
  intros Hwf Hrun Hr Hreach.
  destruct (thread_run room messages group_by_subject roots h Hwf Hrun)
    as (Hl & Hroots).
  pose proof (root_acyclic h r c Hl (Hroots r Hr) Hreach) as Hacyclic.
  split_and!; [apply has_descendant_refl|done|].
  intros d Hd. split.
  - intros Hback. apply Hacyclic. by etrans.
  - destruct (has_descendant_total h d c) as ([|] & Hsearch); [|done].
    exfalso. apply has_descendant_sound in Hsearch.
    apply Hacyclic. eapply tc_rtc_r; done.
Qed.

Lemma thread_acyclic_witness :
  let msgs := [mail "B" ["A"] "x" 0; mail "A" [] "x" 1; mail "C" ["A"; "B"] "Re: x" 2] in
  let h := [mkContainer (Some (mail "B" ["A"] "x" 0)) [2] (Some 1);
            mkContainer (Some (mail "A" [] "x" 1)) [0] None;
            mkContainer (Some (mail "C" ["A"; "B"] "Re: x" 2)) [] (Some 0)] in
  has_descendant h 0 0 = Ok true /\
  ~ tc (descends h) 0 0 /\
  forall d, tc (descends h) 0 d ->
            ~ tc (descends h) d 0 /\ has_descendant h d 0 = Ok false.
Proof.
  intros msgs h.
  apply (thread_acyclic default_room msgs true [1] h 1 0).
  - repeat (constructor; [split; discriminate|]). constructor.
  - vm_compute. reflexivity.
  - apply list_elem_of_singleton. reflexivity.
  - apply rtc_once. unfold descends. vm_compute. left.
Defined.

(** * [has_descendant] decides reachability *)

Section SearchComplete.
Implicit Types (h : Heap) (self ctr c n : cid) (stack seen : list cid).

(** When the search gives up, the containers that were seen are closed
    under [children] and hold [self], but not [ctr]. *)
Lemma search_loop_complete h self ctr fuel : forall stack seen,
  self ∈ seen \/ self ∈ stack ->
  (forall n k, n ∈ seen -> k ∈ kids h n -> k ∈ seen \/ k ∈ stack) ->
  ctr ∉ seen ->
  has_descendant_loop fuel h ctr stack seen = Ok false ->
  ~ rtc (descends h) self ctr.
Proof.
  induction fuel as [|fuel IH]; intros stack seen Hself Hclosed Hctr; simpl;
    [done|].
  destruct stack as [|node stack].
  - intros _ Hreach. apply Hctr.
    assert (forall x, rtc (descends h) self x -> x ∈ seen) as Hall.
    { apply rtc_ind_r.
      - destruct Hself as [?|Hs]; [done|]. by apply elem_of_nil in Hs.
      - intros y z _ Hyz Hy. destruct (Hclosed y z Hy Hyz) as [?|Hz]; [done|].
        by apply elem_of_nil in Hz. }
    by apply Hall.
  - case_decide as Hnode; [done|].
    rewrite push_unseen_spec. apply IH.
    + destruct Hself as [Hs|Hs]; [left; by right|].
      apply elem_of_cons in Hs as [->|Hs]; [left; by left|].
      right. apply elem_of_app. by right.
    + intros n k Hn Hk.
      destruct (decide (k ∈ node :: seen)) as [Hin|Hout]; [by left|right].
      apply elem_of_app. apply elem_of_cons in Hn as [->|Hn].
      * left. apply elem_of_reverse, list_elem_of_filter. done.
      * destruct (Hclosed n k Hn Hk) as [Hks|Hks].
        { exfalso. apply Hout. by right. }
        apply elem_of_cons in Hks as [->|Hks].
        { exfalso. apply Hout. by left. }
        by right.
    + intros [->|Hin]%elem_of_cons; [done|]. by apply Hctr.
Qed.

(** [has_descendant] answers [False] only for a container that is not
    reached. *)
Lemma has_descendant_complete h self ctr :
  has_descendant h self ctr = Ok false -> ~ rtc (descends h) self ctr.
Proof.
  apply (search_loop_complete h self ctr (search_budget h) [self] []);
    [right; by left| |apply not_elem_of_nil].
  intros n k Hn. by apply elem_of_nil in Hn.
Qed.

(** X1: on any heap, cyclic or not, [has_descendant] returns a boolean
    and never raises, and it returns [True] exactly when [ctr] is
    reached from [self] by zero or more [children] steps. *)
Theorem has_descendant_reaches h self ctr :
  (exists b, has_descendant h self ctr = Ok b) /\
  (has_descendant h self ctr = Ok true <-> rtc (descends h) self ctr).
Proof.
  split; [apply has_descendant_total|]. split.
  - apply has_descendant_sound.
  - intros Hreach. destruct (has_descendant_total h self ctr) as ([|] & Hb);
      [done|]. exfalso. by apply (has_descendant_complete h self ctr).
Qed.
End SearchComplete.


(** * [add_child] and [remove_child] on a heap whose links agree *)

Section Adoption.
Implicit Types (h : Heap) (p c x k : cid).

(** X2: on a heap whose links agree, [self.add_child(child)] raises
    nothing; afterwards the links still agree, [child] is the last child
    of [self], its parent is [self], it is a child of no other container,
    and no other child, parent or message has changed. *)
Theorem add_child_moves h p c :
  linked h -> p < length h -> c < length h ->
  exists h',
    add_child p c h = Ok h' /\ linked h' /\
    par h' c = Some p /\ last (kids h' p) = Some c /\
    (forall x, c ∈ kids h' x <-> x = p) /\
    (forall x k, k <> c -> (k ∈ kids h' x <-> k ∈ kids h x)) /\
    (forall x, x <> c -> par h' x = par h x) /\
    (forall x, msg_of h' x = msg_of h x).
Proof.
  intros Hl Hp Hc.
  destruct (add_child_spec h p c Hl Hp Hc)
    as (h' & Hrun & Hl' & _ & Hmsg & Hkids & Hpar).
  exists h'. split_and!; [done|done| | | | | |done].
  - rewrite Hpar. by rewrite decide_True.
  - rewrite Hkids, decide_True by done. apply last_snoc.
  - intros x. split.
    + intros Hin. apply (linked_down _ Hl') in Hin.
      rewrite Hpar, decide_True in Hin by done. congruence.
    + intros ->. apply (linked_up _ Hl'). rewrite Hpar. by rewrite decide_True.
  - intros x k Hk. rewrite Hkids, elem_of_app.
    rewrite elem_of_remove_first by apply (linked_nodup _ Hl). split.
    + intros [[? _]|Hin]; [done|]. case_decide; [|by apply elem_of_nil in Hin].
      by apply list_elem_of_singleton in Hin.
    + intros Hin. by left.
  - intros x Hx. rewrite Hpar. by rewrite decide_False.
Qed.

Lemma add_child_moves_witness :
  let h := [mkContainer None [1; 2] None; mkContainer None [] (Some 0);
            mkContainer None [] (Some 0); mkContainer None [] None] in
  exists h',
    add_child 3 1 h = Ok h' /\ linked h' /\
    par h' 1 = Some 3 /\ last (kids h' 3) = Some 1 /\
    (forall x, 1 ∈ kids h' x <-> x = 3) /\
    (forall x k, k <> 1 -> (k ∈ kids h' x <-> k ∈ kids h x)) /\
    (forall x, x <> 1 -> par h' x = par h x) /\
    (forall x, msg_of h' x = msg_of h x).
Proof.
  intros h. apply (add_child_moves h 3 1).
  - apply linked_check_sound. vm_compute. reflexivity.
  - simpl. lia.
  - simpl. lia.
Defined.

(** X3: on a heap whose links agree, [self.remove_child(child)] succeeds
    exactly when [self] is the parent of [child], and raises [ValueError]
    otherwise.  When it succeeds the links still agree, [child] has no
    parent and is a child of no container, and every other container
    keeps its parent. *)
Theorem remove_child_detaches h p c :
  linked h ->
  (par h c = Some p ->
   exists h', remove_child p c h = Ok h' /\ linked h' /\
     par h' c = None /\ (forall x, c ∉ kids h' x) /\
     (forall x, x <> c -> par h' x = par h x) /\
     (forall x k, k <> c -> (k ∈ kids h' x <-> k ∈ kids h x))) /\
  (par h c <> Some p -> remove_child p c h = Raise ValueError).
Proof.
  intros Hl. split.
  - intros Hpar. apply (linked_up _ Hl) in Hpar.
    destruct (remove_child_spec h p c Hl Hpar)
      as (h' & Hrun & Hl' & _ & _ & Hkids & Hpar').
    exists h'. split_and!; [done|done| | | |].
    + rewrite Hpar'. by rewrite decide_True.
    + intros x. rewrite Hkids.
      rewrite elem_of_remove_first by apply (linked_nodup _ Hl). naive_solver.
    + intros x Hx. rewrite Hpar'. by rewrite decide_False.
    + intros x k Hk. rewrite Hkids.
      rewrite elem_of_remove_first by apply (linked_nodup _ Hl). naive_solver.
  - intros Hpar. unfold remove_child. rewrite decide_False; [done|].
    intros Hin. by apply (linked_down _ Hl) in Hin.
Qed.

Lemma remove_child_detaches_witness :
  let h := [mkContainer None [1; 2] None; mkContainer None [] (Some 0);
            mkContainer None [] (Some 0)] in
  (par h 2 = Some 0 ->
   exists h', remove_child 0 2 h = Ok h' /\ linked h' /\
     par h' 2 = None /\ (forall x, 2 ∉ kids h' x) /\
     (forall x, x <> 2 -> par h' x = par h x) /\
     (forall x k, k <> 2 -> (k ∈ kids h' x <-> k ∈ kids h x))) /\
  (par h 2 <> Some 0 -> remove_child 0 2 h = Raise ValueError).
Proof.
  intros h. apply (remove_child_detaches h 0 2).
  apply linked_check_sound. vm_compute. reflexivity.
Defined.

(** X4: adopting a container that has no parent and removing it again
    gives the heap back as it was. *)
Theorem add_then_remove_child h p c :
  linked h -> p < length h -> c < length h -> par h c = None ->
  exists h1, add_child p c h = Ok h1 /\ remove_child p c h1 = Ok h.
Proof.
  intros Hl Hp Hc Horphan.
  destruct (add_child_spec h p c Hl Hp Hc)
    as (h1 & Hrun & Hl1 & Hlen1 & Hmsg1 & Hkids1 & Hpar1).
  exists h1. split; [done|].
  assert (Hin : c ∈ kids h1 p).
  { apply (linked_up _ Hl1). rewrite Hpar1. by rewrite decide_True. }
  destruct (remove_child_spec h1 p c Hl1 Hin)
    as (h2 & -> & _ & Hlen2 & Hmsg2 & Hkids2 & Hpar2).
  f_equal. apply heap_ext.
  - congruence.
  - intros x. by rewrite Hmsg2, Hmsg1.
  - intros x. rewrite Hkids2, Hkids1.
    assert (Hout : c ∉ kids h x) by by apply linked_orphan.
    rewrite (remove_first_notin c (kids h x)) by done.
    rewrite remove_first_app_notin by done.
    case_decide; simpl; [|by rewrite app_nil_r].
    rewrite decide_True by done. by rewrite app_nil_r.
  - intros x. rewrite Hpar2, Hpar1. case_decide; [by subst|done].
Qed.

Lemma add_then_remove_child_witness :
  let h := [mkContainer None [1; 2] None; mkContainer None [] (Some 0);
            mkContainer None [] (Some 0); mkContainer None [] None] in
  exists h1, add_child 1 3 h = Ok h1 /\ remove_child 1 3 h1 = Ok h.
Proof.
  intros h. apply (add_then_remove_child h 1 3).
  - apply linked_check_sound. vm_compute. reflexivity.
  - simpl. lia.
  - simpl. lia.
  - reflexivity.
Defined.

(** X5: [add_child] makes no test for loops.  A container can adopt
    itself or one of its ancestors: the call succeeds, the links agree
    afterwards, and the adopted container is then its own descendant by
    one or more [children] steps. *)
Theorem add_child_makes_loop h p c :
  linked h -> p < length h -> rtc (descends h) c p ->
  exists h', add_child p c h = Ok h' /\ linked h' /\ tc (descends h') c c.
Proof.
  intros Hl Hp Hreach.
  assert (Hc : c < length h).
  { destruct Hreach as [|c k z Hk _]; [done|]. by eapply kids_parent_valid. }
  destruct (add_child_spec h p c Hl Hp Hc)
    as (h' & Hrun & Hl' & _ & _ & Hkids & Hpar).
  exists h'. split_and!; [done|done|].
  assert (Hback : descends h' p c).
  { apply (linked_up _ Hl'). rewrite Hpar. by rewrite decide_True. }
  assert (forall y, rtc (descends h) y p ->
                    rtc (descends h') y p \/ rtc (descends h') c p) as Hpath.
  { apply rtc_ind_l; [by left|]. intros y z Hyz _ IH.
    destruct (decide (z = c)) as [->|Hz]; [right; by destruct IH|].
    destruct IH as [IH|IH]; [left|by right].
    eapply rtc_l; [|exact IH]. unfold descends. rewrite Hkids.
    apply elem_of_app. left.
    apply elem_of_remove_first; [apply (linked_nodup _ Hl)|done]. }
  eapply tc_rtc_l; [|by apply tc_once].
  by destruct (Hpath c Hreach).
Qed.

Lemma add_child_makes_loop_witness :
  let h := [mkContainer None [1] None; mkContainer None [2] (Some 0);
            mkContainer None [] (Some 1)] in
  exists h', add_child 2 1 h = Ok h' /\ linked h' /\ tc (descends h') 1 1.
Proof.
  intros h. apply (add_child_makes_loop h 2 1).
  - apply linked_check_sound. vm_compute. reflexivity.
  - simpl. lia.
  - apply rtc_once. unfold descends. vm_compute. left.
Defined.
End Adoption.


(** * [size] *)

Section Size.
Implicit Types (h : Heap) (c r x : cid) (t : tree).

Lemma ancestor_reach h r : linked h ->
  forall j c, ancestor h j c = Some r -> rtc (descends h) r c.
Proof.
  intros Hl. induction j as [|j IH]; intros c; simpl.
  - by intros [= ->].
  - destruct (par h c) as [p|] eqn:Hp; [|done]. intros Hj.
    eapply rtc_r; [by apply IH|]. by apply (linked_up _ Hl).
Qed.

(** The tree under a root holds the containers reached from the root. *)
Lemma root_tree_reach h r x :
  linked h -> par h r = None -> r < length h ->
  x ∈ nodes (tree_of (length h - 1) h r) <-> rtc (descends h) r x.
Proof.
  intros Hl Hr Hrv. split.
  - intros Hx. destruct (tree_of_nodes h _ r x Hl Hx) as (i & Hi).
    by eapply ancestor_reach.
  - destruct (root_tree h r Hl Hr Hrv) as (Hroot & Hshape & _).
    intros Hreach. apply rtc_tc in Hreach as [<-|Hreach].
    + rewrite <- Hroot at 1. apply root_in_nodes.
    + pose proof (shape_reach h r x Hreach _ Hroot Hshape) as Hin.
      destruct (tree_of (length h - 1) h r) as [c ts]. simpl in *. by right.
Qed.

Lemma container_size_shape h fuel : forall t,
  shape h t -> height t <= fuel ->
  container_size fuel h (root t) = Ok (length (nodes t)).
Proof.
  induction fuel as [|fuel IH]; intros [c ts] Hshape Hheight.
  { simpl in Hheight. lia. }
  apply shape_inv in Hshape as [Hkids Hts]. simpl. rewrite Hkids.
  assert (forall acc,
    for_each (fun child acc0 =>
                do k <- container_size fuel h child; Ok (acc0 + k))
             (map root ts) acc
    = Ok (acc + length (flat_map nodes ts))) as Hloop.
  { assert (Forall (fun t => height t <= fuel) ts) as Hhs.
    { apply Forall_forall. intros t Ht.
      pose proof (height_subtree c ts t Ht). lia. }
    clear Hkids Hheight. induction ts as [|t ts IHts]; intros acc.
    - simpl. f_equal. lia.
    - apply Forall_cons in Hts as [Ht Hts].
      apply Forall_cons in Hhs as [Hh Hhs].
      cbn [map flat_map]. rewrite for_each_cons, (IH t Ht Hh). simpl.
      rewrite IHts by done. f_equal. rewrite length_app. lia. }
  by rewrite Hloop.
Qed.

Lemma tc_first_step h x z :
  tc (descends h) x z -> exists k, k ∈ kids h x /\ rtc (descends h) k z.
Proof.
  intros [x' z' Hk|x' k z' Hk Hkz].
  - by exists z'.
  - exists k. split; [done|]. by apply tc_rtc.
Qed.

(** A run of [size] gives a number, or the depth ran out. *)
Lemma container_size_result h fuel : forall c,
  (exists n, container_size fuel h c = Ok n) \/
  container_size fuel h c = Raise RecursionError.
Proof.
  induction fuel as [|fuel IH]; intros c; simpl; [by right|].
  generalize 0. induction (kids h c) as [|k l IHl]; intros acc.
  - left. by eexists.
  - rewrite for_each_cons. destruct (IH k) as [(n & ->)| ->]; simpl.
    + apply IHl.
    + by right.
Qed.

(** X6: under a container without parent, in a heap whose links agree,
    [size] returns the number of containers that are reached from it
    through [children], itself included; that number is at least one and
    at most the number of containers of the heap. *)
Theorem size_counts_reachable h r :
  linked h -> par h r = None -> r < length h ->
  exists l, NoDup l /\ (forall x, x ∈ l <-> rtc (descends h) r x) /\
    container_size (length h) h r = Ok (length l) /\
    1 <= length l <= length h.
Proof.
  intros Hl Hr Hrv.
  destruct (root_tree h r Hl Hr Hrv) as (Hroot & Hshape & Hnd & Hheight).
  exists (nodes (tree_of (length h - 1) h r)). split_and!.
  - done.
  - intros x. by apply root_tree_reach.
  - pose proof (container_size_shape h (length h) _ Hshape Hheight) as Hsize.
    by rewrite Hroot in Hsize.
  - destruct (tree_of (length h - 1) h r). simpl. lia.
  - assert (nodes (tree_of (length h - 1) h r) ⊆+ seq 0 (length h)) as Hsub.
    { apply NoDup_submseteq; [done|]. intros x Hx.
      apply elem_of_seq. split; [lia|]. simpl.
      apply root_tree_reach in Hx; [|done..].
      apply rtc_inv_r in Hx as [<-|(y & _ & Hy)]; [done|].
      by eapply linked_child_valid. }
    apply submseteq_length in Hsub. rewrite length_seq in Hsub. lia.
Qed.

Lemma size_counts_reachable_witness :
  let h := [mkContainer None [1; 2] None; mkContainer None [3] (Some 0);
            mkContainer None [] (Some 0); mkContainer None [] (Some 1);
            mkContainer None [] None] in
  exists l, NoDup l /\ (forall x, x ∈ l <-> rtc (descends h) 0 x) /\
    container_size (length h) h 0 = Ok (length l) /\
    1 <= length l <= length h.
Proof.
  intros h. apply (size_counts_reachable h 0).
  - apply linked_check_sound. vm_compute. reflexivity.
  - reflexivity.
  - simpl. lia.
Defined.

(** X7: [size] follows [children] without a [seen] set.  From a
    container that reaches a loop of [children] links the recursion has
    no end: no depth is enough for it to return. *)
Theorem size_on_loop_diverges h c d :
  rtc (descends h) c d -> tc (descends h) d d ->
  forall fuel, container_size fuel h c = Raise RecursionError.
Proof.
  intros Hreach Hloop fuel. revert c Hreach.
  induction fuel as [|fuel IH]; intros c Hreach; simpl; [done|].
  assert (exists k, k ∈ kids h c /\ rtc (descends h) k d) as (k & Hk & Hkd).
  { destruct Hreach as [|c k z Hk Hkd]; [|by exists k].
    by apply tc_first_step. }
  apply list_elem_of_split in Hk as (l1 & l2 & ->).
  enough (forall acc,
    for_each (fun child acc0 =>
                do n <- container_size fuel h child; Ok (acc0 + n))
             (l1 ++ k :: l2) acc = Raise RecursionError) as -> by done.
  induction l1 as [|x l1 IHl]; intros acc; cbn [app]; rewrite for_each_cons.
  - by rewrite (IH k Hkd).
  - destruct (container_size_result h fuel x) as [(n & ->)| ->]; simpl; [|done].
    apply IHl.
Qed.

Lemma size_on_loop_diverges_witness :
  let h := [mkContainer None [1] None; mkContainer None [2] (Some 0);
            mkContainer None [1] (Some 1)] in
  container_size (search_budget h) h 0 = Raise RecursionError.
Proof.
  intros h. apply (size_on_loop_diverges h 0 1).
  - apply rtc_once. unfold descends. vm_compute. left.
  - eapply tc_l; [|apply tc_once]; unfold descends; vm_compute; left.
Defined.
End Size.

(** * [unique], [MSGID_RE] and the constructor of [Message] *)

Section Unique.
Implicit Types (e : string) (l result : list string).

Lemma unique_loop_elem_of l : forall result e,
  e ∈ unique_loop result l <-> e ∈ l /\ e ∉ result.
Proof.
  induction l as [|x l IH]; intros result e; simpl.
  - rewrite elem_of_nil. naive_solver.
  - case_decide as Hx.
    + rewrite IH, elem_of_cons. naive_solver.
    + rewrite elem_of_cons, IH, elem_of_cons, elem_of_app.
      rewrite list_elem_of_singleton.
      destruct (decide (e = x)); naive_solver.
Qed.

Lemma unique_loop_NoDup l : forall result, NoDup (unique_loop result l).
Proof.
  induction l as [|x l IH]; intros result; simpl; [constructor|].
  case_decide; [apply IH|]. apply NoDup_cons. split; [|apply IH].
  rewrite unique_loop_elem_of, elem_of_app, list_elem_of_singleton.
  naive_solver.
Qed.

Lemma unique_loop_sublist l : forall result, unique_loop result l `sublist_of` l.
Proof.
  induction l as [|x l IH]; intros result; simpl; [done|].
  case_decide; [apply sublist_cons|apply sublist_skip]; apply IH.
Qed.

Lemma unique_loop_fixed l : forall result,
  NoDup l -> (forall e, e ∈ l -> e ∉ result) -> unique_loop result l = l.
Proof.
  induction l as [|x l IH]; intros result Hnd Hfresh; simpl; [done|].
  apply NoDup_cons in Hnd as [Hx Hnd].
  rewrite decide_False by (apply Hfresh; by left). f_equal.
  apply IH; [done|]. intros e He.
  rewrite elem_of_app, list_elem_of_singleton. intros [Hr| ->]; [|done].
  revert Hr. apply Hfresh. by right.
Qed.

Lemma unique_first_occurrences_lemma l :
  NoDup (unique l) /\ (forall e, e ∈ unique l <-> e ∈ l) /\
  unique l `sublist_of` l.
Proof.
  unfold unique. split_and!.
  - apply unique_loop_NoDup.
  - intros e. rewrite unique_loop_elem_of, elem_of_nil. naive_solver.
  - apply unique_loop_sublist.
Qed.

(** X8: [unique(alist)] has no element twice, has the elements of
    [alist] and no other, keeps them in the order of [alist] (it is a
    sublist of it, and starts with the same element), and gives back a
    list without repetition as it is; so it is idempotent. *)
Theorem unique_first_occurrences l :
  NoDup (unique l) /\ (forall e, e ∈ unique l <-> e ∈ l) /\
  unique l `sublist_of` l /\ head (unique l) = head l /\
  (NoDup l -> unique l = l) /\ unique (unique l) = unique l.
Proof.
  unfold unique. split_and!.
  - apply unique_loop_NoDup.
  - intros e. rewrite unique_loop_elem_of, elem_of_nil. naive_solver.
  - apply unique_loop_sublist.
  - by destruct l.
  - intros Hnd. apply unique_loop_fixed; [done|]. intros e _.
    apply not_elem_of_nil.
  - apply unique_loop_fixed; [apply unique_loop_NoDup|]. intros e _.
    apply not_elem_of_nil.
Qed.
End Unique.

Section MsgId.
Implicit Types (s g pre post r : string) (p : ascii -> bool) (a : ascii).

Lemma string_app_cons a s r : (String a s ++ r = String a (s ++ r))%string.
Proof. reflexivity. Qed.

Lemma span_while_spec p s : forall n r,
  span_while p s = (n, r) ->
  s = (substring 0 n s ++ r)%string /\
  String.length (substring 0 n s) = n /\
  Forall (fun a => p a = true) (list_ascii_of_string (substring 0 n s)) /\
  match r with String a _ => p a = false | EmptyString => True end.
Proof.
  induction s as [|a s IH]; intros n r; simpl.
  - intros [= <- <-]. by split_and!.
  - destruct (p a) eqn:Hpa.
    + destruct (span_while p s) as [n' r'] eqn:Hspan.
      intros [= <- <-]. destruct (IH n' r' eq_refl) as (Hs & Hlen & Hall & Hr).
      split_and!.
      * simpl. rewrite string_app_cons. by f_equal.
      * simpl. by rewrite Hlen.
      * simpl. by constructor.
      * done.
    + intros [= <- <-]. simpl. by rewrite Hpa.
Qed.

Lemma span_while_prefix p g : forall r,
  Forall (fun a => p a = true) (list_ascii_of_string g) ->
  match r with String a _ => p a = false | EmptyString => True end ->
  span_while p (g ++ r)%string = (String.length g, r) /\
  substring 0 (String.length g) (g ++ r)%string = g.
Proof.
  induction g as [|a g IH]; intros r Hall Hr; simpl.
  - split; [|by destruct r]. destruct r as [|b r]; [done|]. simpl.
    by rewrite Hr.
  - simpl in Hall. apply Forall_cons in Hall as [Ha Hall].
    rewrite ?string_app_cons. simpl.
    destruct (IH r Hall Hr) as [-> ->]. by rewrite Ha.
Qed.


Lemma string_app_assoc s1 s2 s3 :
  ((s1 ++ s2) ++ s3 = s1 ++ (s2 ++ s3))%string.
Proof.
  induction s1 as [|a s1 IH]; [done|]. by rewrite !string_app_cons, IH.
Qed.

Lemma not_close_spec a : negb (Ascii.eqb a ">") = true <-> a <> ">"%char.
Proof.
  rewrite negb_true_iff. split.
  - intros Hne ->. by rewrite Ascii.eqb_refl in Hne.
  - intros Hne. apply not_true_is_false. by intros ?%Ascii.eqb_eq.
Qed.

Lemma msgid_match_sound s g r :
  msgid_match s = Some (g, r) -> bracketed s "" g r.
Proof.
  destruct s as [|c s1]; simpl; [done|].
  destruct (Ascii.eqb c "<") eqn:Hc; [|done]. apply Ascii.eqb_eq in Hc as ->.
  destruct (span_while _ s1) as [n s2] eqn:Hspan.
  destruct (span_while_spec _ _ _ _ Hspan) as (Hs1 & Hlen & Hall & Hstop).
  destruct n as [|n]; [done|]. destruct s2 as [|b s3]; [done|].
  apply negb_false_iff, Ascii.eqb_eq in Hstop. subst b.
  intros [= <- <-]. split_and!.
  - change (String "<" s1
            = String "<" (substring 0 (S n) s1 ++ String ">" s3)%string).
    by f_equal.
  - intros Hg. by rewrite Hg in Hlen.
  - eapply Forall_impl; [exact Hall|]. intros a. apply not_close_spec.
Qed.

Lemma msgid_match_complete g r :
  g <> "" -> Forall (fun a => a <> ">"%char) (list_ascii_of_string g) ->
  msgid_match (String "<" (g ++ String ">" r)) = Some (g, r).
Proof.
  intros Hg Hall. simpl.
  destruct (span_while_prefix (fun a => negb (Ascii.eqb a ">")) g
              (String ">" r)) as [-> ->]; [|done|].
  { eapply Forall_impl; [exact Hall|]. intros a. apply not_close_spec. }
  by destruct g.
Qed.

Lemma msgid_search_cons c s :
  msgid_search (String c s)
  = match msgid_match (String c s) with
    | Some (g, _) => Some g
    | None => msgid_search s
    end.
Proof. reflexivity. Qed.

Lemma msgid_search_sound s : forall g,
  msgid_search s = Some g -> exists pre post, bracketed s pre g post.
Proof.
  induction s as [|c s IH]; intros g.
  - simpl. done.
  - rewrite msgid_search_cons.
    destruct (msgid_match (String c s)) as [[g' r]|] eqn:Hm.
    + intros [= ->]. exists "", r. by apply msgid_match_sound.
    + intros (pre & post & -> & Hg)%IH. exists (String c pre), post.
      by split.
Qed.

Lemma msgid_search_complete pre : forall s g post,
  bracketed s pre g post -> msgid_search s <> None.
Proof.
  induction pre as [|c pre IH]; intros s g post (-> & Hg & Hall).
  - change ("" ++ String "<" (g ++ String ">" post))%string
      with (String "<" (g ++ String ">" post)).
    by rewrite msgid_search_cons, (msgid_match_complete g post Hg Hall).
  - rewrite string_app_cons, msgid_search_cons.
    destruct (msgid_match _) as [[g' r]|]; [done|].
    by apply (IH _ g post).
Qed.

(** X9: [MSGID_RE.search].  The group that it gives is written in the
    text between an opening and a closing bracket, is not empty and holds
    no closing bracket; and the search fails only when the text has no
    such place. *)
Theorem msgid_search_finds s :
  (forall g, msgid_search s = Some g ->
             exists pre post, bracketed s pre g post) /\
  (msgid_search s = None <-> ~ exists pre g post, bracketed s pre g post).
Proof.
  split; [apply msgid_search_sound|]. split.
  - intros Hnone (pre & g & post & Hb).
    by apply (msgid_search_complete pre s g post).
  - intros Hno. destruct (msgid_search s) as [g|] eqn:Hs; [|done].
    exfalso. apply Hno. apply msgid_search_sound in Hs as (pre & post & Hb).
    by exists pre, g, post.
Qed.
End MsgId.

Section NewMessage.
Implicit Types (s g pre post r : string) (get : string -> option HeaderValue).

Lemma bracketed_later s c pre g post :
  bracketed s pre g post -> bracketed (String c s) (String c pre) g post.
Proof. intros (-> & Hg & Hall). by split. Qed.

Lemma bracketed_after g0 r pre g post :
  bracketed r pre g post ->
  bracketed (String "<" (g0 ++ String ">" r))
            (String "<" (g0 ++ String ">" pre)) g post.
Proof.
  intros (-> & Hg & Hall). split; [|done].
  by rewrite string_app_cons, string_app_assoc, string_app_cons.
Qed.

Lemma msgid_findall_head fuel : forall s,
  String.length s <= fuel ->
  head (msgid_findall_loop fuel s) = msgid_search s.
Proof.
  induction fuel as [|fuel IH]; intros [|c s] Hlen; simpl in Hlen; try done.
  { lia. }
  cbn [msgid_findall_loop]. rewrite msgid_search_cons.
  destruct (msgid_match (String c s)) as [[g r]|]; [done|].
  apply IH. lia.
Qed.

Lemma msgid_findall_bracketed fuel : forall s,
  Forall (fun g => exists pre post, bracketed s pre g post)
         (msgid_findall_loop fuel s).
Proof.
  induction fuel as [|fuel IH]; intros [|c s]; try by constructor.
  cbn [msgid_findall_loop].
  destruct (msgid_match (String c s)) as [[g r]|] eqn:Hm.
  - pose proof (msgid_match_sound _ _ _ Hm) as Hb. constructor.
    + by exists "", r.
    + eapply Forall_impl; [apply IH|]. intros g' (pre & post & Hg').
      destruct Hb as (Hs & _). simpl in Hs. rewrite Hs.
      eexists _, post. by apply bracketed_after.
  - eapply Forall_impl; [apply IH|]. intros g' (pre & post & Hg').
    exists (String c pre), post. by apply bracketed_later.
Qed.

(** X10: [MSGID_RE.findall].  Its first group is the one that [search]
    gives, so it is empty exactly when [search] fails; and each of its
    groups is written in the text between an opening and a closing
    bracket, is not empty and holds no closing bracket. *)
Theorem msgid_findall_groups s :
  head (msgid_findall s) = msgid_search s /\
  (msgid_findall s = [] <-> msgid_search s = None) /\
  Forall (fun g => exists pre post, bracketed s pre g post) (msgid_findall s).
Proof.
  assert (head (msgid_findall s) = msgid_search s) as Hhead.
  { by apply msgid_findall_head. }
  split_and!; [done| |apply msgid_findall_bracketed].
  rewrite <- Hhead. by destruct (msgid_findall s).
Qed.

(** X11: [Message(msg, message_idx)] for a [msg] that is not [None].
    It raises [TypeError] when the [Message-ID] header is not a string,
    or when it is one that holds an identifier and the [References] or
    the [In-Reply-To] header is not a string; it raises [ValueError] when
    the [Message-ID] header is a string that holds no identifier; it
    raises nothing else.  Otherwise the three headers are strings, the
    message has the identifier of the first, its subject is the [Subject]
    header (or ['No subject']) when that is a string, its references have
    no identifier twice, they are the identifiers of the [References]
    header and the one of [In-Reply-To], and the index is the one
    given. *)
Theorem new_message_spec get idx :
  match new_message (Some get) idx with
  | Ok m =>
    exists id_text refs_text reply_text,
      header get "Message-ID" "" = HStr id_text /\
      header get "References" "" = HStr refs_text /\
      header get "In-Reply-To" "" = HStr reply_text /\
      message_id m = msgid_search id_text /\ message_id m <> None /\
      (forall s, header get "Subject" "No subject" = HStr s ->
                 subject m = Some s) /\
      NoDup (references m) /\
      (forall r, r ∈ references m <->
         r ∈ msgid_findall refs_text \/ msgid_search reply_text = Some r) /\
      message_idx m = idx
  | Raise e =>
    (e = TypeError /\
     (header get "Message-ID" "" = HObject \/
      (exists id_text, header get "Message-ID" "" = HStr id_text /\
         msgid_search id_text <> None /\
         (header get "References" "" = HObject \/
          header get "In-Reply-To" "" = HObject)))) \/
    (e = ValueError /\
     exists id_text, header get "Message-ID" "" = HStr id_text /\
                     msgid_search id_text = None)
  end.
Proof.
  unfold new_message, header.
  destruct (default (HStr "") (get "Message-ID")) as [id_text|]; simpl;
    [|left; split; [done|by left]].
  destruct (msgid_search id_text) as [msg_id|] eqn:Hid;
    [|right; split; [done|by exists id_text]].
  destruct (default (HStr "") (get "References")) as [refs_text|]; simpl.
  2:{ left. split; [done|]. right. exists id_text.
      split_and!; [done|by rewrite Hid|by left]. }
  destruct (default (HStr "") (get "In-Reply-To")) as [reply_text|]; simpl.
  2:{ left. split; [done|]. right. exists id_text.
      split_and!; [done|by rewrite Hid|by right]. }
  exists id_text, refs_text, reply_text.
  destruct (unique_first_occurrences_lemma (msgid_findall refs_text))
    as (Hnd & Hin & _).
  split_and!; try done.
  - by intros s ->.
  - destruct (msgid_search reply_text) as [reply|]; [|done].
    case_decide; [done|]. apply NoDup_app. split_and!; [done| |].
    + intros x Hx ->%list_elem_of_singleton. done.
    + apply NoDup_singleton.
  - intros r. destruct (msgid_search reply_text) as [reply|].
    + case_decide as Hr.
      * rewrite <- Hin. split; [by left|]. intros [?|[= <-]]; done.
      * rewrite elem_of_app, list_elem_of_singleton, <- Hin. naive_solver.
    + rewrite <- Hin. naive_solver.
Qed.




End NewMessage.

(** * Pruning keeps the messages *)

Section PruneMessages.
Implicit Types (h : Heap) (c x : cid) (t : tree) (b : bool).

Lemma flatten_shape h fuel : forall t,
  shape h t -> height t <= fuel -> flatten fuel h (root t) = nodes t.
Proof.
  induction fuel as [|fuel IH]; intros [c ts] Hshape Hheight.
  { simpl in Hheight. lia. }
  apply shape_inv in Hshape as [Hkids Hts]. simpl. rewrite Hkids. f_equal.
  assert (Forall (fun t => height t <= fuel) ts) as Hhs.
  { apply Forall_forall. intros t Ht.
    pose proof (height_subtree c ts t Ht). lia. }
  clear Hkids Hheight. induction ts as [|t ts IHts]; [done|].
  apply Forall_cons in Hts as [Ht Hts]. apply Forall_cons in Hhs as [Hh Hhs].
  simpl. by rewrite (IH t Ht Hh), IHts.
Qed.

Lemma flatten_forest h fuel ts :
  Forall (shape h) ts -> Forall (fun t => height t <= fuel) ts ->
  flat_map (flatten fuel h) (map root ts) = flat_map nodes ts.
Proof.
  induction ts as [|t ts IH]; [done|].
  intros [Ht Hts]%Forall_cons [Hh Hhs]%Forall_cons. simpl.
  by rewrite (flatten_shape h fuel t Ht Hh), IH.
Qed.

Lemma max_list_bound (l : list nat) n :
  Forall (fun x => x <= n) l -> max_list l <= n.
Proof. induction 1; simpl; lia. Qed.

Lemma prune_forest_height h n ts :
  Forall (fun t => forall b, Forall (fun t' => height t' <= n)
                                    (prune_tree h b t)) ts ->
  Forall (fun t' => height t' <= n) (flat_map (prune_tree h true) ts).
Proof.
  induction 1 as [|t ts Ht _ IH]; simpl; [constructor|].
  apply Forall_app. split; [apply Ht|apply IH].
Qed.

(** Pruning makes no tree higher. *)
Lemma prune_tree_height h : forall t b,
  Forall (fun t' => height t' <= height t) (prune_tree h b t).
Proof.
  induction t as [c ts IH] using tree_induction. intros b.
  assert (Forall (fun t' => height t' <= max_list (map height ts))
                 (flat_map (prune_tree h true) ts)) as Hts.
  { apply prune_forest_height. rewrite Forall_forall in IH |- *.
    intros t Ht b'. eapply Forall_impl; [apply (IH t Ht)|].
    intros t' Ht'. simpl in Ht'.
    assert (height t <= max_list (map height ts)); [|lia].
    apply max_list_elem_of_le, list_elem_of_fmap. by exists t. }
  simpl. repeat case_match.
  - constructor.
  - eapply Forall_impl; [exact Hts|]. intros t' Ht'. simpl in *. lia.
  - constructor; [|constructor]. simpl. apply le_n_S.
    apply max_list_bound, Forall_fmap.
    eapply Forall_impl; [exact Hts|]. by intros t' Ht'.
Qed.

Lemma omap_flat_map_nodes h (f : tree -> list tree) ts :
  Forall (fun t => omap (msg_of h) (flat_map nodes (f t))
                   = omap (msg_of h) (nodes t)) ts ->
  omap (msg_of h) (flat_map nodes (flat_map f ts))
  = omap (msg_of h) (flat_map nodes ts).
Proof.
  induction 1 as [|t ts Ht _ IH]; [done|]. simpl.
  by rewrite flat_map_app, !omap_app, Ht, IH.
Qed.

(** Pruning keeps the messages of a tree, in the order of the walk. *)
Lemma prune_tree_messages h : forall t b,
  omap (msg_of h) (flat_map nodes (prune_tree h b t))
  = omap (msg_of h) (nodes t).
Proof.
  induction t as [c ts IH] using tree_induction. intros b.
  assert (omap (msg_of h) (flat_map nodes (flat_map (prune_tree h true) ts))
          = omap (msg_of h) (flat_map nodes ts)) as Hts.
  { apply omap_flat_map_nodes. eapply Forall_impl; [exact IH|].
    intros t Ht. apply Ht. }
  cbn [prune_tree nodes].
  set (ts' := flat_map (prune_tree h true) ts) in *.
  destruct (is_dummy h c) eqn:Hd; cbn [andb].
  - apply is_dummy_true in Hd. cbn [omap list_omap]. rewrite Hd.
    case_bool_decide as Hnil.
    { rewrite <- Hts, Hnil. done. }
    destruct (bool_decide (length ts' = 1) || b); [done|].
    cbn [flat_map nodes]. rewrite app_nil_r. cbn [omap list_omap].
    by rewrite Hd.
  - cbn [flat_map nodes]. rewrite app_nil_r. cbn [omap list_omap].
    by rewrite Hts.
Qed.

(** X13: pruning loses no message.  After [prune_container] on a
    container without parent of a heap whose links agree, the messages
    found under the returned containers, walked in pre-order, are the
    messages that were under the container before, in the same order;
    the messages themselves stay where they are, and a container that
    was not reached from the pruned one keeps its children and its
    parent. *)
Theorem prune_keeps_messages h c res h' :
  linked h -> par h c = None -> c < length h ->
  prune_container (length h) c h = Ok (res, h') ->
  forest_messages h' res = forest_messages h [c] /\
  (forall x, msg_of h' x = msg_of h x) /\
  (forall x, ~ rtc (descends h) c x ->
             kids h' x = kids h x /\ par h' x = par h x).
Proof.
  intros Hl Hc Hcv Hrun.
  destruct (root_tree h c Hl Hc Hcv) as (Hroot & Hshape & Hnd & Hheight).
  set (t := tree_of (length h - 1) h c) in *.
  destruct (prune_container_refines (length h) t h Hl Hshape Hnd Hheight)
    as (h1 & Hrun1 & Hl1 & Hlen1 & Hmsg1 & Hframe1 & _ & Hshape1 & _).
  rewrite Hroot in Hrun1, Hshape1. rewrite Hrun in Hrun1.
  injection Hrun1 as -> <-.
  set (out := prune_tree h (bool_decide (par h c <> None)) t) in *.
  split_and!; [|done|].
  - unfold forest_messages. rewrite flatten_forest; [|done|].
    + simpl. rewrite app_nil_r, <- Hroot.
      rewrite (flatten_shape h (length h) t Hshape Hheight).
      rewrite <- (prune_tree_messages h t (bool_decide (par h c <> None))).
      fold out.
      induction (flat_map nodes out) as [|x l IHl]; [done|].
      cbn [omap list_omap]. by rewrite Hmsg1, IHl.
    + eapply Forall_impl; [apply prune_tree_height|].
      intros t' Ht'. simpl in Ht'. lia.
  - intros x Hx. apply Hframe1. intros Hin. apply Hx.
    by apply root_tree_reach.
Qed.

Lemma prune_keeps_messages_witness :
  let m := mail "a" ["p"; "q"] "s" 0 in
  let n := mail "b" ["a"] "s" 1 in
  let h := [mkContainer None [1; 4] None;
            mkContainer None [2; 3] (Some 0);
            mkContainer (Some m) [] (Some 1);
            mkContainer (Some n) [] (Some 1);
            mkContainer (Some m) [] (Some 0)] in
  let h' := [mkContainer None [2; 3; 4] None;
             mkContainer None [] None;
             mkContainer (Some m) [] (Some 0);
             mkContainer (Some n) [] (Some 0);
             mkContainer (Some m) [] (Some 0)] in
  forest_messages h' [0] = forest_messages h [0] /\
  (forall x, msg_of h' x = msg_of h x) /\
  (forall x, ~ rtc (descends h) 0 x ->
             kids h' x = kids h x /\ par h' x = par h x).
Proof.
  intros m n h h'. apply (prune_keeps_messages h 0 [0] h').
  - apply linked_check_sound. vm_compute. reflexivity.
  - reflexivity.
  - simpl. lia.
  - vm_compute. reflexivity.
Defined.
End PruneMessages.

(** * Step one (b) makes no loop *)

Section NoLoop.
Implicit Types (h : Heap) (p c x y : cid).

(** A path in a heap that has one link more, from [p] to [c], is a path
    of the heap, or goes over the new link, or shows that [p] was
    reached from [c] already. *)
Lemma tc_extra_link h h' p c :
  (forall x y, descends h' x y -> descends h x y \/ (x = p /\ y = c)) ->
  forall x y, tc (descends h') x y ->
    tc (descends h) x y \/
    (rtc (descends h) x p /\ rtc (descends h) c y) \/
    rtc (descends h) c p.
Proof.
  intros Hstep x y Hpath.
  induction Hpath as [x y Hxy|x z y Hxz _ IH].
  - destruct (Hstep x y Hxy) as [?|[-> ->]]; [left; by apply tc_once|].
    right. by left.
  - destruct (Hstep x z Hxz) as [Hold|[-> ->]].
    + destruct IH as [IH|[[Hzp Hcy]|IH]].
      * left. by eapply tc_l.
      * right. left. split; [by eapply rtc_l|done].
      * by right; right.
    + destruct IH as [IH|[[Hzp Hcy]|IH]].
      * right. left. split; [done|by apply tc_rtc].
      * by right; right.
      * by right; right.
Qed.

(** X14: the test of step one (b) keeps the heap free of loops.  On a
    heap whose links agree and that has no loop of [children] links,
    the guarded [prev.add_child(container)] raises nothing and leaves a
    heap whose links agree and that has no loop; either nothing has
    changed, or [container], which had no parent, is now the last child
    of [prev]. *)
Theorem try_link_keeps_acyclic this_container prev container h :
  linked h -> (forall x, ~ tc (descends h) x x) ->
  prev < length h -> container < length h ->
  exists h',
    try_link this_container prev container h = Ok h' /\
    linked h' /\ (forall x, ~ tc (descends h') x x) /\
    (h' = h \/
     (par h container = None /\ par h' container = Some prev /\
      kids h' prev = kids h prev ++ [container])).
Proof.
  intros Hl Hacyclic Hp Hc. unfold try_link.
  assert (exists h', Ok h = Ok h' /\
    linked h' /\ (forall x, ~ tc (descends h') x x) /\
    (h' = h \/
     (par h container = None /\ par h' container = Some prev /\
      kids h' prev = kids h prev ++ [container]))) as Hsame.
  { exists h. split_and!; [done|done|done|by left]. }
  case_bool_decide as Hpar; [done|].
  case_bool_decide as Hthis; [done|].
  destruct (has_descendant_total h container prev) as (down & Hdown).
  rewrite Hdown. simpl. destruct down; [done|].
  destruct (has_descendant_total h prev container) as (up & Hup).
  rewrite Hup. simpl. destruct up; [done|]. clear Hsame.
  apply has_descendant_complete in Hdown.
  assert (Horphan : par h container = None).
  { destruct (par h container); [|done]. by destruct Hpar. }
  destruct (add_child_spec h prev container Hl Hp Hc)
    as (h' & Hrun & Hl' & _ & _ & Hkids & Hpar').
  assert (forall x, kids h' x
            = kids h x ++ (if decide (x = prev) then [container] else []))
    as Hkids'.
  { intros x. rewrite Hkids, remove_first_notin; [done|].
    by apply linked_orphan. }
  exists h'. split_and!; [done|done| |right].
  - intros x Hloop.
    destruct (tc_extra_link h h' prev container) with (x := x) (y := x)
      as [Hold|[[Hxp Hcx]|Hcp]]; [|done| | |].
    + intros a b. unfold descends. rewrite Hkids', elem_of_app.
      intros [?|Hnew]; [by left|right].
      case_decide; [|by apply elem_of_nil in Hnew].
      by apply list_elem_of_singleton in Hnew.
    + by apply (Hacyclic x).
    + apply Hdown. by etrans.
    + done.
  - split_and!; [done| |].
    + rewrite Hpar'. by rewrite decide_True.
    + rewrite Hkids'. by rewrite decide_True.
Qed.

Lemma try_link_keeps_acyclic_witness :
  let h := [mkContainer None [1] None; mkContainer None [] (Some 0);
            mkContainer None [3] None; mkContainer None [] (Some 2)] in
  exists h',
    try_link 3 1 2 h = Ok h' /\
    linked h' /\ (forall x, ~ tc (descends h') x x) /\
    (h' = h \/
     (par h 2 = None /\ par h' 2 = Some 1 /\
      kids h' 1 = kids h 1 ++ [2])).
Proof.
  intros h. apply (try_link_keeps_acyclic 3 1 2 h).
  - apply linked_check_sound. vm_compute. reflexivity.
  - intros x Hloop. assert (par h 0 = None) as Hroot0 by reflexivity.
    assert (par h 2 = None) as Hroot2 by reflexivity.
    assert (linked h) as Hl by (apply linked_check_sound; vm_compute; reflexivity).
    destruct (path_ancestor h x x Hl Hloop) as (k & Hk).
    assert (Hx : x < 4) by (apply (ancestor_valid h k x x Hk)).
    destruct x as [|[|[|[|x]]]]; [| | | |lia].
    + by apply (no_cycle h 0 0 0 k Hroot0).
    + by apply (no_cycle h 0 1 1 k Hroot0).
    + by apply (no_cycle h 2 0 2 k Hroot2).
    + by apply (no_cycle h 2 1 3 k Hroot2).
  - simpl. lia.
  - simpl. lia.
Defined.
End NoLoop.

(** * Step one: the parent of a message *)

Section LinkTrace.
Context (P : Message -> Prop).
Implicit Types (h : Heap) (t : IdTable) (c x : cid).

Lemma table_set_extends t k v k' v' :
  table_get t k = None -> table_get t k' = Some v' ->
  table_get (table_set t k v) k' = Some v'.
Proof.
  intros Hk Hk'. rewrite table_get_set. case_decide; [|done]. congruence.
Qed.

Lemma step_one_b_trace this_container ref prev t h :
  link_inv P t h -> (forall p, prev = Some p -> p < length h) ->
  exists p' t' h',
    step_one_b this_container ref (prev, t, h) = Ok (Some p', t', h') /\
    link_inv P t' h' /\ p' < length h' /\ length h <= length h' /\
    table_get t' (Some ref) = Some p' /\
    (forall k v, table_get t k = Some v -> table_get t' k = Some v) /\
    (forall x, x < length h -> msg_of h' x = msg_of h x).
Proof.
  intros Hinv Hprev. unfold step_one_b.
  assert (exists container t1 h1,
            match table_get t (Some ref) with
            | Some container => (container, t, h)
            | None => let '(container, h') := new_container h in
                      (container, table_set t (Some ref) container, h')
            end = (container, t1, h1) /\
            link_inv P t1 h1 /\ container < length h1 /\
            length h <= length h1 /\
            table_get t1 (Some ref) = Some container /\
            (forall k v, table_get t k = Some v -> table_get t1 k = Some v) /\
            (forall x, x < length h -> msg_of h1 x = msg_of h x))
    as (container & t1 & h1 & -> & Hinv1 & Hc & Hlen & Hget1 & Hext & Hmsg).
  { destruct (table_get t (Some ref)) as [c|] eqn:Hget.
    - exists c, t, h. split_and!; try done. by eapply link_inv_valid.
    - eexists _, _, _. split; [done|]. split_and!.
      + by apply link_inv_new.
      + rewrite length_app. simpl. lia.
      + rewrite length_app. lia.
      + rewrite table_get_set. by rewrite decide_True.
      + intros k v Hk. by apply table_set_extends.
      + intros x Hx. by rewrite msg_new. }
  destruct prev as [p|].
  - destruct (try_link_ok this_container p container h1)
      as (h2 & -> & Hl2 & Hlen2 & Hm2); [by apply Hinv1| |done|].
    { specialize (Hprev p eq_refl). lia. }
    simpl. eexists _, _, _. split; [done|].
    destruct Hinv1 as (_ & Hv1 & Hm1). split_and!; try done; try lia.
    + split_and!; [done|by rewrite Hlen2|].
      intros c m. rewrite Hm2. apply Hm1.
    + intros x Hx. rewrite Hm2. by apply Hmsg.
  - simpl. eexists _, _, _. split; [done|]. split_and!; done.
Qed.

Lemma step_one_b_trace_loop this_container refs : forall prev t h,
  link_inv P t h -> (forall p, prev = Some p -> p < length h) ->
  exists prev' t' h',
    for_each (step_one_b this_container) refs (prev, t, h)
    = Ok (prev', t', h') /\
    link_inv P t' h' /\ (forall p, prev' = Some p -> p < length h') /\
    length h <= length h' /\
    prev' = match last refs with
            | Some ref => table_get t' (Some ref)
            | None => prev
            end /\
    (prev' = None -> refs = [] /\ prev = None) /\
    (forall k v, table_get t k = Some v -> table_get t' k = Some v) /\
    (forall x, x < length h -> msg_of h' x = msg_of h x).
Proof.
  induction refs as [|ref refs IH]; intros prev t h Hinv Hprev.
  { by exists prev, t, h. }
  rewrite for_each_cons.
  destruct (step_one_b_trace this_container ref prev t h Hinv Hprev)
    as (p1 & t1 & h1 & -> & Hinv1 & Hp1 & Hlen1 & Hget1 & Hext1 & Hmsg1).
  simpl.
  destruct (IH (Some p1) t1 h1 Hinv1)
    as (p2 & t2 & h2 & -> & Hinv2 & Hp2 & Hlen2 & Hlast & Hnone & Hext2 & Hmsg2).
  { by intros p [= <-]. }
  exists p2, t2, h2. split_and!; try done.
  - lia.
  - rewrite last_cons. destruct (last refs) as [r|]; [done|].
    rewrite Hlast. symmetry. by apply Hext2.
  - intros Hp. by destruct (Hnone Hp).
  - intros k v Hk. by apply Hext2, Hext1.
  - intros x Hx. rewrite Hmsg2 by lia. by apply Hmsg1.
Qed.

Lemma step_one_a_trace msg t h :
  link_inv P t h -> P msg ->
  exists c t' h', step_one_a msg t h = (c, t', h') /\
                  link_inv P t' h' /\ c < length h' /\
                  table_get t' (message_id msg) = Some c /\
                  msg_of h' c = Some msg.
Proof.
  intros Hinv Hmsg.
  destruct (step_one_a_ok P msg t h Hinv Hmsg) as (c & t' & h' & Hrun & Hinv' & Hc).
  exists c, t', h'. split_and!; try done.
  - unfold step_one_a in Hrun.
    destruct (table_get t (message_id msg)) as [c0|] eqn:Hget.
    + by injection Hrun as <- <- <-.
    + simpl in Hrun. injection Hrun as <- <- <-.
      rewrite table_get_set. by rewrite decide_True.
  - unfold step_one_a in Hrun.
    destruct (table_get t (message_id msg)) as [c0|] eqn:Hget.
    + injection Hrun as <- <- <-. rewrite length_set_message in Hc.
      rewrite msg_set_message by done. by rewrite decide_True.
    + simpl in Hrun. injection Hrun as <- <- <-.
      rewrite length_set_message in Hc.
      rewrite msg_set_message by done. by rewrite decide_True.
Qed.

(** X15: step one for one message.  Whatever the state of the linker,
    linking a message raises nothing; afterwards the id table maps the
    identifier of the message to a container that holds the message.  If
    the message has references, the parent of that container is the
    container of the last reference, and it is its last child; if it has
    none, the container has no parent and is a child of no container. *)
Theorem link_message_parent msg t h :
  link_inv P t h -> P msg ->
  exists t' h' c,
    link_message msg (t, h) = Ok (t', h') /\ link_inv P t' h' /\
    table_get t' (message_id msg) = Some c /\
    msg_of h' c = Some msg /\
    match last (references msg) with
    | Some ref =>
      exists p, table_get t' (Some ref) = Some p /\
                par h' c = Some p /\ last (kids h' p) = Some c
    | None => par h' c = None /\ forall x, c ∉ kids h' x
    end.
Proof.
  intros Hinv Hmsg. unfold link_message.
  destruct (step_one_a_trace msg t h Hinv Hmsg)
    as (c & t1 & h1 & -> & Hinv1 & Hc & Hget1 & Hmsg1).
  destruct (step_one_b_trace_loop c (references msg) None t1 h1 Hinv1)
    as (prev & t2 & h2 & -> & Hinv2 & Hprev & Hlen & Hlast & Hsome & Hext & Hmsg2);
    [done|].
  simpl. destruct Hinv2 as (Hl2 & Hv2 & Hm2).
  assert (Hc2 : c < length h2) by lia.
  unfold step_one_c. destruct prev as [p|].
  - destruct (add_child_spec h2 p c Hl2 (Hprev p eq_refl) Hc2)
      as (h3 & -> & Hl3 & Hlen3 & Hm3 & Hk3 & Hp3).
    simpl. exists t2, h3, c. split_and!; try done.
    + split_and!; [done|by rewrite Hlen3|]. intros x m. rewrite Hm3. apply Hm2.
    + by apply Hext.
    + rewrite Hm3, Hmsg2 by done. done.
    + destruct (last (references msg)) as [ref|] eqn:Href; [|done].
      exists p. split_and!; [done| |].
      * rewrite Hp3. by rewrite decide_True.
      * rewrite Hk3, decide_True by done. apply last_snoc.
  - destruct (Hsome eq_refl) as [-> _]. simpl.
    destruct (par h2 c) as [q|] eqn:Hq.
    + destruct (remove_child_spec h2 q c Hl2)
        as (h3 & -> & Hl3 & Hlen3 & Hm3 & Hk3 & Hp3);
        [by apply (linked_up _ Hl2)|].
      simpl. exists t2, h3, c.
      assert (par h3 c = None) as Hpc.
      { rewrite Hp3. by rewrite decide_True. }
      split_and!; try done.
      * split_and!; [done|by rewrite Hlen3|]. intros x m. rewrite Hm3. apply Hm2.
      * by apply Hext.
      * rewrite Hm3, Hmsg2 by done. done.
      * intros x. by apply linked_orphan.
    + simpl. exists t2, h2, c. split_and!; try done.
      * by apply Hext.
      * by rewrite Hmsg2.
      * intros x. by apply linked_orphan.
Qed.
End LinkTrace.

Lemma link_message_parent_witness :
  exists t' h' c,
    link_message (mail "c" ["a"; "b"] "s" 0) ([], []) = Ok (t', h') /\
    link_inv (fun _ => True) t' h' /\
    table_get t' (message_id (mail "c" ["a"; "b"] "s" 0)) = Some c /\
    msg_of h' c = Some (mail "c" ["a"; "b"] "s" 0) /\
    match last (references (mail "c" ["a"; "b"] "s" 0)) with
    | Some ref =>
      exists p, table_get t' (Some ref) = Some p /\
                par h' c = Some p /\ last (kids h' p) = Some c
    | None => par h' c = None /\ forall x, c ∉ kids h' x
    end.
Proof.
  apply (link_message_parent (fun _ => True) (mail "c" ["a"; "b"] "s" 0) [] []).
  - split_and!; [apply linked_nil|reflexivity|done].
  - exact I.
Defined.



(** * Step five: the merge of two roots without message *)

Section Splice.
Implicit Types (h : Heap) (c x ctr X : cid) (l : list cid).

Lemma evens_cons {A} (a : A) (l : list A) : evens (a :: l) = a :: odds l.
Proof. by destruct l. Qed.

Lemma odds_cons {A} (a : A) (l : list A) : odds (a :: l) = evens l.
Proof. done. Qed.

Lemma remove_first_lookup l i c :
  NoDup l -> l !! i = Some c -> remove_first c l = take i l ++ drop (S i) l.
Proof.
  revert i. induction l as [|y l IH]; intros i Hnd Hi; [done|].
  apply NoDup_cons in Hnd as [Hy Hnd]. destruct i as [|i]; simpl in *.
  - injection Hi as ->. by rewrite decide_True.
  - rewrite decide_False.
    + by rewrite (IH i).
    + intros ->. apply Hy. by eapply list_elem_of_lookup_2.
Qed.

(** One turn of the walk: the child at position [i] has left the list,
    and the walk goes on at position [i + 1] of what is left. *)
Lemma alternate_step l i c :
  l !! i = Some c ->
  let l1 := take i l ++ drop (S i) l in
  take (S i) l1 ++ odds (drop (S i) l1) = take i l ++ odds (drop i l) /\
  c :: evens (drop (S i) l1) = evens (drop i l).
Proof.
  intros Hi l1.
  pose proof (take_drop_middle l i c Hi) as Hl.
  pose proof (lookup_lt_Some _ _ _ Hi) as Hlt.
  assert (length (take i l) = i) as Hlen by (rewrite length_take; lia).
  assert (drop i l = c :: drop (S i) l) as Hd.
  { rewrite <- Hl at 1. by rewrite drop_app_length'. }
  rewrite Hd, odds_cons, evens_cons. subst l1. clear Hd Hl.
  generalize dependent (drop (S i) l). generalize dependent (take i l).
  intros A HA D. subst i.
  replace (S (length A)) with (length A + 1) by lia.
  rewrite take_app_add, drop_app_add.
  split.
  - rewrite <- app_assoc. by destruct D as [|b [|b' r]].
  - by destruct D as [|b [|b' r]].
Qed.

Lemma splice_children_alternate ctr X fuel : forall i h,
  linked h -> ctr <> X -> X < length h ->
  length (kids h ctr) - i < fuel ->
  exists h',
    splice_children fuel i ctr X h = Ok h' /\ linked h' /\
    kids h' ctr = take i (kids h ctr) ++ odds (drop i (kids h ctr)) /\
    kids h' X = kids h X ++ evens (drop i (kids h ctr)) /\
    (forall x, x <> ctr -> x <> X -> kids h' x = kids h x) /\
    (forall x, msg_of h' x = msg_of h x).
Proof.
  induction fuel as [|fuel IH]; intros i h Hl Hne HX Hfuel; [lia|].
  simpl. destruct (kids h ctr !! i) as [child|] eqn:Hi.
  2:{ exists h. apply lookup_ge_None in Hi.
      rewrite take_ge, drop_ge by lia. rewrite !app_nil_r.
      by split_and!. }
  pose proof (list_elem_of_lookup_2 _ _ _ Hi) as Hin.
  pose proof (linked_down _ Hl _ _ Hin) as Hpar.
  pose proof (linked_child_valid _ _ _ Hl Hin) as Hcv.
  pose proof (lookup_lt_Some _ _ _ Hi) as Hlt.
  destruct (add_child_spec h X child Hl HX Hcv)
    as (h1 & -> & Hl1 & Hlen1 & Hm1 & Hk1 & Hp1).
  simpl.
  assert (forall x, x <> ctr -> remove_first child (kids h x) = kids h x) as Hrf.
  { intros x Hx. apply remove_first_notin.
    by apply (linked_not_child h x child ctr). }
  assert (kids h1 ctr = take i (kids h ctr) ++ drop (S i) (kids h ctr)) as Hctr1.
  { rewrite Hk1, decide_False, app_nil_r by done.
    apply remove_first_lookup; [apply (linked_nodup _ Hl)|done]. }
  assert (kids h1 X = kids h X ++ [child]) as HX1.
  { rewrite Hk1, Hrf by done. by rewrite decide_True. }
  destruct (IH (S i) h1) as (h' & -> & Hl' & Hctr' & HX' & Hk' & Hm');
    [done|done|lia| |].
  { rewrite Hctr1, length_app, length_take, length_drop. lia. }
  destruct (alternate_step (kids h ctr) i child Hi) as [Hodd Heven].
  exists h'. split_and!.
  - done.
  - done.
  - by rewrite Hctr', Hctr1.
  - rewrite HX', HX1, Hctr1, <- app_assoc. simpl. by rewrite Heven.
  - intros x Hxc HxX. rewrite Hk' by done. rewrite Hk1, Hrf by done.
    by rewrite decide_False, app_nil_r.
  - intros x. by rewrite Hm', Hm1.
Qed.

(** X17: the merge of two roots without message walks the children of
    the representative while [add_child] takes them out of that very
    list.  The walk raises nothing and moves every other child only:
    the children at the positions 0, 2, 4, ... become the last children
    of the other root, and those at the positions 1, 3, 5, ... stay where
    they were. *)
Theorem splice_moves_every_other h ctr X :
  linked h -> ctr <> X -> X < length h ->
  exists h',
    splice_children (S (length (kids h ctr))) 0 ctr X h = Ok h' /\
    linked h' /\
    kids h' ctr = odds (kids h ctr) /\
    kids h' X = kids h X ++ evens (kids h ctr) /\
    (forall x, x <> ctr -> x <> X -> kids h' x = kids h x) /\
    (forall x, msg_of h' x = msg_of h x).
Proof.
  intros Hl Hne HX.
  destruct (splice_children_alternate ctr X (S (length (kids h ctr))) 0 h)
    as (h' & Hrun & Hl' & Hctr & HkX & Hk & Hm); [done|done|done|lia|].
  exists h'. split_and!; try done.
Qed.

Lemma splice_moves_every_other_witness :
  let h := [mkContainer None [2; 3; 4] None; mkContainer None [5] None;
            mkContainer None [] (Some 0); mkContainer None [] (Some 0);
            mkContainer None [] (Some 0); mkContainer None [] (Some 1)] in
  exists h',
    splice_children (S (length (kids h 0))) 0 0 1 h = Ok h' /\
    linked h' /\
    kids h' 0 = odds (kids h 0) /\
    kids h' 1 = kids h 1 ++ evens (kids h 0) /\
    (forall x, x <> 0 -> x <> 1 -> kids h' x = kids h x) /\
    (forall x, msg_of h' x = msg_of h x).
Proof.
  intros h. apply (splice_moves_every_other h 0 1).
  - apply linked_check_sound. vm_compute. reflexivity.
  - discriminate.
  - simpl. lia.
Defined.
End Splice.

(** * Step five: which containers are returned *)

Section Returned.
Implicit Types (h : Heap) (t : SubjectTable) (c e r x X : cid).

Lemma splice_children_length ctr X fuel : forall i h h',
  splice_children fuel i ctr X h = Ok h' -> length h' = length h.
Proof.
  induction fuel as [|fuel IH]; intros i h h'; simpl; [done|].
  destruct (kids h ctr !! i); [|by intros [= <-]].
  intros (h1 & Hadd & Hrest)%bind_Ok.
  rewrite (IH _ _ _ Hrest). by eapply add_child_length.
Qed.

(** The table is filled with roots whose subject is not empty. *)
Lemma table_step_values h X t t' e :
  table_step h X t = Ok t' -> e ∈ table_values t' ->
  e ∈ table_values t \/
  (e = X /\ exists k, k <> "" /\ grouping_subject h X = Ok k).
Proof.
  unfold table_step. intros (subj & Hsubj & Hrun)%bind_Ok.
  case_bool_decide as Hempty; [injection Hrun as <-; by left|].
  assert (e ∈ table_values (table_set t subj X) ->
          e ∈ table_values t \/
          (e = X /\ exists k, k <> "" /\ grouping_subject h X = Ok k)) as Hset.
  { intros [->|?]%table_values_set; [right|by left]. split; [done|].
    by exists subj. }
  destruct (table_get t subj) as [existing|].
  - apply bind_Ok in Hrun as ([|] & _ & [= <-]); [done|]. by left.
  - by injection Hrun as <-.
Qed.

Lemma build_subject_table_values h rest : forall t t' e,
  for_each (table_step h) rest t = Ok t' -> e ∈ table_values t' ->
  e ∈ table_values t \/
  (e ∈ rest /\ exists k, k <> "" /\ grouping_subject h e = Ok k).
Proof.
  induction rest as [|X rest IH]; intros t t' e.
  { intros [= <-]. by left. }
  rewrite for_each_cons. intros (t1 & Hstep & Hrest)%bind_Ok He.
  destruct (IH t1 t' e Hrest He) as [He1|[Hin Hk]].
  - destruct (table_step_values h X t t1 e Hstep He1) as [?|[-> Hk]];
      [by left|right]. split; [by left|done].
  - right. split; [by right|done].
Qed.

(** The merge loop puts nothing into the table but new containers. *)
Lemma merge_step_values X t h t' h' :
  merge_step X (t, h) = Ok (t', h') ->
  length h <= length h' /\
  forall e, e ∈ table_values t' -> e ∈ table_values t \/ length h <= e.
Proof.
  unfold merge_step. intros (subj & Hsubj & Hrun)%bind_Ok.
  assert (forall h1, length h1 = length h -> Ok (t, h1) = Ok (t', h') ->
    length h <= length h' /\
    forall e, e ∈ table_values t' -> e ∈ table_values t \/ length h <= e)
    as Hsame.
  { intros h1 Hlen [= <- <-]. split; [lia|]. intros e. by left. }
  destruct (table_get t subj) as [ctr|]; [|by apply (Hsame h)].
  case_bool_decide; [by apply (Hsame h)|].
  destruct (is_dummy h ctr && is_dummy h X).
  { apply bind_Ok in Hrun as (h1 & Hsplice & Hrun).
    apply (Hsame h1); [|done]. by eapply splice_children_length. }
  destruct (is_dummy h ctr || is_dummy h X).
  { destruct (is_dummy h ctr);
      apply bind_Ok in Hrun as (h1 & Hadd & Hrun);
      (apply (Hsame h1); [|done]); by eapply add_child_length. }
  destruct (msg_of h ctr) as [mr|]; [|done].
  destruct (msg_of h X) as [mc|]; [|done].
  apply bind_Ok in Hrun as (sr & _ & Hrun).
  apply bind_Ok in Hrun as (sc & _ & Hrun).
  case_bool_decide.
  { apply bind_Ok in Hrun as (h1 & Hadd & Hrun).
    apply (Hsame h1); [|done]. by eapply add_child_length. }
  case_bool_decide.
  { apply bind_Ok in Hrun as (h1 & Hadd & Hrun).
    apply (Hsame h1); [|done]. by eapply add_child_length. }
  simpl in Hrun.
  apply bind_Ok in Hrun as (h1 & Hadd1 & Hrun).
  apply bind_Ok in Hrun as (h2 & Hadd2 & [= <- <-]).
  apply add_child_length in Hadd1, Hadd2.
  rewrite length_app in Hadd1. simpl in Hadd1. split; [lia|].
  intros e [->|?]%table_values_set; [right; lia|by left].
Qed.

Lemma merge_values rest : forall t h t' h',
  for_each merge_step rest (t, h) = Ok (t', h') ->
  forall e, e ∈ table_values t' -> e ∈ table_values t \/ length h <= e.
Proof.
  induction rest as [|X rest IH]; intros t h t' h'.
  { intros [= <- <-] e. by left. }
  rewrite for_each_cons. intros ([t1 h1] & Hstep & Hrest)%bind_Ok e He.
  destruct (merge_step_values X t h t1 h1 Hstep) as [Hlen Hvals].
  destruct (IH t1 h1 t' h' Hrest e He) as [He1|He1]; [|right; lia].
  by apply Hvals.
Qed.

Lemma grouping_subject_valid h c k :
  grouping_subject h c = Ok k -> c < length h.
Proof.
  unfold grouping_subject, subject_source. intros Hk.
  destruct (decide (c < length h)); [done|].
  rewrite msg_out_of_range, kids_out_of_range in Hk by lia. done.
Qed.

(** X18: what the grouping by subject returns.  Every container that
    [thread] returns with the grouping is a root of the pruned root set
    (what [thread] returns without the grouping) whose normalized subject
    is not empty, or a container made by the grouping itself.  So a root
    whose normalized subject is empty is never returned. *)
Theorem empty_subject_never_returned (room : nat) (messages : list Message)
    (root_set : list cid) (h0 : Heap) (out : list cid) (h' : Heap) :
  thread room messages false = Ok (root_set, h0) ->
  thread room messages true = Ok (out, h') ->
  (forall e, e ∈ out ->
     (e ∈ root_set /\ exists k, k <> "" /\ grouping_subject h0 e = Ok k) \/
     length h0 <= e) /\
  (forall r, grouping_subject h0 r = Ok "" -> r ∉ out).
Proof.
  unfold thread. intros Hflat Hgrouped.
  apply bind_Ok in Hflat as ([id_table h] & Hlink & Hflat).
  rewrite Hlink in Hgrouped. simpl in Hgrouped.
  apply bind_Ok in Hflat as (h1 & Hassert & Hflat).
  rewrite Hassert in Hgrouped. simpl in Hgrouped.
  apply bind_Ok in Hflat as ([roots2 h2] & Hprune & [= -> ->]).
  change (2 + room) with (S (S room)) in Hprune.
  rewrite Hprune in Hgrouped. simpl in Hgrouped.
  unfold group_by_subject_step in Hgrouped.
  apply bind_Ok in Hgrouped as (t & Hbuild & Hgrouped).
  apply bind_Ok in Hgrouped as ([t' h3] & Hmerge & [= <- <-]).
  assert (forall e, e ∈ table_values t' ->
     (e ∈ root_set /\ exists k, k <> "" /\ grouping_subject h0 e = Ok k) \/
     length h0 <= e) as Hout.
  { intros e He.
    destruct (merge_values root_set t h0 t' h3 Hmerge e He) as [He0|?];
      [|by right].
    destruct (build_subject_table_values h0 root_set [] t e Hbuild He0)
      as [Hnil|?]; [|by left].
    by apply elem_of_nil in Hnil. }
  split; [done|]. intros r Hr Hin.
  destruct (Hout r Hin) as [[_ (k & Hk & Hrk)]|Hfresh].
  - rewrite Hr in Hrk. by injection Hrk as <-.
  - apply grouping_subject_valid in Hr. lia.
Qed.

Lemma empty_subject_never_returned_witness :
  let messages := [mail "a" [] "Re:[list] Re:" 0; mail "b" [] "plain" 1;
                   mail "c" [] "Re:" 2] in
  let h0 := [mkContainer (Some (mail "a" [] "Re:[list] Re:" 0)) [] None;
             mkContainer (Some (mail "b" [] "plain" 1)) [] None;
             mkContainer (Some (mail "c" [] "Re:" 2)) [] None] in
  (forall e, e ∈ [1] ->
     (e ∈ [0; 1; 2] /\ exists k, k <> "" /\ grouping_subject h0 e = Ok k) \/
     length h0 <= e) /\
  (forall r, grouping_subject h0 r = Ok "" -> r ∉ [1]).
Proof.
  intros messages h0.
  apply (empty_subject_never_returned default_room messages [0; 1; 2] h0
           [1] h0).
  - vm_compute. reflexivity.
  - vm_compute. reflexivity.
Defined.
End Returned.

(** * [SUBJECT_RE.sub] *)

Section SubjectRe.
Implicit Types (s r : string) (a : ascii).

Lemma string_length_app s r :
  String.length (s ++ r)%string = String.length s + String.length r.
Proof.
  induction s as [|a s IH]; [done|]. rewrite string_app_cons. simpl.
  by rewrite IH.
Qed.

Lemma span_while_length (p : ascii -> bool) s n r :
  span_while p s = (n, r) -> String.length s = n + String.length r.
Proof.
  intros (Hs & Hlen & _)%span_while_spec.
  rewrite Hs at 1. by rewrite string_length_app, Hlen.
Qed.

Lemma match_reply_shorter s r :
  match_reply s = Some r -> String.length r < String.length s.
Proof.
  destruct s as [|c0 [|c1 [|c s2]]]; simpl; try done.
  { by destruct (_ && _). }
  destruct (_ && _); [|done].
  destruct (Ascii.eqb c ":"); [intros [= <-]; lia|].
  destruct (Ascii.eqb c "["); [|done].
  destruct (span_while is_digit s2) as [n s3] eqn:Hspan.
  apply span_while_length in Hspan.
  destruct n as [|n]; [done|]. destruct s3 as [|c3 [|c4 s4]]; try done.
  destruct (_ && _); [|done]. intros [= <-]. simpl in Hspan. lia.
Qed.

Lemma match_tag_shorter s r :
  match_tag s = Some r -> String.length r < String.length s.
Proof.
  destruct s as [|c s1]; simpl; [done|].
  destruct (Ascii.eqb c "["); [|done].
  destruct (span_while _ s1) as [n s2] eqn:Hspan.
  apply span_while_length in Hspan.
  destruct n as [|n]; [done|]. destruct s2 as [|c2 s3]; [done|].
  destruct (span_while is_space s3) as [n' r'] eqn:Hspace.
  apply span_while_length in Hspace. intros [= <-]. simpl in *. lia.
Qed.

Lemma match_round_shorter s r :
  match_round s = Some r -> String.length r < String.length s.
Proof.
  unfold match_round. destruct (match_reply s) as [r'|] eqn:Hreply.
  - intros [= <-]. by apply match_reply_shorter.
  - apply match_tag_shorter.
Qed.

Lemma match_rounds_length fuel : forall s,
  String.length (match_rounds fuel s) <= String.length s.
Proof.
  induction fuel as [|fuel IH]; intros s; simpl; [done|].
  destruct (match_round s) as [r|] eqn:Hround; [|done].
  apply match_round_shorter in Hround. specialize (IH r). lia.
Qed.

Lemma subject_re_match_shorter s r :
  subject_re_match s = Some r -> String.length r < String.length s.
Proof.
  unfold subject_re_match. destruct (match_round s) as [r1|] eqn:Hround;
    [|done].
  intros [= <-]. apply match_round_shorter in Hround.
  pose proof (match_rounds_length (String.length r1) r1). lia.
Qed.

Lemma subject_re_sub_loop_length fuel : forall s,
  String.length (subject_re_sub_loop fuel s) <= String.length s.
Proof.
  induction fuel as [|fuel IH]; intros s; [done|].
  destruct s as [|a s]; [done|]. cbn [subject_re_sub_loop].
  destruct (subject_re_match (String a s)) as [r|] eqn:Hmatch.
  - apply subject_re_match_shorter in Hmatch. specialize (IH r). lia.
  - specialize (IH s). simpl. lia.
Qed.

Lemma plain_no_match a s :
  a <> "r"%char -> a <> "R"%char -> a <> "["%char ->
  subject_re_match (String a s) = None.
Proof.
  intros Hr HR Hb. unfold subject_re_match, match_round.
  assert (match_reply (String a s) = None) as ->.
  { destruct s as [|e s1]; [done|]. simpl. unfold is_letter at 1.
    apply Ascii.eqb_neq in Hr, HR. by rewrite Hr, HR. }
  simpl. apply Ascii.eqb_neq in Hb. by rewrite Hb.
Qed.

Lemma subject_re_sub_loop_plain fuel : forall s,
  plain_subject s -> subject_re_sub_loop fuel s = s.
Proof.
  induction fuel as [|fuel IH]; intros s Hs; [done|].
  destruct s as [|a s]; [done|].
  apply Forall_cons in Hs as [(Hr & HR & Hb) Hs].
  cbn [subject_re_sub_loop]. rewrite plain_no_match by done.
  by rewrite IH.
Qed.

(** X19: [SUBJECT_RE.sub('', s)] only deletes: what it gives is no
    longer than [s].  It gives [s] back as it is when [s] has none of the
    characters [r], [R] and the opening square bracket, with which a
    match has to start. *)
Theorem subject_re_sub_plain s :
  String.length (subject_re_sub s) <= String.length s /\
  (plain_subject s -> subject_re_sub s = s).
Proof.
  split.
  - apply subject_re_sub_loop_length.
  - apply subject_re_sub_loop_plain.
Qed.

(** The budgets of the two loops are large enough: more changes
    nothing. *)
Lemma match_rounds_fuel f1 : forall f2 s,
  String.length s <= f1 -> String.length s <= f2 ->
  match_rounds f1 s = match_rounds f2 s.
Proof.
  induction f1 as [|f1 IH]; intros f2 s H1 H2.
  { destruct s; [|simpl in H1; lia]. by destruct f2. }
  destruct f2 as [|f2].
  { destruct s; [done|simpl in H2; lia]. }
  simpl. destruct (match_round s) as [r|] eqn:Hround; [|done].
  apply match_round_shorter in Hround. apply IH; lia.
Qed.

Lemma subject_re_sub_loop_fuel f1 : forall f2 s,
  String.length s <= f1 -> String.length s <= f2 ->
  subject_re_sub_loop f1 s = subject_re_sub_loop f2 s.
Proof.
  induction f1 as [|f1 IH]; intros f2 s H1 H2.
  { destruct s; [|simpl in H1; lia]. by destruct f2. }
  destruct f2 as [|f2].
  { destruct s; [done|simpl in H2; lia]. }
  destruct s as [|a s]; [done|]. cbn [subject_re_sub_loop].
  destruct (subject_re_match (String a s)) as [r|] eqn:Hmatch.
  - apply subject_re_match_shorter in Hmatch. apply IH; lia.
  - simpl in H1, H2. f_equal. apply IH; lia.
Qed.

Lemma subject_re_sub_loop_cons fuel a s :
  subject_re_sub_loop (S fuel) (String a s)
  = match subject_re_match (String a s) with
    | Some r => subject_re_sub_loop fuel r
    | None => String a (subject_re_sub_loop fuel s)
    end.
Proof. reflexivity. Qed.

Lemma subject_re_sub_match s r :
  subject_re_match s = Some r -> subject_re_sub s = subject_re_sub r.
Proof.
  intros Hmatch. unfold subject_re_sub.
  destruct s as [|a s]; [done|].
  rewrite subject_re_sub_loop_cons, Hmatch.
  apply subject_re_match_shorter in Hmatch.
  apply subject_re_sub_loop_fuel; lia.
Qed.

Lemma subject_re_sub_rounds n : forall s,
  String.length s <= n -> subject_re_sub (match_rounds n s) = subject_re_sub s.
Proof.
  induction n as [|n IH]; intros s Hn; [done|]. simpl.
  destruct (match_round s) as [r|] eqn:Hround; [|done].
  assert (subject_re_match s = Some (match_rounds (String.length r) r)) as Hm.
  { unfold subject_re_match. by rewrite Hround. }
  apply match_round_shorter in Hround.
  rewrite (subject_re_sub_match s _ Hm).
  f_equal. apply match_rounds_fuel; lia.
Qed.

(** X20: a reply marker or a tag at the head of a subject does not
    count.  When one round of [SUBJECT_RE] ([Re:], [Re[n]:] or a
    bracketed tag with the blanks after it) matches at the head of [s]
    and leaves [r], the normalized subjects of [s] and of [r] are the
    same. *)
Theorem subject_re_sub_round s r :
  match_round s = Some r -> subject_re_sub s = subject_re_sub r.
Proof.
  intros Hround.
  assert (subject_re_match s = Some (match_rounds (String.length r) r)) as Hm.
  { unfold subject_re_match. by rewrite Hround. }
  rewrite (subject_re_sub_match s _ Hm).
  by apply subject_re_sub_rounds.
Qed.

Lemma subject_re_sub_round_witness :
  subject_re_sub "Re[2]:[list] Re: First" = subject_re_sub "[list] Re: First".
Proof.
  apply (subject_re_sub_round "Re[2]:[list] Re: First" "[list] Re: First").
  reflexivity.
Defined.
End SubjectRe.

(** * Sorting twice *)

(** X21: sorting the threads a second time changes nothing, whatever the
    heap: [sort_threads] applied to what [sort_threads] returned, with the
    same key and sentinel, returns it again (and an error of the first
    call is the error of the two calls).  The flag [reverse] plays no
    part: the second call may give another one. *)
Theorem sort_threads_idempotent (h : Heap) (threads : list cid)
    (key : string) (missing : Value) (reverse reverse' : bool) :
  (do out <- sort_threads h threads key missing reverse;
   sort_threads h out key missing reverse')
  = sort_threads h threads key missing reverse.
Proof.
  unfold sort_threads. case_bool_decide as Hkey; [|done].
  destruct (sorted (sort_func h key missing) threads) as [out|e] eqn:Hrun;
    [|done].
  simpl. apply sorted_fixed.
  by destruct (sorted_stable _ _ _ Hrun) as [Hsorted _].
Qed.

(** * [print_container] *)

Section Printing.
Implicit Types (h : Heap) (c r : cid) (t : tree).

Lemma print_container_shape h fuel : forall t depth,
  shape h t -> height t <= fuel ->
  exists out,
    print_container fuel h (root t) depth = Ok out /\
    head out = Some (print_line h (root t) depth) /\
    2 * length (nodes t) <= length out + 1.
Proof.
  induction fuel as [|fuel IH]; intros [c ts] depth Hshape Hheight.
  { simpl in Hheight. lia. }
  apply shape_inv in Hshape as [Hkids Hts]. simpl. rewrite Hkids.
  assert (forall acc, exists below,
    for_each (fun child out =>
                do first <- print_container fuel h child (S depth);
                do second <- print_container fuel h child (S depth);
                Ok (out ++ first ++ second))
             (map root ts) acc = Ok below /\
    length acc + 2 * length (flat_map nodes ts) <= length below) as Hloop.
  { assert (Forall (fun t => height t <= fuel) ts) as Hhs.
    { apply Forall_forall. intros t Ht.
      pose proof (height_subtree c ts t Ht). lia. }
    clear Hkids Hheight. induction ts as [|t ts IHts]; intros acc.
    - exists acc. split; [done|]. simpl. lia.
    - apply Forall_cons in Hts as [Ht Hts].
      apply Forall_cons in Hhs as [Hh Hhs].
      cbn [map flat_map]. rewrite for_each_cons.
      destruct (IH t (S depth) Ht Hh) as (lines & -> & _ & Hlines). simpl.
      destruct (IHts Hts Hhs (acc ++ lines ++ lines)) as (below & -> & Hbelow).
      exists below. split; [done|].
      rewrite !length_app in *.
      assert (1 <= length (nodes t)) by (destruct t; simpl; lia). lia. }
  destruct (Hloop []) as (below & -> & Hbelow). simpl.
  eexists. split; [done|]. split; [done|]. simpl in *. lia.
Qed.

(** X22: [print_container] with [debug] off, on a container without
    parent of a heap whose links agree.  It raises nothing and prints the
    line of the container first; but the loop over the children calls
    itself twice for each child, so for [n] containers under the root,
    itself included, at least [2 n - 1] lines are printed: more lines
    than containers as soon as the root has a child. *)
Theorem print_container_repeats h r :
  linked h -> par h r = None -> r < length h ->
  exists out,
    print_container (length h) h r 0 = Ok out /\
    head out = Some (print_line h r 0) /\
    2 * length (flatten (length h) h r) <= length out + 1 /\
    (kids h r <> [] -> length (flatten (length h) h r) < length out).
Proof.
  intros Hl Hr Hrv.
  destruct (root_tree h r Hl Hr Hrv) as (Hroot & Hshape & _ & Hheight).
  destruct (print_container_shape h (length h) _ 0 Hshape Hheight)
    as (out & Hrun & Hhead & Hlen).
  pose proof (flatten_shape h (length h) _ Hshape Hheight) as Hflat.
  rewrite Hroot in Hrun, Hhead, Hflat. rewrite Hflat.
  exists out. split_and!; [done|done|done|].
  intros Hkids.
  enough (2 <= length (nodes (tree_of (length h - 1) h r))) by lia.
  destruct (tree_of (length h - 1) h r) as [c ts]. simpl in Hroot. subst c.
  apply shape_inv in Hshape as [Hk _]. rewrite Hk in Hkids.
  destruct ts as [|[c1 ts1] ts]; [done|]. simpl. lia.
Qed.

Lemma print_container_repeats_witness :
  let m := mail "a" [] "First" 0 in
  let h := [mkContainer (Some m) [1; 2] None;
            mkContainer (Some (mail "b" ["a"] "Re: First" 1)) [] (Some 0);
            mkContainer None [] (Some 0)] in
  exists out,
    print_container (length h) h 0 0 = Ok out /\
    head out = Some (print_line h 0 0) /\
    2 * length (flatten (length h) h 0) <= length out + 1 /\
    (kids h 0 <> [] -> length (flatten (length h) h 0) < length out).
Proof.
  intros m h. apply (print_container_repeats h 0).
  - apply linked_check_sound. vm_compute. reflexivity.
  - reflexivity.
  - simpl. lia.
Defined.
End Printing.

(** * Step five: the returned containers are distinct *)

Section Grouped.
Implicit Types (h : Heap) (t : SubjectTable) (c e x X : cid).

Lemma remove_child_msgs p c h h' x :
  remove_child p c h = Ok h' -> msg_of h' x = msg_of h x.
Proof.
  unfold remove_child. case_decide; [|done]. intros [= <-].
  by rewrite msg_set_parent, msg_set_children.
Qed.

Lemma add_child_msgs p c h h' x :
  add_child p c h = Ok h' -> msg_of h' x = msg_of h x.
Proof.
  unfold add_child. intros (h1 & Hh1 & [= <-])%bind_Ok.
  rewrite msg_set_parent, msg_set_children.
  destruct (par h c); [by eapply remove_child_msgs|by injection Hh1 as ->].
Qed.







End Grouped.

(** * Step five: the subject table as a whole *)

(** X24: the first loop of step five, on a pruned root set (distinct
    roots, each with a message or with a first child that has one) of a
    heap whose messages have subjects.  It raises nothing.  The table has
    no key twice; each key is the normalized subject, not empty, of the
    root it stands for; and every root with a normalized subject that is
    not empty finds a representative under that subject: a root without
    message, or, when the root has a message itself, possibly a root
    whose subject is no longer than its own; for a root without message
    the representative is without message too. *)
Theorem build_subject_table_represents (h : Heap) (roots : list cid) :
  subjects_ok h -> roots_ok h roots ->
  exists t,
    build_subject_table h roots = Ok t /\
    NoDup (map fst t) /\
    (forall k e, table_get t k = Some e ->
       e ∈ roots /\ k <> "" /\ grouping_subject h e = Ok k) /\
    (forall X k, X ∈ roots -> grouping_subject h X = Ok k -> k <> "" ->
       exists e, table_get t k = Some e /\
         (msg_of h e = None \/
          (msg_of h X <> None /\ subject_len h e <= subject_len h X))).
Proof.
  intros Hsub Hroots.
  destruct (build_subject_table_ok h roots Hsub Hroots)
    as (t & Hrun & Hkeys & Hin & Hdummy & Hmsg).
  exists t. split_and!; [done|done|done|].
  intros X k HX Hk Hne. destruct (msg_of h X) as [m|] eqn:HmX.
  - destruct (Hmsg X k HX) as (e & He & Hcase); [by rewrite HmX|done|done|].
    exists e. split; [done|]. destruct Hcase as [?|?]; [by left|by right].
  - apply list_elem_of_split in HX as (l1 & l2 & ->).
    destruct (Hdummy l1 X l2 k eq_refl HmX Hk Hne) as (e & He & Hme & _).
    exists e. split; [done|by left].
Qed.

Lemma build_subject_table_represents_witness :
  let h := [mkContainer (Some (mail "a" [] "Re: First" 0)) [] None;
            mkContainer None [2; 3] None;
            mkContainer (Some (mail "b" [] " First" 1)) [] (Some 1);
            mkContainer (Some (mail "c" [] "x" 2)) [] (Some 1)] in
  exists t,
    build_subject_table h [0; 1] = Ok t /\
    NoDup (map fst t) /\
    (forall k e, table_get t k = Some e ->
       e ∈ [0; 1] /\ k <> "" /\ grouping_subject h e = Ok k) /\
    (forall X k, X ∈ [0; 1] -> grouping_subject h X = Ok k -> k <> "" ->
       exists e, table_get t k = Some e /\
         (msg_of h e = None \/
          (msg_of h X <> None /\ subject_len h e <= subject_len h X))).
Proof.
  intros h. apply (build_subject_table_represents h [0; 1]).
  - intros [|[|[|[|c]]]] m Hm; vm_compute in Hm; try discriminate;
      injection Hm as <-; discriminate.
  - split; [apply (bool_decide_unpack _); vm_compute; exact I|].
    intros r Hr. assert (r = 0 \/ r = 1) as [-> | ->].
    { rewrite !elem_of_cons, elem_of_nil in Hr. tauto. }
    + split_and!; [reflexivity|simpl; lia|]. intros Hm. discriminate.
    + split_and!; [reflexivity|simpl; lia|]. intros _.
      exists 2, [3]. split; [reflexivity|discriminate].
Defined.

(** * Step one: one container for each identifier *)

Section Identifiers.
Context (P : Message -> Prop).
Implicit Types (h : Heap) (t : IdTable) (c x : cid).

Lemma table_get_injective {K} `{EqDecision K} (t : Table K) k k' c :
  NoDup (table_values t) ->
  table_get t k = Some c -> table_get t k' = Some c -> k = k'.
Proof.
  unfold table_values. induction t as [|[k0 v0] t IH]; simpl; [done|].
  intros [Hv Hvals]%NoDup_cons.
  case_decide as Hk; case_decide as Hk'; subst.
  - done.
  - intros [= ->] Hget. apply table_get_values in Hget. by destruct Hv.
  - intros Hget [= ->]. apply table_get_values in Hget. by destruct Hv.
  - by apply IH.
Qed.

Lemma try_link_msgs this_container prev container h h' x :
  try_link this_container prev container h = Ok h' ->
  msg_of h' x = msg_of h x.
Proof.
  unfold try_link. case_bool_decide; [by intros [= <-]|].
  case_bool_decide; [by intros [= <-]|].
  intros ([|] & _ & Hrun)%bind_Ok; [by injection Hrun as <-|].
  apply bind_Ok in Hrun as ([|] & _ & Hrun); [by injection Hrun as <-|].
  by eapply add_child_msgs.
Qed.

Lemma step_one_b_pure this_container ref prev t h prev' t' h' :
  step_one_b this_container ref (prev, t, h) = Ok (prev', t', h') ->
  (NoDup (map fst t) -> NoDup (map fst t')) /\
  (forall k v, table_get t k = Some v -> table_get t' k = Some v) /\
  (forall x, msg_of h' x = msg_of h x).
Proof.
  unfold step_one_b. destruct (table_get t (Some ref)) as [container|] eqn:Hget.
  - intros (h2 & Hlink & [= <- <- <-])%bind_Ok. split_and!; [done|done|].
    intros x. destruct prev as [p|]; [|by injection Hlink as <-].
    by eapply try_link_msgs.
  - simpl. intros (h2 & Hlink & [= <- <- <-])%bind_Ok. split_and!.
    + apply table_set_keys_NoDup.
    + intros k v Hk. rewrite table_get_set. case_decide; [congruence|done].
    + intros x. rewrite <- (msg_new h x).
      destruct prev as [p|]; [|by injection Hlink as <-].
      by eapply try_link_msgs.
Qed.

Lemma step_one_b_loop_pure this_container refs : forall prev t h prev' t' h',
  for_each (step_one_b this_container) refs (prev, t, h)
  = Ok (prev', t', h') ->
  (NoDup (map fst t) -> NoDup (map fst t')) /\
  (forall k v, table_get t k = Some v -> table_get t' k = Some v) /\
  (forall x, msg_of h' x = msg_of h x).
Proof.
  induction refs as [|ref refs IH]; intros prev t h prev' t' h'.
  { by intros [= <- <- <-]. }
  rewrite for_each_cons. intros ([[p1 t1] h1] & Hstep & Hrest)%bind_Ok.
  destruct (step_one_b_pure _ _ _ _ _ _ _ _ Hstep) as (Hk1 & He1 & Hm1).
  destruct (IH _ _ _ _ _ _ Hrest) as (Hk2 & He2 & Hm2).
  split_and!; [by auto|by auto|]. intros x. by rewrite Hm2, Hm1.
Qed.

Lemma step_one_c_msgs this_container prev h h' x :
  step_one_c this_container prev h = Ok h' -> msg_of h' x = msg_of h x.
Proof.
  unfold step_one_c. destruct prev as [p|]; [by apply add_child_msgs|].
  destruct (par h this_container); [by apply remove_child_msgs|].
  by intros [= <-].
Qed.

Lemma step_one_a_pure msg t h c t1 h1 :
  link_inv P t h -> step_one_a msg t h = (c, t1, h1) ->
  table_get t1 (message_id msg) = Some c /\
  (forall x, msg_of h1 x = if decide (x = c) then Some msg else msg_of h x) /\
  (NoDup (map fst t) -> NoDup (map fst t1)) /\
  (forall k v, table_get t k = Some v -> table_get t1 k = Some v).
Proof.
  intros Hinv. unfold step_one_a.
  destruct (table_get t (message_id msg)) as [c0|] eqn:Hget.
  - intros [= <- <- <-]. split_and!; [done| |done|done].
    intros x. apply msg_set_message. by eapply link_inv_valid.
  - simpl. intros [= <- <- <-]. split_and!.
    + rewrite table_get_set. by rewrite decide_True.
    + intros x. rewrite msg_set_message, msg_new; [done|].
      rewrite length_app. simpl. lia.
    + apply table_set_keys_NoDup.
    + intros k v Hk. rewrite table_get_set. case_decide; [congruence|done].
Qed.

Lemma link_message_ids msg seen t h :
  link_inv P t h -> P msg -> ids_inv t h -> ids_stored seen t h ->
  exists t' h',
    link_message msg (t, h) = Ok (t', h') /\ link_inv P t' h' /\
    ids_inv t' h' /\ ids_stored (seen ++ [msg]) t' h'.
Proof.
  intros Hinv Hmsg [Hkeys Hids] Hstored.
  destruct (link_message_ok P msg t h Hinv Hmsg) as (t' & h' & Hrun & Hinv').
  exists t', h'. split; [done|]. split; [done|].
  unfold link_message in Hrun.
  destruct (step_one_a msg t h) as [[c t1] h1] eqn:Ha.
  destruct (step_one_a_pure msg t h c t1 h1 Hinv Ha)
    as (Hget1 & Hm1 & Hk1 & He1).
  apply bind_Ok in Hrun as ([[prev t2] h2] & Hb & Hrun).
  destruct (step_one_b_loop_pure _ _ _ _ _ _ _ _ Hb) as (Hk2 & He2 & Hm2).
  apply bind_Ok in Hrun as (h3 & Hc & [= <- <-]).
  assert (forall x, msg_of h3 x
                    = if decide (x = c) then Some msg else msg_of h x) as Hm.
  { intros x. by rewrite (step_one_c_msgs _ _ _ _ x Hc), Hm2, Hm1. }
  assert (forall k v, table_get t k = Some v -> table_get t2 k = Some v) as He.
  { intros k v Hk. by apply He2, He1. }
  assert (table_get t2 (message_id msg) = Some c) as Hgetc by (by apply He2).
  split; [split|].
  - by apply Hk2, Hk1.
  - intros x m. rewrite Hm. case_decide as Hx; [by intros [= <-]; subst|].
    intros Hxm. by apply He, Hids.
  - intros m [Hm0| ->%list_elem_of_singleton]%elem_of_app.
    + destruct (Hstored m Hm0) as (c0 & m' & Hget0 & Hmsg0 & Hid0).
      exists c0. destruct (decide (c0 = c)) as [->|Hne].
      * exists msg. split_and!; [by apply He|by rewrite Hm, decide_True|].
        destruct Hinv' as (_ & Hvals & _).
        apply (table_get_injective t2 _ _ c); [|done|by apply He].
        rewrite Hvals. apply NoDup_seq.
      * exists m'. split_and!; [by apply He| |done].
        by rewrite Hm, decide_False.
    + exists c, msg. split_and!; [done| |done]. by rewrite Hm, decide_True.
Qed.

Lemma link_messages_ids messages : forall seen t h,
  Forall P messages -> link_inv P t h -> ids_inv t h -> ids_stored seen t h ->
  exists t' h',
    for_each link_message messages (t, h) = Ok (t', h') /\ link_inv P t' h' /\
    ids_inv t' h' /\ ids_stored (seen ++ messages) t' h'.
Proof.
  induction messages as [|msg messages IH]; intros seen t h HP Hinv Hids Hst.
  { exists t, h. by rewrite app_nil_r. }
  rewrite for_each_cons. apply Forall_cons in HP as [Hmsg HP].
  destruct (link_message_ids msg seen t h Hinv Hmsg Hids Hst)
    as (t1 & h1 & -> & Hinv1 & Hids1 & Hst1).
  simpl. destruct (IH (seen ++ [msg]) t1 h1 HP Hinv1 Hids1 Hst1)
    as (t' & h' & -> & ? & ? & Hst').
  exists t', h'. split_and!; try done.
  by rewrite <- app_assoc in Hst'.
Qed.
End Identifiers.

(** X25: step one as a whole, for any list of messages.  It raises
    nothing.  The id table lists the containers in the order of their
    creation and has no identifier twice; every message of the heap is
    one of the input and sits in the container of its own identifier, so
    no two containers hold messages with one identifier; and for every
    message of the input the container of its identifier holds a message
    with that identifier (a later message with the same identifier has
    taken the place of an earlier one). *)
Theorem link_messages_one_per_id (messages : list Message) :
  exists t h,
    link_messages messages = Ok (t, h) /\
    table_values t = seq 0 (length h) /\ NoDup (map fst t) /\
    (forall c m, msg_of h c = Some m ->
       m ∈ messages /\ table_get t (message_id m) = Some c) /\
    (forall c c' m m', msg_of h c = Some m -> msg_of h c' = Some m' ->
       message_id m = message_id m' -> c = c') /\
    (forall m, m ∈ messages ->
       exists c m', table_get t (message_id m) = Some c /\
                    msg_of h c = Some m' /\ message_id m' = message_id m).
Proof.
  destruct (link_messages_ids (fun m => m ∈ messages) messages [] [] [])
    as (t & h & Hrun & (Hl & Hvals & Hmsgs) & [Hkeys Hids] & Hstored).
  - by apply Forall_forall.
  - split_and!; [apply linked_nil|done|].
    intros c m. by rewrite msg_out_of_range by (simpl; lia).
  - split; [constructor|]. intros c m.
    by rewrite msg_out_of_range by (simpl; lia).
  - by intros m ?%elem_of_nil.
  - exists t, h. split_and!; try done.
    + intros c m Hc. split; [by eapply Hmsgs|by apply Hids].
    + intros c c' m m' Hc Hc' Hid. apply Hids in Hc, Hc'.
      rewrite Hid in Hc. congruence.
Qed.
